(** * mermaid-board: the CodeEditor component

    A shallow embedding of [src/client/src/components/CodeEditor.tsx]:
    the line highlighter [highlightSyntax] (five chained
    [String.prototype.replace] calls with global regular expressions),
    the line-number gutter, the scroll synchroniser [syncScroll], the
    copy button's feedback flag [handleCopy] with its tooltip, and the
    style objects of the textarea, the overlay and the gutter.

    JavaScript strings are sequences of UTF-16 code units; a code unit is
    modelled as a number of type [N] and a string as a list of them.  The
    regular expressions of the source carry no [u] flag, so they work on
    code units, [\b] and the classes are the ASCII ones, and [.] excludes
    the four line terminators. *)

From Stdlib Require Import NArith List Bool Lia Arith.
From Stdlib Require String Ascii.
Import ListNotations String.StringSyntax.
Delimit Scope string_scope with string.

Set Implicit Arguments.

(** ** Code units and strings *)

Abbreviation cu := N (only parsing).
Abbreviation str := (list N) (only parsing).

Definition lit (s : String.string) : str :=
  map Ascii.N_of_ascii (String.list_ascii_of_string s).
Arguments lit s%_string.

Definition dquote : cu := 34%N.
Definition newline : cu := 10%N.

Definition in_range (lo hi c : cu) : bool := (lo <=? c)%N && (c <=? hi)%N.
Arguments in_range (lo hi c)%_N.

Definition is_upper (c : cu) : bool := in_range 65 90 c.
Definition is_lower (c : cu) : bool := in_range 97 122 c.
Definition is_digit (c : cu) : bool := in_range 48 57 c.
(** [[A-Za-z]] *)
Definition is_letter (c : cu) : bool := is_upper c || is_lower c.
(** [[A-Za-z0-9]] *)
Definition is_alnum (c : cu) : bool := is_letter c || is_digit c.
(** [[A-Fa-f0-9]] *)
Definition is_hex (c : cu) : bool :=
  in_range 65 70 c || in_range 97 102 c || is_digit c.
(** [\w], the word characters that [\b] looks at: [[A-Za-z0-9_]] *)
Definition is_word (c : cu) : bool := is_alnum c || (c =? 95)%N.
(** [.] without the [s] flag: anything but LF, CR, U+2028, U+2029 *)
Definition is_dot (c : cu) : bool :=
  negb ((c =? 10) || (c =? 13) || (c =? 8232) || (c =? 8233))%N.

Definition is_word_opt (o : option cu) : bool :=
  match o with Some c => is_word c | None => false end.

(** [starts_with p s]: [p] is a prefix of [s]. *)
Fixpoint starts_with (p s : str) : bool :=
  match p, s with
  | [], _ => true
  | _ :: _, [] => false
  | a :: p', b :: s' => (a =? b)%N && starts_with p' s'
  end.

(** [contains p s]: [p] occurs in [s] as a contiguous substring. *)
Fixpoint contains (p s : str) : bool :=
  starts_with p s ||
  match s with
  | [] => false
  | _ :: s' => contains p s'
  end.

(** Number of (possibly overlapping) occurrences of [p] in [s]. *)
Fixpoint occurrences (p s : str) : nat :=
  (if starts_with p s then 1 else 0) +
  match s with
  | [] => 0
  | _ :: s' => occurrences p s'
  end.

(** ** A backtracking matcher for the regular expressions of the source

    The constructors are the ones the five patterns need.  Matching follows
    the ECMAScript semantics: a matcher takes the current position and a
    continuation and backtracks when the continuation fails; alternatives
    are tried left to right, a lazy star tries the continuation before it
    consumes one more character. *)

Module Regex.

Inductive regex : Type :=
| Eps                           (* the empty pattern *)
| Cls (p : cu -> bool)          (* one character of a class *)
| Cat (r1 r2 : regex)           (* r1 r2 *)
| Alt (r1 r2 : regex)           (* r1|r2 *)
| StarLazy (p : cu -> bool)     (* [class]*? *)
| WordB                         (* \b *)
| Grp (i : nat) (r : regex).    (* the i-th capturing group *)

Definition Chr (c : cu) : regex := Cls (N.eqb c).
Arguments Chr c%_N.

(** A literal string. *)
Fixpoint Lit (s : str) : regex :=
  match s with
  | [] => Eps
  | c :: s' => Cat (Chr c) (Lit s')
  end.

(** The position of a match in progress: the character before the current
    index, the characters consumed since the last group opened (most recent
    first), the remaining input, and the captures made so far. *)
Record mstate : Type := MState {
  before : option cu;
  taken  : list cu;
  rest   : str;
  caps   : list (nat * str)
}.

Definition cont := mstate -> option mstate.

Fixpoint lazy_loop (p : cu -> bool) (k : cont)
    (b : option cu) (t : list cu) (cs : list (nat * str)) (s : str)
    : option mstate :=
  match k (MState b t s cs) with
  | Some r => Some r
  | None =>
      match s with
      | c :: s' => if p c then lazy_loop p k (Some c) (c :: t) cs s' else None
      | [] => None
      end
  end.

Fixpoint run (r : regex) (st : mstate) (k : cont) : option mstate :=
  match r with
  | Eps => k st
  | Cls p =>
      match rest st with
      | c :: s' =>
          if p c then k (MState (Some c) (c :: taken st) s' (caps st))
          else None
      | [] => None
      end
  | Cat r1 r2 => run r1 st (fun st' => run r2 st' k)
  | Alt r1 r2 =>
      match run r1 st k with
      | Some res => Some res
      | None => run r2 st k
      end
  | StarLazy p => lazy_loop p k (before st) (taken st) (caps st) (rest st)
  | WordB =>
      if xorb (is_word_opt (before st)) (is_word_opt (hd_error (rest st)))
      then k st else None
  | Grp i r' =>
      run r' (MState (before st) [] (rest st) (caps st))
        (fun st' =>
           k (MState (before st') (taken st' ++ taken st) (rest st')
                ((i, rev (taken st')) :: caps st')))
  end.

(** The result of [RegExp.prototype.exec] at one index: the matched text,
    the captures, and the input after the match. *)
Record hit : Type := Hit {
  whole : str;
  groups : list (nat * str);
  after : str
}.

Fixpoint group (i : nat) (g : list (nat * str)) : option str :=
  match g with
  | [] => None
  | (j, s) :: g' => if Nat.eqb i j then Some s else group i g'
  end.

(** Try the pattern at the current index; [prev] is the character before
    it ([None] at the start of the input). *)
Definition exec (r : regex) (prev : option cu) (s : str) : option hit :=
  match run r (MState prev [] s []) (fun st => Some st) with
  | Some st => Some (Hit (rev (taken st)) (caps st) (rest st))
  | None => None
  end.

End Regex.

Import Regex.

(** ** [String.prototype.replace] with a global pattern

    A [rule] tells, at one index, what the replacement is and how many
    characters the match covers.  [replace_from] walks the input once:
    [skip] counts the characters of the current match still to be passed
    over.  After an empty match the index advances by one and the
    character is copied. *)

Definition rule := option cu -> str -> option (str * nat).

Fixpoint replace_from (f : rule) (prev : option cu) (s : str) (skip : nat)
    : str :=
  match s with
  | [] =>
      match skip, f prev [] with
      | O, Some (rep, _) => rep
      | _, _ => []
      end
  | c :: s' =>
      match skip with
      | S n => replace_from f (Some c) s' n
      | O =>
          match f prev s with
          | Some (rep, O) => rep ++ c :: replace_from f (Some c) s' 0
          | Some (rep, S n) => rep ++ replace_from f (Some c) s' n
          | None => c :: replace_from f (Some c) s' 0
          end
      end
  end.

Definition replace_all (f : rule) (s : str) : str := replace_from f None s 0.

(** A global regular expression with a replacer function. *)
Definition regex_rule (r : regex) (replacer : hit -> str) : rule :=
  fun prev s =>
    match exec r prev s with
    | Some h => Some (replacer h, length (whole h))
    | None => None
    end.

(** ** The component *)

Inductive PaletteMode : Type := dark | light.

Record Colors : Type := MkColors {
  keyword : str;
  node : str;
  operator : str;
  hexColor : str -> str
}.

(** [getColors] *)
Definition getColors (mode : PaletteMode) : Colors :=
  {| keyword := match mode with dark => lit "#B39DDB" | light => lit "#9575CD" end;
     node := match mode with dark => lit "#4fa1e3" | light => lit "#64B5F6" end;
     operator := match mode with dark => lit "#7DD180" | light => lit "#81C784" end;
     hexColor := fun m => m |}.

(** The two halves of the template [<span style="color: ${c}">${x}</span>]. *)
Definition span_open (c : str) : str :=
  lit "<span style=" ++ dquote :: lit "color: " ++ c ++ dquote :: lit ">".
Definition span_close : str := lit "</span>".
Definition span (c x : str) : str := span_open c ++ x ++ span_close.

(** What a template literal prints for a capture. *)
Definition show (o : option str) : str :=
  match o with Some s => s | None => lit "undefined" end.

(** What [$n] stands for in a replacement string: the capture, or nothing
    when the group did not take part in the match. *)
Definition dollar (o : option str) : str :=
  match o with Some s => s | None => [] end.

(** [/<br\/>/g] *)
Definition re_br : regex := Lit (lit "<br/>").

(** [/#[A-Fa-f0-9]{6}/g] *)
Definition re_hex : regex :=
  Cat (Chr 35) (Cat (Cls is_hex) (Cat (Cls is_hex) (Cat (Cls is_hex)
    (Cat (Cls is_hex) (Cat (Cls is_hex) (Cls is_hex)))))).

(** [/\b(graph|TD|LR|TB|RL)\b/g] *)
Definition re_keyword : regex :=
  Cat WordB
    (Cat (Grp 1 (Alt (Lit (lit "graph"))
                (Alt (Lit (lit "TD"))
                (Alt (Lit (lit "LR"))
                (Alt (Lit (lit "TB"))
                     (Lit (lit "RL")))))))
         WordB).

(** [/\b([A-Za-z])\b|([A-Za-z][A-Za-z0-9]*?)(\(.*?\)|\[.*?\])/g] *)
Definition re_node : regex :=
  Alt (Cat WordB (Cat (Grp 1 (Cls is_letter)) WordB))
      (Cat (Grp 2 (Cat (Cls is_letter) (StarLazy is_alnum)))
           (Grp 3 (Alt (Cat (Chr 40) (Cat (StarLazy is_dot) (Chr 41)))
                       (Cat (Chr 91) (Cat (StarLazy is_dot) (Chr 93)))))).

(** [/-->/g] *)
Definition re_arrow : regex := Lit (lit "-->").

Section Highlighter.

Variable mode : PaletteMode.

Let colors := getColors mode.

(** [.replace(/<br\/>/g, '&lt;br/&gt;')] *)
Definition escape_rule : rule :=
  regex_rule re_br (fun _ => lit "&lt;br/&gt;").

(** The replacer of the hex pattern: the colour is the match itself. *)
Definition hex_rule : rule :=
  regex_rule re_hex (fun h => span (hexColor colors (whole h)) (whole h)).

(** The replacement string of the keyword pattern; [$1] is the first
    group. *)
Definition keyword_rule : rule :=
  regex_rule re_keyword
    (fun h => span (keyword colors) (dollar (group 1 (groups h)))).

(** The replacer of the node pattern: [if (single)] holds when the first
    alternative matched (a captured empty string would be falsy too). *)
Definition node_replacer (h : hit) : str :=
  match group 1 (groups h) with
  | Some (c :: single) => span (node colors) (c :: single)
  | _ => span (node colors) (show (group 2 (groups h)))
           ++ show (group 3 (groups h))
  end.

Definition node_rule : rule := regex_rule re_node node_replacer.

Definition arrow_rule : rule :=
  regex_rule re_arrow (fun _ => span (operator colors) (lit "-->")).

Definition escape_step : str -> str := replace_all escape_rule.
Definition hex_step : str -> str := replace_all hex_rule.
Definition keyword_step : str -> str := replace_all keyword_rule.
Definition node_step : str -> str := replace_all node_rule.
Definition arrow_step : str -> str := replace_all arrow_rule.

(** [coloredLine] of one line. *)
Definition coloredLine (line : str) : str :=
  arrow_step (node_step (keyword_step (hex_step (escape_step line)))).

Definition nbsp : str := lit "&nbsp;".

(** [coloredLine || '&nbsp;']: the empty string is falsy. *)
Definition or_nbsp (s : str) : str :=
  match s with [] => nbsp | _ :: _ => s end.

End Highlighter.

(** [String.prototype.split] with the separator [newline]. *)
Fixpoint split_lines (s : str) : list str :=
  match s with
  | [] => [[]]
  | c :: s' =>
      if (c =? newline)%N then [] :: split_lines s'
      else match split_lines s' with
           | l :: ls => (c :: l) :: ls
           | [] => [[c]]
           end
  end.

(** The [<div key={i} dangerouslySetInnerHTML={{ __html: ... }} />] of one
    line. *)
Record LineElement : Type := MkLine { key : nat; html : str }.

Fixpoint map_indexed {A B : Type} (f : A -> nat -> B) (i : nat) (l : list A)
    : list B :=
  match l with
  | [] => []
  | a :: l' => f a i :: map_indexed f (S i) l'
  end.

(** [highlightSyntax] *)
Definition highlightSyntax (mode : PaletteMode) (code : str)
    : list LineElement :=
  map_indexed (fun line i => MkLine i (or_nbsp (coloredLine mode line))) 0
    (split_lines code).

(** [lineNumbers]: [Array.from({ length: n }, (_, i) => i + 1)] *)
Definition lineNumbers (value : str) : list nat :=
  map (fun i => i + 1) (seq 0 (length (split_lines value))).

(** ** The rules at one index, read off the patterns *)

Definition br_tag : str := Eval cbv in lit "<br/>".
Definition escaped_br : str := Eval cbv in lit "&lt;br/&gt;".
Definition arrow : str := Eval cbv in lit "-->".

(** The character before the index that follows the text [m]. *)
Definition last_of (prev : option cu) (m : str) : option cu :=
  fold_left (fun _ c => Some c) m prev.

(** [\b] between two neighbouring positions. *)
Definition boundary (a b : option cu) : bool :=
  xorb (is_word_opt a) (is_word_opt b).

Definition escape_at (s : str) : option (str * nat) :=
  if starts_with br_tag s then Some (escaped_br, 5) else None.

(** The hex pattern at one index: the matched token. *)
Definition hex_at (s : str) : option str :=
  match s with
  | c :: h1 :: h2 :: h3 :: h4 :: h5 :: h6 :: _ =>
      if (35 =? c)%N && forallb is_hex [h1; h2; h3; h4; h5; h6]
      then Some [c; h1; h2; h3; h4; h5; h6] else None
  | _ => None
  end.

Definition keywords : list str :=
  Eval cbv in [lit "graph"; lit "TD"; lit "LR"; lit "TB"; lit "RL"].

(** The keyword pattern at one index: the matched keyword. *)
Definition keyword_at (prev : option cu) (s : str) : option str :=
  if boundary prev (hd_error s) then
    find (fun kw =>
            starts_with kw s &&
            boundary (last_of prev kw) (hd_error (skipn (length kw) s)))
         keywords
  else None.

(** What the node pattern matches: its first alternative (one letter) or
    its second (a name and a shape). *)
Inductive node_hit : Type :=
| Single (c : cu)
| Shaped (name shape : str).

(** The rest of a shape after its opening delimiter: the lazy [.*?] stops
    at the first closing delimiter and never passes a line terminator. *)
Fixpoint shape_body (close : cu) (s : str) : option str :=
  match s with
  | [] => None
  | c :: s' =>
      if (close =? c)%N then Some [c]
      else if is_dot c then option_map (cons c) (shape_body close s')
      else None
  end.

(** [\(.*?\)|\[.*?\]] *)
Definition shape_at (s : str) : option str :=
  match s with
  | c :: s' =>
      if (40 =? c)%N then option_map (cons c) (shape_body 41%N s')
      else if (91 =? c)%N then option_map (cons c) (shape_body 93%N s')
      else None
  | [] => None
  end.

(** [[A-Za-z0-9]*?] followed by the shape: the rest of the name grows one
    character at a time until a shape follows. *)
Fixpoint name_shape (s : str) : option (str * str) :=
  match shape_at s with
  | Some sh => Some ([], sh)
  | None =>
      match s with
      | c :: s' =>
          if is_alnum c
          then option_map (fun ns => (c :: fst ns, snd ns)) (name_shape s')
          else None
      | [] => None
      end
  end.

Definition node_at (prev : option cu) (s : str) : option node_hit :=
  match s with
  | c :: s' =>
      if is_letter c then
        if boundary prev (Some c) && boundary (Some c) (hd_error s')
        then Some (Single c)
        else match name_shape s' with
             | Some (n, sh) => Some (Shaped (c :: n) sh)
             | None => None
             end
      else None
  | [] => None
  end.

Definition arrow_at (s : str) : bool := starts_with arrow s.

(** A rule is proper when its matches are non-empty and lie within the
    input. *)
Definition proper (f : rule) : Prop :=
  forall prev s rep n, f prev s = Some (rep, n) -> 0 < n <= length s.

(** The replacement and the length of a match of the node pattern. *)
Definition node_replacement (mode : PaletteMode) (h : node_hit) : str * nat :=
  match h with
  | Single c => (span (node (getColors mode)) [c], 1)
  | Shaped n sh => (span (node (getColors mode)) n ++ sh, length (n ++ sh))
  end.

(** A hex colour token: [#] and six hex digits. *)
Definition hex_token (t : str) : Prop :=
  exists h, t = 35%N :: h /\ length h = 6 /\ Forall (fun c => is_hex c = true) h.

(** A shape delimiter: parenthesized or bracketed text on one line, up to
    the first closing delimiter. *)
Definition shape (sh : str) : Prop :=
  exists body,
    (sh = 40%N :: body ++ [41%N] /\ ~ In 41%N body \/
     sh = 91%N :: body ++ [93%N] /\ ~ In 93%N body) /\
    Forall (fun c => is_dot c = true) body.

(** ** Scroll synchronisation

    The two surfaces are DOM elements; an element is known by its
    reference and carries its scroll offsets.  The store maps references
    to elements, so that two references to one element alias.  The type of
    offsets is left open: the handler only copies them, and an assignment
    to an offset stores the value as it is. *)

Module Scroll.
Section Sync.

Variable Offset : Type.

Record Element : Type := MkElement { scrollTop : Offset; scrollLeft : Offset }.

Definition Ref := nat.
Definition Store := Ref -> Element.

Definition update (st : Store) (r : Ref) (e : Element) : Store :=
  fun r' => if Nat.eqb r' r then e else st r'.

(** [el.scrollTop = v] and [el.scrollLeft = v] *)
Definition set_scrollTop (r : Ref) (v : Offset) (st : Store) : Store :=
  update st r (MkElement v (scrollLeft (st r))).
Definition set_scrollLeft (r : Ref) (v : Offset) (st : Store) : Store :=
  update st r (MkElement (scrollTop (st r)) v).

(** [textareaRef.current] and [highlightRef.current]; [None] is [null]. *)
Record Refs : Type := MkRefs {
  textareaRef : option Ref;
  highlightRef : option Ref
}.

(** [syncScroll]; [target] is [e.target]. *)
Definition syncScroll (refs : Refs) (target : Ref) (st : Store) : Store :=
  let source := target in
  match textareaRef refs, highlightRef refs with
  | Some textarea, Some highlight =>
      if Nat.eqb source textarea then
        let st1 := set_scrollTop highlight (scrollTop (st source)) st in
        set_scrollLeft highlight (scrollLeft (st1 source)) st1
      else
        let st1 := set_scrollTop textarea (scrollTop (st source)) st in
        set_scrollLeft textarea (scrollLeft (st1 source)) st1
  | _, _ => st
  end.

(** The surface that receives the offsets of a scroll event. *)
Definition receiver (refs : Refs) (target : Ref) : option Ref :=
  match textareaRef refs, highlightRef refs with
  | Some textarea, Some highlight =>
      Some (if Nat.eqb target textarea then highlight else textarea)
  | _, _ => None
  end.

End Sync.
End Scroll.

(** ** The copy button

    Time is counted in milliseconds.  The state holds the feedback flag
    [copied], the texts handed to [navigator.clipboard.writeText] so far,
    and the pending timers: each one is the due time of a callback
    [() => setCopied(false)].  A timer fires when the clock reaches its
    due time. *)

Module Copy.

(** What the call [navigator.clipboard.writeText(value)] does to the
    handler.  Where [navigator.clipboard] is undefined (a page outside a
    secure context) the call throws and the handler ends there.  Otherwise
    it returns a promise at once; the handler neither awaits it nor looks
    at its outcome, so whether the text reaches the clipboard is not known
    to the component. *)
Inductive WriteCall : Type := Throws | Returns.

Record State : Type := MkState {
  now : N;
  copied : bool;
  writes : list (list N);
  timers : list N
}.

Definition initial : State := MkState 0 false [] [].

(** [handleCopy] *)
Definition handleCopy (call : WriteCall) (value : str) (s : State) : State :=
  match call with
  | Throws => s                                       (* writeText(value) throws *)
  | Returns =>
      {| now := now s;
         copied := true;                              (* setCopied(true) *)
         writes := writes s ++ [value];               (* writeText(value) *)
         timers := timers s ++ [(now s + 2000)%N] |}  (* setTimeout(.., 2000) *)
  end.

(** Let [d] milliseconds pass: every timer that is due by then fires and
    sets the flag to false. *)
Definition advance (d : N) (s : State) : State :=
  let t := (now s + d)%N in
  {| now := t;
     copied := if existsb (fun due => (due <=? t)%N) (timers s)
               then false else copied s;
     writes := writes s;
     timers := filter (fun due => negb (due <=? t)%N) (timers s) |}.

Inductive Event : Type :=
| Activate (call : WriteCall) (value : list N)
| Wait (d : N).

Definition step (s : State) (e : Event) : State :=
  match e with
  | Activate call value => handleCopy call value s
  | Wait d => advance d s
  end.

Definition run (trace : list Event) : State := fold_left step trace initial.

(** The time since the most recent activation whose handler ran to its
    end, if there was one. *)
Fixpoint since_last (trace : list Event) (acc : option N) : option N :=
  match trace with
  | [] => acc
  | Activate Returns _ :: tr => since_last tr (Some 0%N)
  | Activate Throws _ :: tr => since_last tr acc
  | Wait d :: tr => since_last tr (option_map (fun a => (a + d)%N) acc)
  end.

End Copy.

(** The walk of a rule over a text, from an index where no match is in
    progress. *)
Abbreviation walk f prev s := (replace_from f prev s 0).

(** ** Text and injected markup

    The markup the highlighter injects: the opening tag of a span with a
    colour of the form [#RRGGBB], and the closing tag. *)
Inductive wrapper : list N -> Prop :=
| wrapper_open c : hex_token c -> wrapper (span_open c)
| wrapper_close : wrapper span_close.

(** [Decorated a b]: the text [b] is the text [a] with wrappers inserted;
    deleting them from [b] gives [a] back. *)
Inductive Decorated : list N -> list N -> Prop :=
| Decorated_nil : Decorated [] []
| Decorated_char c a b : Decorated a b -> Decorated (c :: a) (c :: b)
| Decorated_wrap w a b : wrapper w -> Decorated a b -> Decorated a (w ++ b).

(** A line in the making: characters of the text, and blocks of markup
    that later steps leave in one piece. *)
Inductive item : Type :=
| Ch (c : N)
| Blk (b : list N).

Definition flat (l : list item) : list N :=
  flat_map (fun i => match i with Ch c => [c] | Blk b => b end) l.

Definition chars (l : list item) : list N :=
  flat_map (fun i => match i with Ch c => [c] | Blk _ => [] end) l.

Definition blocks (Q : list N -> Prop) (l : list item) : Prop :=
  Forall (fun i => match i with Ch _ => True | Blk b => Q b end) l.

(** [Extends l l']: [l'] is [l] with wrapper blocks inserted. *)
Inductive Extends : list item -> list item -> Prop :=
| Extends_nil : Extends [] []
| Extends_keep i l l' : Extends l l' -> Extends (i :: l) (i :: l')
| Extends_wrap w l l' : wrapper w -> Extends l l' -> Extends l (Blk w :: l').

(** A block begins with [<] and holds no closing delimiter of a shape. *)
Definition guarded (b : list N) : Prop :=
  (exists b', b = 60%N :: b') /\ ~ In 41%N b /\ ~ In 93%N b.

(** The walk of a rule copies an inert block, whatever surrounds it. *)
Definition inert (f : rule) (b : list N) : Prop :=
  forall prev r, walk f prev (b ++ r) = b ++ walk f (last_of prev b) r.

(** A character that starts neither a keyword nor an arrow and closes no
    shape. *)
Definition quiet (c : N) : bool :=
  negb ((c =? 103) || (c =? 84) || (c =? 76) || (c =? 82) ||
        (c =? 45) || (c =? 41) || (c =? 93))%N.

(** A character that starts no arrow and closes no shape. *)
Definition calm (c : N) : bool :=
  negb ((c =? 45) || (c =? 41) || (c =? 93))%N.

(** The blocks that the node and arrow steps leave in one piece. *)
Definition firm (mode : PaletteMode) (b : list N) : Prop :=
  (exists b', b = 60%N :: b') /\
  Forall (fun c => calm c = true) b /\
  inert (node_rule mode) b.

(** The blocks that the keyword step leaves in one piece as well. *)
Definition solid (mode : PaletteMode) (b : list N) : Prop :=
  firm mode b /\ Forall (fun c => quiet c = true) b.

(** [Array.prototype.join] with the separator [newline]. *)
Definition join_lines (ls : list (list N)) : list N :=
  match ls with
  | [] => []
  | l :: rest => l ++ flat_map (cons newline) rest
  end.

(** The example document of the specification: [graph TD], a line break,
    [A-->B]. *)
Definition sample : list N := lit "graph TD" ++ newline :: lit "A-->B".

(** Two activations of the copy button, one second apart, and one more
    second. *)
Definition double_click : list Copy.Event :=
  [Copy.Activate Copy.Returns []; Copy.Wait 1000;
   Copy.Activate Copy.Returns []; Copy.Wait 1000].

(** ** Deleting the span tags

    The text before the colour in an opening tag. *)
Definition open_prefix : list N :=
  Eval cbv in lit "<span style=" ++ dquote :: lit "color: ".

(** The length of the text at the head of [s] that has the form of a
    wrapper, if there is one. *)
Definition wrapper_at (s : list N) : option nat :=
  if starts_with span_close s then Some 7
  else if starts_with open_prefix s then
    match hex_at (skipn 20 s) with
    | Some _ => if starts_with [dquote; 62%N] (skipn 27 s) then Some 29 else None
    | None => None
    end
  else None.

Definition strip_rule : rule :=
  fun _ s => option_map (fun n => ([], n)) (wrapper_at s).

(** One pass over a text that deletes every piece of the form of a
    wrapper. *)
Definition strip_spans : list N -> list N := replace_all strip_rule.


(** ** The tooltip of the copy button

    [title={copied ? "Copied!" : "Copy code"}] *)
Definition tooltipTitle (copied : bool) : list N :=
  if copied then lit "Copied!" else lit "Copy code".

(** What holds of the copy button after every sequence of activations and
    waits, [acc] being the time since the latest activation: every pending
    timer is due within the next 2000 ms, and while the flag is set the
    timer of the latest activation is still pending. *)
Definition copy_inv (s : Copy.State) (acc : option N) : Prop :=
  (forall due, In due (Copy.timers s) ->
     (Copy.now s < due <= Copy.now s + 2000)%N) /\
  (Copy.copied s = true ->
     exists a due, acc = Some a /\ In due (Copy.timers s) /\
                   (due + a = Copy.now s + 2000)%N).

(** No hex colour token begins anywhere in [s]. *)
Fixpoint hex_free (s : list N) : bool :=
  match hex_at s with
  | Some _ => false
  | None =>
      match s with
      | [] => true
      | _ :: s' => hex_free s'
      end
  end.

(** ** The markup of a coloured line

    The four sorts of token that the highlighter puts in a span: a hex
    colour, a keyword, the name of a node, the arrow. *)
Inductive token_kind : Type := TokHex | TokKeyword | TokNode | TokOperator.

Definition is_token (k : token_kind) (t : list N) : Prop :=
  match k with
  | TokHex => hex_token t
  | TokKeyword => In t keywords
  | TokNode =>
      exists c n, t = c :: n /\ is_letter c = true /\
                  Forall (fun d => is_alnum d = true) n
  | TokOperator => t = arrow
  end.

(** The colour of the span of a token. *)
Definition token_colour (mode : PaletteMode) (k : token_kind) (t : list N)
    : list N :=
  match k with
  | TokHex => hexColor (getColors mode) t
  | TokKeyword => keyword (getColors mode)
  | TokNode => node (getColors mode)
  | TokOperator => operator (getColors mode)
  end.

(** The blocks that the arrow step leaves in one piece. *)
Definition mild (b : list N) : Prop :=
  (exists b', b = 60%N :: b') /\ Forall (fun c => calm c = true) b.

(** A line as the highlighter sees it when it is done: characters of the
    text, and tokens that are put in a span. *)
Inductive piece : Type :=
| Plain (c : N)
| Token (k : token_kind) (t : list N).

(** The markup of a list of pieces under a palette. *)
Definition render (mode : PaletteMode) (ps : list piece) : list N :=
  flat_map (fun p => match p with
                     | Plain c => [c]
                     | Token k t => span (token_colour mode k t) t
                     end) ps.

(** The text of a list of pieces. *)
Definition text (ps : list piece) : list N :=
  flat_map (fun p => match p with Plain c => [c] | Token _ t => t end) ps.

(** Every token of [ps] is of a sort allowed by [P]. *)
Definition tokens_ok (P : token_kind -> Prop) (ps : list piece) : Prop :=
  Forall (fun p => match p with
                   | Plain _ => True
                   | Token k t => P k /\ is_token k t
                   end) ps.

(** The pieces as items: a token is one block. *)
Definition items_of (mode : PaletteMode) (ps : list piece) : list item :=
  map (fun p => match p with
                | Plain c => Ch c
                | Token k t => Blk (span (token_colour mode k t) t)
                end) ps.

(** The order in which the steps wrap the sorts of token. *)
Definition rank (k : token_kind) : nat :=
  match k with TokHex => 0 | TokKeyword => 1 | TokNode => 2 | TokOperator => 3 end.

(** ** The styles of the two layers and of the gutter

    A style object: its entries in the order of the source.  A value is a
    text, a number ([CssNumber n e] is n / 10^e) or the rules of a nested
    selector. *)
Inductive css_value : Type :=
| CssText (s : list N)
| CssNumber (n : N) (e : nat)
| CssRules (o : list (String.string * list N)).

Definition Style := list (String.string * css_value).

(** The value of a property of a style object. *)
Definition css_get (k : String.string) (o : Style) : option css_value :=
  option_map snd (find (fun kv => String.eqb k (fst kv)) o).
Arguments css_get k%_string o.

(** The parts of the theme that the component reads. *)
Record Theme : Type := MkTheme {
  palette_mode : PaletteMode;
  common_white : list N;
  common_black : list N;
  text_secondary : list N
}.

Definition editor_font : list N :=
  lit "Consolas, Monaco, " ++ dquote :: lit "Andale Mono" ++ dquote ::
  lit ", monospace".

(** [EditorTextarea] *)
Definition EditorTextarea (theme : Theme) : Style :=
  [ ("border", CssText (lit "1px solid transparent"));
    ("position", CssText (lit "absolute"));
    ("inset", CssNumber 0 0);
    ("width", CssText (lit "100%"));
    ("height", CssText (lit "100%"));
    ("paddingLeft", CssText (lit "3rem"));
    ("paddingRight", CssText (lit "1rem"));
    ("paddingTop", CssText (lit "1rem"));
    ("paddingBottom", CssText (lit "8rem"));
    ("fontFamily", CssText editor_font);
    ("fontSize", CssText (lit "0.875rem"));
    ("lineHeight", CssText (lit "1.5"));
    ("backgroundColor", CssText (lit "transparent"));
    ("resize", CssText (lit "none"));
    ("overflow", CssText (lit "auto"));
    ("whiteSpace", CssText (lit "pre"));
    ("zIndex", CssNumber 10 0);
    ("color", CssText (lit "transparent"));
    ("caretColor",
       CssText (match palette_mode theme with
                | dark => common_white theme
                | light => common_black theme
                end));
    ("&:focus", CssRules [("outline", lit "none")]);
    ("tabSize", CssNumber 4 0) ]%string.

(** [SyntaxHighlight] *)
Definition SyntaxHighlight (theme : Theme) : Style :=
  [ ("position", CssText (lit "absolute"));
    ("inset", CssNumber 0 0);
    ("width", CssText (lit "100%"));
    ("height", CssText (lit "100%"));
    ("paddingLeft", CssText (lit "3rem"));
    ("paddingRight", CssText (lit "1rem"));
    ("paddingTop", CssText (lit "1rem"));
    ("paddingBottom", CssText (lit "8rem"));
    ("fontFamily", CssText editor_font);
    ("fontSize", CssText (lit "0.875rem"));
    ("lineHeight", CssText (lit "1.5"));
    ("pointerEvents", CssText (lit "none"));
    ("overflow", CssText (lit "auto"));
    ("whiteSpace", CssText (lit "pre"));
    ("backgroundColor",
       CssText (match palette_mode theme with
                | light => lit "#ffffff"
                | dark => lit "#141414"
                end));
    ("color",
       CssText (match palette_mode theme with
                | dark => lit "#eda234"
                | light => lit "#FFA726"
                end)) ]%string.

(** [LineNumbers] *)
Definition LineNumbers (theme : Theme) : Style :=
  [ ("position", CssText (lit "absolute"));
    ("left", CssNumber 0 0);
    ("top", CssText (lit "1rem"));
    ("width", CssText (lit "3rem"));
    ("textAlign", CssText (lit "right"));
    ("paddingRight", CssText (lit "1rem"));
    ("fontSize", CssText (lit "0.875rem"));
    ("lineHeight", CssText (lit "1.5"));
    ("color", CssText (text_secondary theme));
    ("opacity", CssNumber 5 1);
    ("userSelect", CssText (lit "none"));
    ("pointerEvents", CssText (lit "none")) ]%string.

(** The properties that place and shape the text of a layer. *)
Definition text_layout : list String.string :=
  [ "position"; "inset"; "width"; "height";
    "paddingLeft"; "paddingRight"; "paddingTop"; "paddingBottom";
    "fontFamily"; "fontSize"; "lineHeight"; "overflow"; "whiteSpace" ]%string.

(** ** Reading the text back from the rendered rows

    Equality of two texts. *)
Definition str_eqb (a b : list N) : bool :=
  Nat.eqb (length a) (length b) && starts_with a b.

(** The text of a rendered row: nothing for the row that holds the
    placeholder [&nbsp;] of an empty line, the row without its span tags
    otherwise. *)
Definition plain_of_row (row : list N) : list N :=
  if str_eqb row (lit "&nbsp;") then [] else strip_spans row.

(** Strip every rendered row and join the rows again. *)
Definition unrender (rows : list (list N)) : list N :=
  join_lines (map plain_of_row rows).

(** The text [s] with every [<br/>] replaced by [&lt;br/&gt;], read from
    left to right: the exception that the content-preservation property
    allows, written out on its own. *)
Fixpoint br_escaped (s : list N) : list N :=
  match s with
  | [] => []
  | c :: s' =>
      if starts_with [60; 98; 114; 47; 62]%N s then
        match s' with
        | _ :: _ :: _ :: _ :: s'' =>
            [38; 108; 116; 59; 98; 114; 47; 38; 103; 116; 59]%N ++ br_escaped s''
        | _ => c :: br_escaped s'
        end
      else c :: br_escaped s'
  end.

(** No hex colour stands unwrapped: at no plain character of [ps] does a
    hex colour begin in the text. *)
Fixpoint hexless (ps : list piece) : Prop :=
  match ps with
  | [] => True
  | Plain c :: ps' => hex_at (c :: text ps') = None /\ hexless ps'
  | Token _ _ :: ps' => hexless ps'
  end.

(** [Refines ps ps']: [ps'] is [ps] with runs of plain characters made
    tokens. *)
Inductive Refines : list piece -> list piece -> Prop :=
| Refines_nil : Refines [] []
| Refines_keep p ps ps' : Refines ps ps' -> Refines (p :: ps) (p :: ps')
| Refines_token k t ps ps' :
    Refines ps ps' -> Refines (map Plain t ++ ps) (Token k t :: ps').

(** * Proofs *)

Lemma starts_with_app p s : starts_with p s = true -> s = p ++ skipn (length p) s.
Proof.
  revert s. induction p as [|a p IH]; intros [|b s]; simpl; try easy.
  intro H. apply andb_prop in H. destruct H as [H1 H2].
  apply N.eqb_eq in H1. subst. f_equal. auto.
Qed.

Lemma run_Lit p : forall st k,
  run (Lit p) st k =
  if starts_with p (rest st)
  then k (MState (last_of (before st) p) (rev p ++ taken st)
            (skipn (length p) (rest st)) (caps st))
  else None.
Proof.
  induction p as [|a p IH]; intros [b t s cs] k.
  - reflexivity.
  - cbn [Lit run Chr rest]. destruct s as [|c s]; [reflexivity|].
    cbn [starts_with]. destruct (a =? c)%N eqn:E; cbn [andb]; [|reflexivity].
    rewrite IH. cbn [rest before taken caps].
    apply N.eqb_eq in E. subst c.
    destruct (starts_with p s); [|reflexivity].
    cbn [last_of fold_left rev skipn length]. rewrite <- app_assoc. reflexivity.
Qed.

Lemma escape_rule_spec prev s : escape_rule prev s = escape_at s.
Proof.
  unfold escape_rule, regex_rule, exec, escape_at, re_br.
  rewrite run_Lit. cbn [rest].
  change (lit "<br/>") with br_tag.
  destruct (starts_with br_tag s); reflexivity.
Qed.

Lemma last_of_app prev a b : last_of prev (a ++ b) = last_of (last_of prev a) b.
Proof. unfold last_of. apply fold_left_app. Qed.

Lemma last_of_cons prev c m : last_of prev (c :: m) = last_of (Some c) m.
Proof. reflexivity. Qed.

Lemma replace_skip (f : rule) : forall s n prev,
  n <= length s ->
  replace_from f prev s n =
  replace_from f (last_of prev (firstn n s)) (skipn n s) 0.
Proof.
  induction s as [|c s IH]; intros n prev Hn.
  - simpl in Hn. assert (n = 0) by lia. subst. reflexivity.
  - destruct n as [|n]; [reflexivity|].
    simpl in Hn. cbn [replace_from firstn skipn]. rewrite last_of_cons.
    apply IH. lia.
Qed.

Lemma replace_nil (f : rule) prev : proper f -> replace_from f prev [] 0 = [].
Proof.
  intros Hf. cbn. destruct (f prev []) as [[rep n]|] eqn:E; [|reflexivity].
  apply Hf in E. simpl in E. lia.
Qed.

Lemma replace_hit (f : rule) prev s rep n :
  proper f -> f prev s = Some (rep, n) ->
  replace_from f prev s 0 =
  rep ++ replace_from f (last_of prev (firstn n s)) (skipn n s) 0.
Proof.
  intros Hf E. pose proof (Hf _ _ _ _ E) as Hn.
  destruct s as [|c s]; [simpl in Hn; lia|].
  cbn [replace_from]. rewrite E. destruct n as [|n]; [lia|].
  f_equal. simpl in Hn. rewrite replace_skip by lia. reflexivity.
Qed.

Lemma replace_miss (f : rule) prev c s :
  f prev (c :: s) = None ->
  replace_from f prev (c :: s) 0 = c :: replace_from f (Some c) s 0.
Proof. intro E. cbn [replace_from]. rewrite E. reflexivity. Qed.

(** Induction along the walk of a proper rule over its input. *)
Lemma replace_ind (f : rule) (P : option cu -> str -> str -> Prop) :
  proper f ->
  (forall prev, P prev [] []) ->
  (forall prev c s o,
      f prev (c :: s) = None -> P (Some c) s o -> P prev (c :: s) (c :: o)) ->
  (forall prev s rep n o,
      f prev s = Some (rep, n) ->
      P (last_of prev (firstn n s)) (skipn n s) o -> P prev s (rep ++ o)) ->
  forall prev s, P prev s (replace_from f prev s 0).
Proof.
  intros Hf Hnil Hmiss Hhit prev s.
  remember (length s) as k eqn:Hk.
  revert prev s Hk. induction k as [k IH] using lt_wf_ind. intros prev s Hk.
  destruct s as [|c s].
  - rewrite replace_nil by assumption. apply Hnil.
  - destruct (f prev (c :: s)) as [[rep n]|] eqn:E.
    + rewrite (@replace_hit _ _ _ _ _ Hf E). apply Hhit with (n := n); [assumption|].
      pose proof (Hf _ _ _ _ E) as Hn.
      eapply IH; [|reflexivity]. rewrite length_skipn. lia.
    + rewrite replace_miss by assumption. apply Hmiss; [assumption|].
      eapply IH; [|reflexivity]. subst k. simpl. lia.
Qed.

Lemma starts_with_refl p s : starts_with p (p ++ s) = true.
Proof. induction p; simpl; [reflexivity|]. rewrite N.eqb_refl. assumption. Qed.

Lemma hex_rule_spec mode prev s :
  hex_rule mode prev s = option_map (fun t => (span t t, 7)) (hex_at s).
Proof.
  unfold hex_rule, regex_rule, exec, hex_at, re_hex, Chr.
  destruct s as [|c0 [|h1 [|h2 [|h3 [|h4 [|h5 [|h6 s]]]]]]];
    cbn [run rest taken caps before forallb andb];
    try reflexivity;
    destruct (35 =? c0)%N; try reflexivity;
    destruct (is_hex h1); try reflexivity;
    destruct (is_hex h2); try reflexivity;
    destruct (is_hex h3); try reflexivity;
    destruct (is_hex h4); try reflexivity;
    destruct (is_hex h5); try reflexivity;
    destruct (is_hex h6); reflexivity.
Qed.

Lemma arrow_rule_spec mode prev s :
  arrow_rule mode prev s =
  if arrow_at s then Some (span (operator (getColors mode)) arrow, 3) else None.
Proof.
  unfold arrow_rule, regex_rule, exec, arrow_at, re_arrow.
  rewrite run_Lit. cbn [rest].
  change (lit "-->") with arrow.
  destruct (starts_with arrow s); reflexivity.
Qed.
Lemma keyword_rule_spec mode prev s :
  keyword_rule mode prev s =
  option_map (fun kw => (span (keyword (getColors mode)) kw, length kw))
    (keyword_at prev s).
Proof.
  unfold keyword_rule, regex_rule, exec, keyword_at, re_keyword, boundary.
  cbn [run rest taken caps before].
  destruct (xorb (is_word_opt prev) (is_word_opt (hd_error s))); [|reflexivity].
  rewrite !run_Lit. cbn [rest taken caps before run].
  unfold keywords. cbn [find].
  change (lit "graph") with [103; 114; 97; 112; 104]%N.
  change (lit "TD") with [84; 68]%N.
  change (lit "LR") with [76; 82]%N.
  change (lit "TB") with [84; 66]%N.
  change (lit "RL") with [82; 76]%N.
  repeat match goal with
         | |- context [starts_with ?p s] =>
             destruct (starts_with p s); cbn [andb]
         end;
  repeat match goal with
         | |- context [xorb ?a ?b] => destruct (xorb a b)
         end;
  reflexivity.
Qed.
Lemma dot_loop (close : cu) (k : cont) (H : mstate -> mstate) :
  (forall b t cs, k (MState b t [] cs) = None) ->
  (forall b t cs c s',
      k (MState b t (c :: s') cs) =
      if (close =? c)%N then Some (H (MState (Some c) (c :: t) s' cs))
      else None) ->
  forall s b t cs,
    lazy_loop is_dot k b t cs s =
    match shape_body close s with
    | Some body =>
        Some (H (MState (last_of b body) (rev body ++ t)
                   (skipn (length body) s) cs))
    | None => None
    end.
Proof.
  intros Hnil Hcons. induction s as [|c s IH]; intros b t cs.
  - cbn [lazy_loop shape_body]. rewrite Hnil. reflexivity.
  - cbn [lazy_loop shape_body]. rewrite Hcons.
    destruct (close =? c)%N; [reflexivity|].
    destruct (is_dot c); [|reflexivity].
    rewrite IH. destruct (shape_body close s) as [body|]; [|reflexivity].
    cbn [option_map rev length skipn]. rewrite last_of_cons, <- app_assoc.
    reflexivity.
Qed.

Lemma name_loop (k : cont) (F : mstate -> str -> mstate) :
  (forall b t cs s,
      k (MState b t s cs) =
      match shape_at s with
      | Some sh => Some (F (MState b t s cs) sh)
      | None => None
      end) ->
  forall s b t cs,
    lazy_loop is_alnum k b t cs s =
    match name_shape s with
    | Some (n, sh) =>
        Some (F (MState (last_of b n) (rev n ++ t) (skipn (length n) s) cs) sh)
    | None => None
    end.
Proof.
  intros Hk. induction s as [|c s IH]; intros b t cs.
  - cbn [lazy_loop name_shape]. rewrite Hk.
    destruct (shape_at []); reflexivity.
  - cbn [lazy_loop name_shape]. rewrite Hk.
    destruct (shape_at (c :: s)); [reflexivity|].
    destruct (is_alnum c); [|reflexivity].
    rewrite IH. destruct (name_shape s) as [[n sh]|]; [|reflexivity].
    cbn [option_map fst snd rev length skipn]. rewrite last_of_cons, <- app_assoc.
    reflexivity.
Qed.

Lemma node_exec prev s :
  exec re_node prev s =
  match node_at prev s with
  | Some (Single c) => Some (Hit [c] [(1, [c])] (skipn 1 s))
  | Some (Shaped n sh) =>
      Some (Hit (n ++ sh) [(3, sh); (2, n)] (skipn (length (n ++ sh)) s))
  | None => None
  end.
Proof.
  unfold exec, re_node, Chr, node_at, boundary.
  cbn [run rest taken caps before].
  destruct s as [|c s]; [destruct (xorb _ _); reflexivity|].
  cbn [hd_error].
  destruct (is_letter c) eqn:Ec;
    [|destruct (xorb (is_word_opt prev) _); reflexivity].
  rewrite (@name_loop _
    (fun st sh => MState (last_of (before st) sh) (rev sh ++ taken st ++ [])
                    (skipn (length sh) (rest st))
                    ((3, sh) :: (2, rev (taken st)) :: caps st))).
  - destruct (xorb (is_word_opt prev) (is_word_opt (Some c)));
      cbn [andb];
      [destruct (xorb (is_word_opt (Some c)) (is_word_opt (hd_error s)));
       [reflexivity|]|];
      (destruct (name_shape s) as [[n sh]|]; [|reflexivity];
       cbn [taken rest caps before]; f_equal; f_equal;
       [ rewrite !app_nil_r, rev_app_distr, rev_app_distr, !rev_involutive;
         reflexivity
       | rewrite rev_app_distr, rev_involutive; reflexivity
       | cbn [app length skipn]; rewrite length_app, skipn_skipn; f_equal; lia ]).
  - intros b t cs s0. cbn [rest taken caps before]. unfold shape_at.
    destruct s0 as [|c0 s0]; [reflexivity|].
    destruct (40 =? c0)%N eqn:E40.
    + assert (E91 : (91 =? c0)%N = false)
        by (apply N.eqb_eq in E40; subst; reflexivity).
      rewrite E91.
      rewrite (@dot_loop 41%N _
        (fun st => MState (before st) (taken st ++ t ++ []) (rest st)
                     ((3, rev (taken st)) :: caps st))).
      * destruct (shape_body 41%N s0) as [body|]; [|reflexivity].
        cbn [option_map taken rest caps before rev length skipn last_of fold_left].
        rewrite rev_app_distr, rev_involutive. reflexivity.
      * reflexivity.
      * intros. cbn [rest taken caps before]. reflexivity.
    + destruct (91 =? c0)%N eqn:E91; [|reflexivity].
      rewrite (@dot_loop 93%N _
        (fun st => MState (before st) (taken st ++ t ++ []) (rest st)
                     ((3, rev (taken st)) :: caps st))).
      * destruct (shape_body 93%N s0) as [body|]; [|reflexivity].
        cbn [option_map taken rest caps before rev length skipn last_of fold_left].
        rewrite rev_app_distr, rev_involutive. reflexivity.
      * reflexivity.
      * intros. cbn [rest taken caps before]. reflexivity.
Qed.
Lemma node_rule_spec mode prev s :
  node_rule mode prev s = option_map (node_replacement mode) (node_at prev s).
Proof.
  unfold node_rule, regex_rule. rewrite node_exec.
  destruct (node_at prev s) as [[c|n sh]|]; reflexivity.
Qed.

(** *** What a match of each rule looks like *)

Lemma escape_hit prev s rep n :
  escape_rule prev s = Some (rep, n) ->
  exists r, s = br_tag ++ r /\ rep = escaped_br /\ n = 5.
Proof.
  rewrite escape_rule_spec. unfold escape_at.
  destruct (starts_with br_tag s) eqn:E; [|discriminate].
  intro H. injection H as <- <-. apply starts_with_app in E.
  exists (skipn (length br_tag) s). auto.
Qed.

Lemma hex_at_some s t :
  hex_at s = Some t -> hex_token t /\ exists r, s = t ++ r.
Proof.
  unfold hex_at.
  destruct s as [|c0 [|h1 [|h2 [|h3 [|h4 [|h5 [|h6 s]]]]]]]; try discriminate.
  destruct (35 =? c0)%N eqn:E0; [|discriminate].
  destruct (forallb is_hex [h1; h2; h3; h4; h5; h6]) eqn:E; [|discriminate].
  cbn [andb]. intro H. injection H as <-.
  apply N.eqb_eq in E0. subst c0. split.
  - exists [h1; h2; h3; h4; h5; h6]. repeat split.
    apply Forall_forall. apply forallb_forall. exact E.
  - exists s. reflexivity.
Qed.

Lemma hex_at_token t r : hex_token t -> hex_at (t ++ r) = Some t.
Proof.
  intros (h & -> & Hl & Hh).
  destruct h as [|h1 [|h2 [|h3 [|h4 [|h5 [|h6 [|? ?]]]]]]]; try discriminate.
  cbn [app hex_at]. rewrite N.eqb_refl.
  assert (E : forallb is_hex [h1; h2; h3; h4; h5; h6] = true)
    by (apply forallb_forall; apply Forall_forall; exact Hh).
  cbn [forallb] in E |- *. rewrite E. reflexivity.
Qed.

Lemma hex_token_length t : hex_token t -> length t = 7.
Proof. intros (h & -> & Hl & _). simpl. lia. Qed.

Lemma hex_hit mode prev s rep n :
  hex_rule mode prev s = Some (rep, n) ->
  exists t r, s = t ++ r /\ hex_token t /\ rep = span t t /\ n = 7.
Proof.
  rewrite hex_rule_spec. destruct (hex_at s) as [t|] eqn:E; [|discriminate].
  cbn [option_map]. intro H. injection H as <- <-.
  apply hex_at_some in E. destruct E as [Ht [r ->]].
  exists t, r. auto.
Qed.

Lemma arrow_hit mode prev s rep n :
  arrow_rule mode prev s = Some (rep, n) ->
  exists r, s = arrow ++ r /\ rep = span (operator (getColors mode)) arrow /\ n = 3.
Proof.
  rewrite arrow_rule_spec. unfold arrow_at.
  destruct (starts_with arrow s) eqn:E; [|discriminate].
  intro H. injection H as <- <-. apply starts_with_app in E.
  exists (skipn (length arrow) s). auto.
Qed.

Lemma keyword_hit mode prev s rep n :
  keyword_rule mode prev s = Some (rep, n) ->
  exists kw r, s = kw ++ r /\ In kw keywords /\
    rep = span (keyword (getColors mode)) kw /\ n = length kw /\
    is_word_opt prev = false /\ is_word_opt (hd_error r) = false.
Proof.
  rewrite keyword_rule_spec. unfold keyword_at.
  destruct (boundary prev (hd_error s)) eqn:Eb; [|discriminate].
  match goal with |- context [find ?p keywords] =>
    destruct (find p keywords) as [kw|] eqn:E end; [|discriminate].
  cbn [option_map]. intro H. injection H as <- <-.
  apply find_some in E. destruct E as [Hin E].
  apply andb_prop in E. destruct E as [E1 E2].
  pose proof (starts_with_app _ _ E1) as Hs.
  exists kw, (skipn (length kw) s). repeat split; auto.
  - (* the first character of a keyword is a word character *)
    assert (Hw : is_word_opt (hd_error s) = true).
    { rewrite Hs. unfold keywords in Hin. simpl in Hin.
      destruct Hin as [<-|[<-|[<-|[<-|[<-|[]]]]]]; reflexivity. }
    unfold boundary in Eb. rewrite Hw in Eb.
    destruct (is_word_opt prev); [discriminate|reflexivity].
  - assert (Hw : is_word_opt (last_of prev kw) = true).
    { unfold keywords in Hin. simpl in Hin.
      destruct Hin as [<-|[<-|[<-|[<-|[<-|[]]]]]]; reflexivity. }
    unfold boundary in E2. rewrite Hw in E2.
    destruct (is_word_opt (hd_error (skipn (length kw) s)));
      [discriminate|reflexivity].
Qed.
Lemma shape_body_some close : forall s sh,
  shape_body close s = Some sh ->
  exists body r, sh = body ++ [close] /\ s = sh ++ r /\
    ~ In close body /\ Forall (fun c => is_dot c = true) body.
Proof.
  induction s as [|c s IH]; intros sh; cbn [shape_body]; [discriminate|].
  destruct (close =? c)%N eqn:E.
  - intro H. injection H as <-. apply N.eqb_eq in E. subst c.
    exists [], s. repeat split; auto.
  - destruct (is_dot c) eqn:Ed; [|discriminate].
    destruct (shape_body close s) as [sh'|]; [|discriminate].
    cbn [option_map]. intro H. injection H as <-.
    destruct (IH sh' eq_refl) as (body & r & -> & Hs & Hn & Hd).
    exists (c :: body), r. repeat split.
    + rewrite Hs at 1. reflexivity.
    + intros [->|Hin]; [rewrite N.eqb_refl in E; discriminate|auto].
    + constructor; assumption.
Qed.

Lemma shape_at_some s sh :
  shape_at s = Some sh -> shape sh /\ exists r, s = sh ++ r.
Proof.
  unfold shape_at. destruct s as [|c s]; [discriminate|].
  destruct (40 =? c)%N eqn:E40; [|destruct (91 =? c)%N eqn:E91; [|discriminate]].
  - destruct (shape_body 41%N s) as [sh'|] eqn:E; [|discriminate].
    cbn [option_map]. intro H. injection H as <-.
    apply N.eqb_eq in E40. subst c.
    destruct (shape_body_some _ _ E) as (body & r & -> & Hs & Hn & Hd).
    split; [exists body; auto|]. exists r. rewrite Hs at 1. reflexivity.
  - destruct (shape_body 93%N s) as [sh'|] eqn:E; [|discriminate].
    cbn [option_map]. intro H. injection H as <-.
    apply N.eqb_eq in E91. subst c.
    destruct (shape_body_some _ _ E) as (body & r & -> & Hs & Hn & Hd).
    split; [exists body; auto|]. exists r. rewrite Hs at 1. reflexivity.
Qed.

Lemma name_shape_some : forall s n sh,
  name_shape s = Some (n, sh) ->
  Forall (fun c => is_alnum c = true) n /\ shape sh /\
  exists r, s = n ++ sh ++ r.
Proof.
  induction s as [|c s IH]; intros n sh; cbn [name_shape].
  - destruct (shape_at []) eqn:E; [|discriminate].
    intro H. injection H as <- <-. apply shape_at_some in E.
    destruct E as [Hsh [r Hr]]. split; [constructor|]. split; [assumption|].
    exists r. exact Hr.
  - destruct (shape_at (c :: s)) as [sh0|] eqn:E.
    + intro H. injection H as <- <-. apply shape_at_some in E.
      destruct E as [Hsh [r Hr]]. split; [constructor|]. split; [assumption|].
      exists r. exact Hr.
    + destruct (is_alnum c) eqn:Ec; [|discriminate].
      destruct (name_shape s) as [[n' sh']|]; [|discriminate].
      cbn [option_map fst snd]. intro H. injection H as <- <-.
      destruct (IH n' sh' eq_refl) as (Hn & Hsh & r & Hr).
      split; [constructor; assumption|]. split; [assumption|].
      exists r. rewrite Hr at 1. reflexivity.
Qed.

Lemma is_letter_word c : is_letter c = true -> is_word c = true.
Proof. unfold is_word, is_alnum. intros ->. reflexivity. Qed.

Lemma is_alnum_word c : is_alnum c = true -> is_word c = true.
Proof. unfold is_word. intros ->. reflexivity. Qed.

Lemma node_at_single prev s c :
  node_at prev s = Some (Single c) ->
  exists r, s = c :: r /\ is_letter c = true /\
    is_word_opt prev = false /\ is_word_opt (hd_error r) = false.
Proof.
  unfold node_at. destruct s as [|c0 s]; [discriminate|].
  destruct (is_letter c0) eqn:El; [|discriminate].
  unfold boundary. cbn [is_word_opt]. rewrite (is_letter_word _ El).
  destruct (is_word_opt prev); cbn [xorb andb].
  - destruct (name_shape s) as [[? ?]|]; discriminate.
  - destruct (is_word_opt (hd_error s)) eqn:Ew; cbn [negb xorb].
    + destruct (name_shape s) as [[? ?]|]; discriminate.
    + intro H. injection H as <-. exists s. auto.
Qed.

Lemma node_at_shaped prev s name sh :
  node_at prev s = Some (Shaped name sh) ->
  exists c n r, name = c :: n /\ s = name ++ sh ++ r /\
    is_letter c = true /\ Forall (fun c => is_alnum c = true) n /\ shape sh.
Proof.
  unfold node_at. destruct s as [|c0 s]; [discriminate|].
  destruct (is_letter c0) eqn:El; [|discriminate].
  destruct (boundary prev (Some c0) && boundary (Some c0) (hd_error s));
    [discriminate|].
  destruct (name_shape s) as [[n sh']|] eqn:E; [|discriminate].
  intro H. injection H as <- <-.
  apply name_shape_some in E. destruct E as (Hn & Hsh & r & Hr).
  exists c0, n, r. repeat split; auto. rewrite Hr at 1. reflexivity.
Qed.

Lemma shape_length sh : shape sh -> 2 <= length sh.
Proof.
  intros (body & [[-> _]|[-> _]] & _); cbn [length]; rewrite length_app;
    simpl; lia.
Qed.

(** *** Every rule is proper *)

Lemma escape_proper : proper escape_rule.
Proof.
  intros prev s rep n H. apply escape_hit in H.
  destruct H as (r & -> & _ & ->). rewrite length_app. simpl. lia.
Qed.

Lemma hex_proper mode : proper (hex_rule mode).
Proof.
  intros prev s rep n H. apply hex_hit in H.
  destruct H as (t & r & -> & Ht & _ & ->).
  rewrite length_app, (hex_token_length Ht). lia.
Qed.

Lemma keyword_length kw : In kw keywords -> 2 <= length kw <= 5.
Proof.
  unfold keywords. simpl.
  intros [<-|[<-|[<-|[<-|[<-|[]]]]]]; simpl; lia.
Qed.

Lemma keyword_proper mode : proper (keyword_rule mode).
Proof.
  intros prev s rep n H. apply keyword_hit in H.
  destruct H as (kw & r & -> & Hin & _ & -> & _).
  apply keyword_length in Hin. rewrite length_app. lia.
Qed.

Lemma node_proper mode : proper (node_rule mode).
Proof.
  intros prev s rep n. rewrite node_rule_spec.
  destruct (node_at prev s) as [[c|name sh]|] eqn:E; [| |discriminate];
    cbn [option_map node_replacement]; intro H; injection H as <- <-.
  - apply node_at_single in E. destruct E as (r & -> & _). simpl. lia.
  - apply node_at_shaped in E.
    destruct E as (c & n & r & -> & -> & _ & _ & Hsh).
    rewrite !length_app. simpl. lia.
Qed.

Lemma arrow_proper mode : proper (arrow_rule mode).
Proof.
  intros prev s rep n H. apply arrow_hit in H.
  destruct H as (r & -> & _ & ->). rewrite length_app. simpl. lia.
Qed.
(** *** Lines and line numbers *)

Lemma split_lines_length s :
  length (split_lines s) = 1 + count_occ N.eq_dec s newline.
Proof.
  induction s as [|c s IH]; [reflexivity|].
  cbn [split_lines count_occ].
  destruct (N.eqb_spec c newline) as [->|Hc].
  - destruct (N.eq_dec newline newline) as [_|]; [|congruence].
    cbn [length]. rewrite IH. reflexivity.
  - destruct (N.eq_dec c newline) as [|_]; [congruence|].
    destruct (split_lines s) as [|l ls]; [discriminate IH|].
    exact IH.
Qed.

Lemma map_indexed_length {A B} (f : A -> nat -> B) l : forall i,
  length (map_indexed f i l) = length l.
Proof. induction l as [|a l IH]; intros i; simpl; [|rewrite IH]; reflexivity. Qed.

Lemma map_indexed_nth {A B} (f : A -> nat -> B) l : forall k i,
  nth_error (map_indexed f k l) i =
  option_map (fun a => f a (k + i)) (nth_error l i).
Proof.
  induction l as [|a l IH]; intros k [|i]; simpl; try reflexivity.
  - rewrite Nat.add_0_r. reflexivity.
  - rewrite IH. rewrite Nat.add_succ_r. reflexivity.
Qed.

Lemma map_indexed_keys (g : str -> str) l : forall k,
  map key (map_indexed (fun line i => MkLine i (g line)) k l) =
  seq k (length l).
Proof.
  induction l as [|a l IH]; intros k; simpl; [reflexivity|].
  rewrite IH. reflexivity.
Qed.

Lemma lineNumbers_seq value :
  lineNumbers value = seq 1 (length (split_lines value)).
Proof.
  unfold lineNumbers. rewrite <- seq_shift. apply map_ext.
  intro i. apply Nat.add_1_r.
Qed.

(** C10. The highlighter renders as many line elements as the gutter has
    line numbers: one more than the number of newline characters of the
    document; the gutter numbers are 1..n in order (and the elements are
    keyed 0..n-1); the empty document renders one (empty) line, numbered
    1. *)
Theorem C10_lines_match_line_numbers (mode : PaletteMode) (value : str) :
  let n := 1 + count_occ N.eq_dec value newline in
  length (highlightSyntax mode value) = n /\
  length (lineNumbers value) = n /\
  lineNumbers value = seq 1 n /\
  map key (highlightSyntax mode value) = seq 0 n /\
  highlightSyntax mode [] = [MkLine 0 nbsp] /\
  lineNumbers [] = [1].
Proof.
  cbv zeta. rewrite <- split_lines_length. repeat split.
  - unfold highlightSyntax. apply map_indexed_length.
  - rewrite lineNumbers_seq. apply length_seq.
  - apply lineNumbers_seq.
  - unfold highlightSyntax. apply map_indexed_keys.
Qed.

(** *** No step shortens a line *)

Lemma replace_length (f : rule) :
  proper f ->
  (forall prev s rep n, f prev s = Some (rep, n) -> n <= length rep) ->
  forall prev s, length s <= length (replace_from f prev s 0).
Proof.
  intros Hf Hrep. apply (replace_ind (fun _ s o => length s <= length o) Hf).
  - intros; simpl; lia.
  - intros; simpl; lia.
  - intros prev s rep n o E IHs. pose proof (Hf _ _ _ _ E). apply Hrep in E.
    rewrite length_skipn in IHs. rewrite length_app. lia.
Qed.

Lemma span_length c x : length (span c x) = 29 + length c + length x.
Proof.
  unfold span, span_open, span_close.
  repeat (rewrite length_app || cbn [length]). simpl. lia.
Qed.

(** The span template, character by character. *)
Lemma span_text c x :
  span c x =
  lit "<span style=" ++ dquote :: lit "color: " ++ c ++ dquote :: lit ">" ++
  x ++ lit "</span>".
Proof.
  unfold span, span_open, span_close.
  repeat (rewrite <- ?app_assoc; rewrite <- ?app_comm_cons).
  reflexivity.
Qed.

Lemma escape_length prev s : length s <= length (replace_from escape_rule prev s 0).
Proof.
  apply replace_length; [apply escape_proper|].
  intros ? ? ? ? H. apply escape_hit in H. destruct H as (r & _ & -> & ->).
  simpl. lia.
Qed.

Lemma hex_length mode prev s :
  length s <= length (replace_from (hex_rule mode) prev s 0).
Proof.
  apply replace_length; [apply hex_proper|].
  intros ? ? ? ? H. apply hex_hit in H. destruct H as (t & r & _ & Ht & -> & ->).
  rewrite span_length, (hex_token_length Ht). lia.
Qed.

Lemma keyword_step_length mode prev s :
  length s <= length (replace_from (keyword_rule mode) prev s 0).
Proof.
  apply replace_length; [apply keyword_proper|].
  intros ? ? ? ? H. apply keyword_hit in H.
  destruct H as (kw & r & _ & _ & -> & -> & _). rewrite span_length. lia.
Qed.

Lemma node_hit_inv mode prev s rep n :
  node_rule mode prev s = Some (rep, n) ->
  (exists c r, s = c :: r /\ is_letter c = true /\
     is_word_opt prev = false /\ is_word_opt (hd_error r) = false /\
     rep = span (node (getColors mode)) [c] /\ n = 1) \/
  (exists c name sh r, s = (c :: name) ++ sh ++ r /\
     is_letter c = true /\ Forall (fun c => is_alnum c = true) name /\
     shape sh /\
     rep = span (node (getColors mode)) (c :: name) ++ sh /\
     n = length ((c :: name) ++ sh)).
Proof.
  rewrite node_rule_spec.
  destruct (node_at prev s) as [[c|name sh]|] eqn:E; [| |discriminate];
    cbn [option_map node_replacement]; intro H.
  - left. apply node_at_single in E. destruct E as (r & -> & Hl & Hp & Hn).
    exists c, r. repeat split; auto; congruence.
  - right. apply node_at_shaped in E.
    destruct E as (c & n' & r & -> & -> & Hl & Hn & Hsh).
    exists c, n', sh, r. repeat split; auto; congruence.
Qed.

Lemma node_length mode prev s :
  length s <= length (replace_from (node_rule mode) prev s 0).
Proof.
  apply replace_length; [apply node_proper|].
  intros prev0 s0 rep n H. apply node_hit_inv in H.
  destruct H as [(c & r & _ & _ & _ & _ & -> & ->)
                |(c & name & sh & r & _ & _ & _ & _ & -> & ->)].
  - rewrite span_length. lia.
  - rewrite (length_app (c :: name) sh), (length_app (span _ (c :: name)) sh),
      span_length. lia.
Qed.

Lemma arrow_length mode prev s :
  length s <= length (replace_from (arrow_rule mode) prev s 0).
Proof.
  apply replace_length; [apply arrow_proper|].
  intros ? ? ? ? H. apply arrow_hit in H. destruct H as (r & _ & -> & ->).
  rewrite span_length. lia.
Qed.

Lemma coloredLine_length mode line : length line <= length (coloredLine mode line).
Proof.
  unfold coloredLine, arrow_step, node_step, keyword_step, hex_step,
    escape_step, replace_all.
  eapply Nat.le_trans; [apply escape_length|].
  eapply Nat.le_trans; [apply hex_length|].
  eapply Nat.le_trans; [apply keyword_step_length|].
  eapply Nat.le_trans; [apply node_length|].
  apply arrow_length.
Qed.

(** C9. An empty line is rendered as the six characters [&nbsp;], the
    entity of one non-breaking space; a line with at least one character
    is rendered as its coloured text, which is never empty, so the
    fallback is not taken for it; and this is what [highlightSyntax] puts
    at the place of every line of the document. *)
Theorem C9_empty_line_is_nbsp (mode : PaletteMode) :
  or_nbsp (coloredLine mode []) = lit "&nbsp;" /\
  lit "&nbsp;" = [38; 110; 98; 115; 112; 59]%N /\
  (forall c line,
      or_nbsp (coloredLine mode (c :: line)) = coloredLine mode (c :: line) /\
      1 <= length (coloredLine mode (c :: line))) /\
  (forall code i,
      nth_error (highlightSyntax mode code) i =
      option_map
        (fun line =>
           MkLine i match line with
                    | [] => lit "&nbsp;"
                    | _ :: _ => coloredLine mode line
                    end)
        (nth_error (split_lines code) i)).
Proof.
  assert (Hne : forall c line,
             or_nbsp (coloredLine mode (c :: line)) = coloredLine mode (c :: line) /\
             1 <= length (coloredLine mode (c :: line))).
  { intros c line. pose proof (coloredLine_length mode (c :: line)) as H.
    cbn [length] in H. split; [|lia].
    destruct (coloredLine mode (c :: line)); [simpl in H; lia|reflexivity]. }
  split; [reflexivity|]. split; [reflexivity|]. split; [exact Hne|].
  intros code i. unfold highlightSyntax. rewrite map_indexed_nth.
  destruct (nth_error (split_lines code) i) as [[|c line]|]; cbn [option_map];
    try reflexivity.
  rewrite (proj1 (Hne c line)). reflexivity.
Qed.

(** *** The copy button *)

(** C1, as stated, fails: one second after the second of two activations
    that are one second apart, the flag is already false; and an
    activation on a page where the clipboard call throws does not set the
    flag at all. *)
Lemma C1_no_restart :
  Copy.since_last double_click None = Some 1000%N /\
  Copy.copied (Copy.run double_click) = false /\
  Copy.copied (Copy.run [Copy.Activate Copy.Throws []]) = false.
Proof. repeat split; reflexivity. Qed.

Lemma existsb_app_true {A} (p : A -> bool) l x :
  p x = true -> existsb p (l ++ [x]) = true.
Proof.
  intro H. rewrite existsb_app. simpl. rewrite H.
  destruct (existsb p l); reflexivity.
Qed.

(** The clock never goes back. *)
Lemma now_step s e : (Copy.now s <= Copy.now (Copy.step s e))%N.
Proof.
  destruct e as [[|] value|d]; cbn [Copy.step Copy.handleCopy Copy.advance Copy.now];
    lia.
Qed.

Lemma now_mono tr : forall s, (Copy.now s <= Copy.now (fold_left Copy.step tr s))%N.
Proof.
  induction tr as [|e tr IH]; intro s; cbn [fold_left]; [lia|].
  pose proof (now_step s e). pose proof (IH (Copy.step s e)). lia.
Qed.

(** A timer that is due fires: it sets the flag to false, whichever
    activation set it. *)
Lemma due_timer_resets s d due :
  In due (Copy.timers s) -> (due <= Copy.now s + d)%N ->
  Copy.copied (Copy.advance d s) = false.
Proof.
  intros Hin Hle. cbn [Copy.advance Copy.copied].
  assert (E : existsb (fun t => (t <=? Copy.now s + d)%N) (Copy.timers s) = true).
  { apply existsb_exists. exists due. split; [exact Hin|].
    apply N.leb_le. exact Hle. }
  rewrite E. reflexivity.
Qed.

(** No event removes a timer before it is due. *)
Lemma timer_survives tr : forall s due,
  In due (Copy.timers s) ->
  (Copy.now (fold_left Copy.step tr s) < due)%N ->
  In due (Copy.timers (fold_left Copy.step tr s)).
Proof.
  induction tr as [|e tr IH]; intros s due Hin Hlt; cbn [fold_left] in *;
    [exact Hin|].
  apply IH; [|exact Hlt].
  pose proof (now_mono tr (Copy.step s e)) as Hm.
  destruct e as [[|] value|d]; cbn [Copy.step Copy.handleCopy Copy.advance
                                     Copy.timers Copy.now] in *.
  - exact Hin.
  - apply in_or_app. left. exact Hin.
  - apply filter_In. split; [exact Hin|].
    apply negb_true_iff, N.leb_gt. lia.
Qed.

(** C1, amended.  An activation whose clipboard call returns sets the flag
    at once, hands the text to the clipboard and adds a timer of its own,
    due 2000 ms later, without cancelling the pending ones (an activation
    whose clipboard call throws changes nothing).  During the 2000 ms that
    follow, the flag is still set after [d] ms exactly when no timer of an
    earlier activation is due by then.  Whatever happens next, further
    activations included, the timer of this activation stays pending until
    it is due, and the wait that reaches its due time leaves the flag
    false: the flag is reset 2000 ms after each activation. *)
Theorem C1_each_activation_has_its_timer (value : list N) (s : Copy.State) :
  let s1 := Copy.handleCopy Copy.Returns value s in
  let due := (Copy.now s + 2000)%N in
  Copy.copied s1 = true /\
  Copy.writes s1 = Copy.writes s ++ [value] /\
  Copy.timers s1 = Copy.timers s ++ [due] /\
  Copy.handleCopy Copy.Throws value s = s /\
  (forall d, (d < 2000)%N ->
     (Copy.copied (Copy.advance d s1) = true <->
      forall t, In t (Copy.timers s) -> (Copy.now s + d < t)%N)) /\
  (forall tr,
     let s2 := fold_left Copy.step tr s1 in
     ((Copy.now s2 < due)%N -> In due (Copy.timers s2)) /\
     (forall d, (Copy.now s2 < due <= Copy.now s2 + d)%N ->
        Copy.copied (Copy.advance d s2) = false)).
Proof.
  cbv zeta.
  assert (Hown : In (Copy.now s + 2000)%N
                   (Copy.timers (Copy.handleCopy Copy.Returns value s))).
  { cbn [Copy.handleCopy Copy.timers]. apply in_or_app. right. left.
    reflexivity. }
  split; [reflexivity|]. split; [reflexivity|]. split; [reflexivity|].
  split; [reflexivity|]. split.
  - intros d Hd. split.
    + intros Hc t Hin.
      destruct (N.le_gt_cases t (Copy.now s + d)) as [Hle|Hgt]; [|exact Hgt].
      rewrite (@due_timer_resets (Copy.handleCopy Copy.Returns value s) d t)
        in Hc; [discriminate Hc| |exact Hle].
      cbn [Copy.handleCopy Copy.timers]. apply in_or_app. left. exact Hin.
    + intros Hlate. unfold Copy.advance, Copy.handleCopy.
      cbn [Copy.now Copy.copied Copy.timers].
      match goal with |- (if ?b then _ else _) = _ => destruct b eqn:E end;
        [|reflexivity].
      apply existsb_exists in E. destruct E as (t & Hin & Hle).
      apply N.leb_le in Hle. apply in_app_or in Hin.
      destruct Hin as [Hin|[<-|[]]].
      * apply Hlate in Hin. lia.
      * lia.
  - intro tr.
    assert (Hkeep : (Copy.now (fold_left Copy.step tr
                       (Copy.handleCopy Copy.Returns value s)) <
                     Copy.now s + 2000)%N ->
                    In (Copy.now s + 2000)%N
                      (Copy.timers (fold_left Copy.step tr
                         (Copy.handleCopy Copy.Returns value s)))).
    { intro Hlt. apply timer_survives; assumption. }
    split; [exact Hkeep|].
    intros d [Hlt Hle].
    apply (@due_timer_resets _ d (Copy.now s + 2000)%N); [|exact Hle].
    apply Hkeep. exact Hlt.
Qed.

Lemma C1_witness :
  Copy.copied (Copy.advance 1999 (Copy.handleCopy Copy.Returns [] Copy.initial)) =
    true /\
  Copy.copied
    (Copy.advance 1000
       (fold_left Copy.step [Copy.Wait 1000; Copy.Activate Copy.Returns []]
          (Copy.handleCopy Copy.Returns [] Copy.initial))) = false.
Proof.
  pose proof (@C1_each_activation_has_its_timer [] Copy.initial) as H.
  cbv zeta in H. destruct H as (_ & _ & _ & _ & Hstay & Hreset).
  split.
  - apply (proj2 (Hstay 1999%N eq_refl)). intros t [].
  - apply (proj2 (Hreset [Copy.Wait 1000; Copy.Activate Copy.Returns []])
             1000%N).
    vm_compute. split; [reflexivity|discriminate].
Defined.

(** *** Scroll synchronisation *)

Lemma update_same {Offset} (st : Scroll.Store Offset) r e :
  Scroll.update st r e r = e.
Proof. unfold Scroll.update. rewrite Nat.eqb_refl. reflexivity. Qed.

Lemma update_other {Offset} (st : Scroll.Store Offset) r e r' :
  r' <> r -> Scroll.update st r e r' = st r'.
Proof.
  intro H. unfold Scroll.update.
  destruct (Nat.eqb_spec r' r); [contradiction|reflexivity].
Qed.

Lemma sync_writes {Offset} (st : Scroll.Store Offset) src dst :
  src <> dst ->
  let st1 := Scroll.set_scrollTop dst (Scroll.scrollTop (st src)) st in
  let st2 := Scroll.set_scrollLeft dst (Scroll.scrollLeft (st1 src)) st1 in
  st2 dst = Scroll.MkElement (Scroll.scrollTop (st src)) (Scroll.scrollLeft (st src)) /\
  forall r, r <> dst -> st2 r = st r.
Proof.
  intros Hne. cbv zeta. unfold Scroll.set_scrollLeft, Scroll.set_scrollTop.
  split.
  - rewrite !update_same. rewrite (update_other _ _ Hne). reflexivity.
  - intros r Hr. rewrite !update_other by assumption. reflexivity.
Qed.

(** C7. After a scroll event on the textarea or on the highlight overlay,
    the other surface (chosen by comparing the event's target with the
    textarea) has the offsets of the event's source; the handler writes the
    receiving surface only; and handling the scroll event of the receiving
    surface in turn changes nothing, so that no propagation goes back and
    forth. *)
Theorem C7_scroll_sync (Offset : Type) (refs : Scroll.Refs)
    (textarea highlight target : Scroll.Ref) (st : Scroll.Store Offset) :
  Scroll.textareaRef refs = Some textarea ->
  Scroll.highlightRef refs = Some highlight ->
  textarea <> highlight ->
  target = textarea \/ target = highlight ->
  let st' := Scroll.syncScroll refs target st in
  let other := if Nat.eqb target textarea then highlight else textarea in
  Scroll.receiver refs target = Some other /\
  Scroll.scrollTop (st' other) = Scroll.scrollTop (st target) /\
  Scroll.scrollLeft (st' other) = Scroll.scrollLeft (st target) /\
  (forall r, r <> other -> st' r = st r) /\
  Scroll.scrollTop (st' other) = Scroll.scrollTop (st' target) /\
  Scroll.scrollLeft (st' other) = Scroll.scrollLeft (st' target) /\
  (forall r, Scroll.syncScroll refs other st' r = st' r).
Proof.
  intros Hta Hhl Hne Htarget. cbv zeta.
  unfold Scroll.receiver, Scroll.syncScroll. rewrite Hta, Hhl.
  assert (Hcase :
    exists src dst, target = src /\ src <> dst /\
      (if Nat.eqb target textarea then highlight else textarea) = dst /\
      (if Nat.eqb dst textarea then highlight else textarea) = src).
  { destruct Htarget as [->| ->].
    - exists textarea, highlight. rewrite Nat.eqb_refl.
      destruct (Nat.eqb_spec highlight textarea); [congruence|]. auto.
    - exists highlight, textarea. rewrite Nat.eqb_refl.
      destruct (Nat.eqb_spec highlight textarea); [congruence|]. auto. }
  destruct Hcase as (src & dst & -> & Hsd & Hdst & Hsrc).
  pose proof (sync_writes st Hsd) as [Hw Hk]. cbv zeta in Hw, Hk.
  assert (Hst' :
    (if Nat.eqb src textarea
     then Scroll.set_scrollLeft highlight
            (Scroll.scrollLeft
               (Scroll.set_scrollTop highlight (Scroll.scrollTop (st src)) st src))
            (Scroll.set_scrollTop highlight (Scroll.scrollTop (st src)) st)
     else Scroll.set_scrollLeft textarea
            (Scroll.scrollLeft
               (Scroll.set_scrollTop textarea (Scroll.scrollTop (st src)) st src))
            (Scroll.set_scrollTop textarea (Scroll.scrollTop (st src)) st)) =
    Scroll.set_scrollLeft dst
      (Scroll.scrollLeft
         (Scroll.set_scrollTop dst (Scroll.scrollTop (st src)) st src))
      (Scroll.set_scrollTop dst (Scroll.scrollTop (st src)) st)).
  { rewrite <- Hdst. destruct (Nat.eqb src textarea); reflexivity. }
  rewrite Hst'. rewrite Hdst. clear Hst'.
  set (st' := Scroll.set_scrollLeft dst _ _) in *.
  assert (Hsrc' : st' src = st src) by (apply Hk; assumption).
  repeat split.
  - rewrite Hw. reflexivity.
  - rewrite Hw. reflexivity.
  - exact Hk.
  - rewrite Hw, Hsrc'. reflexivity.
  - rewrite Hw, Hsrc'. reflexivity.
  - intro r.
    assert (Hback :
      (if Nat.eqb dst textarea
       then Scroll.set_scrollLeft highlight
              (Scroll.scrollLeft
                 (Scroll.set_scrollTop highlight (Scroll.scrollTop (st' dst)) st' dst))
              (Scroll.set_scrollTop highlight (Scroll.scrollTop (st' dst)) st')
       else Scroll.set_scrollLeft textarea
              (Scroll.scrollLeft
                 (Scroll.set_scrollTop textarea (Scroll.scrollTop (st' dst)) st' dst))
              (Scroll.set_scrollTop textarea (Scroll.scrollTop (st' dst)) st')) =
      Scroll.set_scrollLeft src
        (Scroll.scrollLeft
           (Scroll.set_scrollTop src (Scroll.scrollTop (st' dst)) st' dst))
        (Scroll.set_scrollTop src (Scroll.scrollTop (st' dst)) st')).
    { rewrite <- Hsrc. destruct (Nat.eqb dst textarea); reflexivity. }
    rewrite Hback. clear Hback.
    assert (Hds : dst <> src) by congruence.
    pose proof (sync_writes st' Hds) as [Hw2 Hk2]. cbv zeta in Hw2, Hk2.
    destruct (Nat.eq_dec r src) as [->|Hr].
    + rewrite Hw2, Hw, Hsrc'. cbn. destruct (st src); reflexivity.
    + apply Hk2. assumption.
Qed.

Lemma C7_witness :
  let refs := Scroll.MkRefs (Some 0) (Some 1) in
  let st : Scroll.Store nat :=
    fun r => if Nat.eqb r 0 then Scroll.MkElement 40 7 else Scroll.MkElement 0 0 in
  Scroll.scrollTop (Scroll.syncScroll refs 0 st 1) = 40 /\
  Scroll.scrollLeft (Scroll.syncScroll refs 0 st 1) = 7.
Proof.
  cbv zeta.
  pose proof (@C7_scroll_sync nat (Scroll.MkRefs (Some 0) (Some 1)) 0 1 0
                (fun r => if Nat.eqb r 0 then Scroll.MkElement 40 7
                          else Scroll.MkElement 0 0)
                eq_refl eq_refl (fun H : 0 = 1 => O_S 0 H) (or_introl eq_refl))
    as H.
  cbv zeta in H. destruct H as (_ & Ht & Hl & _).
  split; [exact Ht | exact Hl].
Defined.
(** *** Walking over a concatenation *)

Lemma firstn_app_le {A} n (a b : list A) :
  n <= length a -> firstn n (a ++ b) = firstn n a.
Proof.
  intro H. rewrite firstn_app. replace (n - length a) with 0 by lia.
  simpl. apply app_nil_r.
Qed.

Lemma skipn_app_le {A} n (a b : list A) :
  n <= length a -> skipn n (a ++ b) = skipn n a ++ b.
Proof.
  intro H. rewrite skipn_app. replace (n - length a) with 0 by lia.
  reflexivity.
Qed.

Lemma last_of_firstn_skipn prev n (a : list N) :
  last_of (last_of prev (firstn n a)) (skipn n a) = last_of prev a.
Proof. rewrite <- last_of_app, firstn_skipn. reflexivity. Qed.

(** When the text [R] that follows cannot take part in a match that starts
    before it, the walk splits at [R]. *)
Lemma walk_app (f : rule) (R : list N) :
  proper f ->
  (forall prev a, a <> [] -> f prev (a ++ R) = f prev a) ->
  forall a prev,
    walk f prev (a ++ R) = walk f prev a ++ walk f (last_of prev a) R.
Proof.
  intros Hf Hloc a.
  remember (length a) as k eqn:Hk. revert a Hk.
  induction k as [k IH] using lt_wf_ind. intros a Hk prev.
  destruct a as [|c a].
  - rewrite replace_nil by assumption. reflexivity.
  - destruct (f prev (c :: a)) as [[rep n]|] eqn:E.
    + assert (E' : f prev ((c :: a) ++ R) = Some (rep, n))
        by (rewrite Hloc by discriminate; exact E).
      pose proof (Hf _ _ _ _ E) as Hn.
      rewrite (@replace_hit _ _ _ _ _ Hf E), (@replace_hit _ _ _ _ _ Hf E').
      rewrite firstn_app_le, skipn_app_le by lia.
      rewrite (IH (length (skipn n (c :: a)))); [| |reflexivity].
      * rewrite last_of_firstn_skipn, app_assoc. reflexivity.
      * rewrite length_skipn. lia.
    + assert (E' : f prev ((c :: a) ++ R) = None)
        by (rewrite Hloc by discriminate; exact E).
      rewrite replace_miss by assumption.
      cbn [app] in E' |- *. rewrite replace_miss by assumption.
      rewrite (IH (length a)); [reflexivity| |reflexivity].
      subst k. simpl. lia.
Qed.

(** A text none of whose characters can start a match is copied. *)
Lemma walk_copy (f : rule) (B : list N) :
  (forall c prev s, In c B -> f prev (c :: s) = None) ->
  forall prev R, walk f prev (B ++ R) = B ++ walk f (last_of prev B) R.
Proof.
  induction B as [|c B IH]; intros Hmiss prev R; [reflexivity|].
  cbn [app]. rewrite replace_miss by (apply Hmiss; left; reflexivity).
  rewrite IH; [reflexivity|].
  intros c' prev' s Hin. apply Hmiss. right. exact Hin.
Qed.
(** The same induction, with the result of the rest of the walk named. *)
Lemma walk_ind (f : rule) (P : option N -> list N -> list N -> Prop) :
  proper f ->
  (forall prev, P prev [] []) ->
  (forall prev c s,
      f prev (c :: s) = None ->
      P (Some c) s (walk f (Some c) s) ->
      P prev (c :: s) (c :: walk f (Some c) s)) ->
  (forall prev s rep n,
      f prev s = Some (rep, n) ->
      P (last_of prev (firstn n s)) (skipn n s)
        (walk f (last_of prev (firstn n s)) (skipn n s)) ->
      P prev s (rep ++ walk f (last_of prev (firstn n s)) (skipn n s))) ->
  forall prev s, P prev s (walk f prev s).
Proof.
  intros Hf Hnil Hmiss Hhit.
  assert (H : forall prev s, walk f prev s = walk f prev s /\ P prev s (walk f prev s)).
  { apply (replace_ind (fun prev s o => o = walk f prev s /\ P prev s o) Hf).
    - intros prev. rewrite replace_nil by assumption. auto.
    - intros prev c s o E [-> IH]. rewrite replace_miss by assumption. auto.
    - intros prev s rep n o E [-> IH].
      rewrite (@replace_hit _ _ _ _ _ Hf E). split; [reflexivity|].
      apply Hhit; assumption. }
  intros prev s. apply H.
Qed.
(** *** The escape step *)

Ltac eqb_cases :=
  repeat match goal with
         | |- context [(?x =? ?y)%N] =>
             destruct (N.eqb_spec x y);
             [try discriminate; try subst|]; cbn [andb orb negb]
         end.

Lemma starts_with_tag_before_lt a R :
  a <> [] -> starts_with br_tag (a ++ 60%N :: R) = starts_with br_tag a.
Proof.
  intros Ha. unfold br_tag.
  destruct a as [|a1 [|a2 [|a3 [|a4 [|a5 a]]]]]; [congruence|..];
    cbn [starts_with app]; eqb_cases; reflexivity.
Qed.

Lemma escape_rule_prev prev prev' s : escape_rule prev s = escape_rule prev' s.
Proof. rewrite !escape_rule_spec. reflexivity. Qed.

Lemma escape_walk_prev : forall s prev prev',
  walk escape_rule prev s = walk escape_rule prev' s.
Proof.
  intros s prev. revert s.
  apply (replace_ind
           (fun p s o => forall prev', o = walk escape_rule prev' s)
           escape_proper).
  - intros p prev'. rewrite replace_nil by apply escape_proper. reflexivity.
  - intros p c s o E IH prev'.
    rewrite (escape_rule_prev p prev') in E.
    rewrite replace_miss by assumption. f_equal. apply IH.
  - intros p s rep n o E IH prev'.
    rewrite (escape_rule_prev p prev') in E.
    rewrite (@replace_hit _ _ _ _ _ escape_proper E). f_equal. apply IH.
Qed.

Lemma escape_step_app_tag a b :
  escape_step (a ++ br_tag ++ b) =
  escape_step a ++ escaped_br ++ escape_step b.
Proof.
  unfold escape_step, replace_all.
  rewrite walk_app; [|apply escape_proper|].
  - f_equal.
    assert (E : escape_rule (last_of None a) (br_tag ++ b) = Some (escaped_br, 5)).
    { rewrite escape_rule_spec. unfold escape_at.
      rewrite starts_with_refl. reflexivity. }
    rewrite (@replace_hit _ _ _ _ _ escape_proper E). f_equal.
    apply escape_walk_prev.
  - intros prev a' Ha. rewrite !escape_rule_spec. unfold escape_at.
    change (br_tag ++ b) with (60%N :: ([98; 114; 47; 62]%N ++ b)).
    rewrite starts_with_tag_before_lt by assumption. reflexivity.
Qed.

(** What the walk of a rule starts with: a text [q] that no replacement
    can begin is found at the head of the result only if the input
    begins with it. *)
Lemma walk_prefix (f : rule) (q : list N) :
  proper f ->
  (forall prev s rep n, f prev s = Some (rep, n) ->
     exists a rep', rep = a :: rep' /\ ~ In a q) ->
  forall prev s,
    starts_with q (walk f prev s) = true -> starts_with q s = true.
Proof.
  intros Hf Hrep. induction q as [|c q IH]; intros prev s; [reflexivity|].
  destruct s as [|d s].
  - rewrite replace_nil by assumption. discriminate.
  - destruct (f prev (d :: s)) as [[rep n]|] eqn:E.
    + rewrite (@replace_hit _ _ _ _ _ Hf E).
      destruct (Hrep _ _ _ _ E) as (a & rep' & -> & Ha).
      cbn [app starts_with]. destruct (N.eqb_spec c a) as [->|_].
      * exfalso. apply Ha. left. reflexivity.
      * discriminate.
    + rewrite replace_miss by assumption. cbn [starts_with].
      destruct (c =? d)%N; [|discriminate]. cbn [andb].
      apply IH. intros prev0 s0 rep n E0.
      destruct (Hrep _ _ _ _ E0) as (a & rep' & -> & Ha).
      exists a, rep'. split; [reflexivity|]. intro Hin. apply Ha. right. exact Hin.
Qed.

Lemma contains_cons p c s :
  contains p (c :: s) = starts_with p (c :: s) || contains p s.
Proof. reflexivity. Qed.

Lemma contains_tag_escaped o :
  contains br_tag (escaped_br ++ o) = contains br_tag o.
Proof.
  unfold escaped_br, br_tag. cbn [app].
  repeat (rewrite contains_cons; cbn [starts_with];
          match goal with
          | |- context [(?x =? ?y)%N] =>
              change (x =? y)%N with false; cbn [andb orb]
          end).
  reflexivity.
Qed.

Lemma escape_walk_no_tag prev s :
  contains br_tag (walk escape_rule prev s) = false.
Proof.
  revert prev s.
  apply (walk_ind (fun _ _ o => contains br_tag o = false) escape_proper).
  - intros _. reflexivity.
  - intros prev c s E IH.
    rewrite contains_cons, IH, orb_false_r.
    destruct (starts_with br_tag (c :: walk escape_rule (Some c) s)) eqn:Es;
      [|reflexivity].
    exfalso. rewrite escape_rule_spec in E. unfold escape_at in E.
    unfold br_tag in Es, E. cbn [starts_with] in Es, E.
    apply andb_prop in Es. destruct Es as [Ec Es]. rewrite Ec in E.
    cbn [andb] in E.
    change (starts_with [98; 114; 47; 62]%N (walk escape_rule (Some c) s) = true)
      in Es.
    apply walk_prefix in Es; [|apply escape_proper|].
    + cbn [starts_with] in Es. rewrite Es in E. discriminate.
    + intros prev0 s0 rep n H. apply escape_hit in H.
      destruct H as (r & _ & -> & _). unfold escaped_br.
      eexists _, _. split; [reflexivity|]. cbn [In].
      intros [H|[H|[H|[H|[]]]]]; discriminate.
  - intros prev s rep n E IH. apply escape_hit in E.
    destruct E as (r & _ & -> & _). rewrite contains_tag_escaped. exact IH.
Qed.

Lemma contains_false_cons p c s :
  contains p (c :: s) = false ->
  starts_with p (c :: s) = false /\ contains p s = false.
Proof. rewrite contains_cons. apply orb_false_elim. Qed.

Lemma escape_walk_id : forall s prev,
  contains br_tag s = false -> walk escape_rule prev s = s.
Proof.
  induction s as [|c s IH]; intros prev H.
  - apply replace_nil. apply escape_proper.
  - apply contains_false_cons in H. destruct H as [Hs Hc].
    rewrite replace_miss.
    + rewrite IH by assumption. reflexivity.
    + rewrite escape_rule_spec. unfold escape_at. rewrite Hs. reflexivity.
Qed.
(** *** Weaving wrappers into a line *)

Lemma flat_app l1 l2 : flat (l1 ++ l2) = flat l1 ++ flat l2.
Proof. unfold flat. apply flat_map_app. Qed.

Lemma chars_app l1 l2 : chars (l1 ++ l2) = chars l1 ++ chars l2.
Proof. unfold chars. apply flat_map_app. Qed.

Lemma flat_Ch m : flat (map Ch m) = m.
Proof. induction m as [|c m IH]; [reflexivity|]. cbn. f_equal. exact IH. Qed.

Lemma chars_Ch m : chars (map Ch m) = m.
Proof. induction m as [|c m IH]; [reflexivity|]. cbn. f_equal. exact IH. Qed.

Lemma blocks_Ch Q m : blocks Q (map Ch m).
Proof. induction m; constructor; auto. Qed.

Lemma blocks_app Q l1 l2 : blocks Q (l1 ++ l2) <-> blocks Q l1 /\ blocks Q l2.
Proof. apply Forall_app. Qed.

Lemma Extends_refl l : Extends l l.
Proof. induction l; constructor; assumption. Qed.

Lemma Extends_app l1 l1' l2 l2' :
  Extends l1 l1' -> Extends l2 l2' -> Extends (l1 ++ l2) (l1' ++ l2').
Proof.
  intros H1 H2. induction H1; cbn [app]; try constructor; assumption.
Qed.

Lemma Extends_trans l1 l2 l3 : Extends l1 l2 -> Extends l2 l3 -> Extends l1 l3.
Proof.
  intros H12 H23. revert l1 H12.
  induction H23 as [|i l2 l3 H IH|w l2 l3 Hw H IH]; intros l1 H12.
  - exact H12.
  - inversion H12; subst.
    + constructor. apply IH. assumption.
    + constructor; [assumption|]. apply IH. assumption.
  - constructor; [assumption|]. apply IH. assumption.
Qed.

Lemma Extends_chars l l' : Extends l l' -> chars l' = chars l.
Proof.
  induction 1 as [|i l l' H IH|w l l' Hw H IH]; [reflexivity| |exact IH].
  change (chars ([i] ++ l') = chars ([i] ++ l)).
  rewrite !chars_app, IH. reflexivity.
Qed.

Lemma Extends_blocks (Q : list N -> Prop) l l' :
  (forall w, wrapper w -> Q w) ->
  Extends l l' -> blocks Q l -> blocks Q l'.
Proof.
  intros HQ. induction 1 as [|i l l' H IH|w l l' Hw H IH]; intro Hb.
  - constructor.
  - inversion Hb; subst. constructor; [assumption|]. apply IH. assumption.
  - constructor; [apply HQ; assumption|]. apply IH. assumption.
Qed.

(** A block of the old line is still in one piece in the new one. *)
Lemma Extends_keeps_block l l' b :
  Extends l l' -> In (Blk b) l -> exists x y, flat l' = x ++ b ++ y.
Proof.
  induction 1 as [|i l l' H IH|w l l' Hw H IH]; intro Hin.
  - destruct Hin.
  - destruct Hin as [->|Hin].
    + exists [], (flat l'). reflexivity.
    + destruct (IH Hin) as (x & y & E).
      exists (flat [i] ++ x), y. change (i :: l') with ([i] ++ l').
      rewrite flat_app, E, <- app_assoc. reflexivity.
  - destruct (IH Hin) as (x & y & E).
    exists (w ++ x), y. change (Blk w :: l') with ([Blk w] ++ l').
    rewrite flat_app, E. cbn. rewrite app_nil_r, <- app_assoc. reflexivity.
Qed.

(** The line read as decorated text. *)
Lemma blocks_Decorated l : blocks wrapper l -> Decorated (chars l) (flat l).
Proof.
  induction 1 as [|[c|b] l Hi Hl IH].
  - constructor.
  - change (Decorated (c :: chars l) (c :: flat l)). constructor. exact IH.
  - change (Decorated (chars l) (b ++ flat l)). constructor; assumption.
Qed.

(** The walk of a rule over a line whose blocks are inert: if every match
    that starts at a character covers whole items and is replaced by them
    with wrappers added, the result is the line with wrappers added. *)
Lemma weave (f : rule) (Q : list N -> Prop) :
  proper f ->
  (forall b, Q b -> inert f b) ->
  (forall prev c l rep n,
      blocks Q l -> f prev (c :: flat l) = Some (rep, n) ->
      exists l1 l2 l1',
        Ch c :: l = l1 ++ l2 /\ length (flat l1) = n /\
        rep = flat l1' /\ Extends l1 l1') ->
  forall l prev,
    blocks Q l ->
    exists l', walk f prev (flat l) = flat l' /\ Extends l l'.
Proof.
  intros Hf Hinert Hhit l.
  remember (length l) as k eqn:Hk. revert l Hk.
  induction k as [k IH] using lt_wf_ind. intros l Hk prev Hb.
  destruct l as [|[c|b] l].
  - exists []. split; [apply replace_nil; assumption|constructor].
  - inversion Hb as [|? ? _ Hb']; subst.
    change (flat (Ch c :: l)) with (c :: flat l).
    destruct (f prev (c :: flat l)) as [[rep n]|] eqn:E.
    + destruct (Hhit _ _ _ _ _ Hb' E) as (l1 & l2 & l1' & El & Hn & -> & Hext).
      pose proof (Hf _ _ _ _ E) as Hpos.
      assert (Es : c :: flat l = flat l1 ++ flat l2).
      { change (c :: flat l) with (flat (Ch c :: l)).
        rewrite El. apply flat_app. }
      rewrite (@replace_hit _ _ _ _ _ Hf E). rewrite Es.
      rewrite firstn_app_le, skipn_app_le by lia.
      rewrite <- Hn, firstn_all, skipn_all. cbn [app].
      assert (Hl2 : blocks Q l2).
      { assert (Hall : blocks Q (l1 ++ l2))
          by (rewrite <- El; constructor; [exact I|assumption]).
        apply blocks_app in Hall. apply Hall. }
      destruct (IH (length l2)) with (l := l2)
          (prev := last_of prev (flat l1)) as (l2' & E2 & Hext2);
        [|reflexivity|assumption|].
      * apply (f_equal (@length item)) in El. rewrite length_app in El.
        destruct l1; [simpl in Hn; lia|].
        try subst k. cbn [length] in *. lia.
      * exists (l1' ++ l2'). split.
        -- rewrite E2, flat_app. reflexivity.
        -- rewrite El. apply Extends_app; assumption.
    + rewrite replace_miss by assumption.
      destruct (IH (length l)) with (l := l) (prev := Some c)
        as (l' & E' & Hext); [subst; simpl; lia|reflexivity|assumption|].
      exists (Ch c :: l'). split.
      * rewrite E'. reflexivity.
      * constructor. assumption.
  - inversion Hb as [|? ? Hq Hb']; subst.
    change (flat (Blk b :: l)) with (b ++ flat l).
    rewrite (Hinert _ Hq).
    destruct (IH (length l)) with (l := l) (prev := last_of prev b)
      as (l' & E' & Hext); [simpl; lia|reflexivity|assumption|].
    exists (Blk b :: l'). split.
    + rewrite E'. reflexivity.
    + constructor. assumption.
Qed.
Lemma guarded_head b : guarded b -> exists b', b = 60%N :: b'.
Proof. intros [H _]. exact H. Qed.

(** Characters other than [<] at the head of a line are items of their
    own. *)
Lemma take_chars (Q : list N -> Prop) :
  (forall b, Q b -> guarded b) ->
  forall m l r,
    blocks Q l -> flat l = m ++ r -> ~ In 60%N m ->
    exists l2, l = map Ch m ++ l2 /\ flat l2 = r.
Proof.
  intros HQ. induction m as [|c m IH]; intros l r Hb E Hm.
  - exists l. auto.
  - destruct l as [|[d|b] l].
    + discriminate E.
    + change (flat (Ch d :: l)) with (d :: flat l) in E.
      cbn [app] in E. injection E as -> E.
      inversion Hb as [|? ? _ Hb']; subst.
      destruct (IH l r Hb' E) as (l2 & -> & E2).
      { intro Hin. apply Hm. right. exact Hin. }
      exists l2. auto.
    + exfalso. inversion Hb as [|? ? Hq _]; subst.
      destruct (guarded_head (HQ _ Hq)) as [b' ->].
      change (flat (Blk (60%N :: b') :: l)) with (60%N :: b' ++ flat l) in E.
      cbn [app] in E. injection E as <- _. apply Hm. left. reflexivity.
Qed.

(** Up to the first closing delimiter, a line consists of whole items. *)
Lemma take_until (Q : list N -> Prop) (close : N) :
  (forall b, Q b -> ~ In close b) ->
  forall body l r,
    blocks Q l -> flat l = body ++ close :: r -> ~ In close body ->
    exists lb l2, l = lb ++ Ch close :: l2 /\ flat lb = body /\ flat l2 = r /\
                  blocks Q lb.
Proof.
  intros HQ body l. revert body.
  induction l as [|[d|b] l IH]; intros body r Hb E Hbody.
  - destruct body; discriminate E.
  - change (flat (Ch d :: l)) with (d :: flat l) in E.
    inversion Hb as [|? ? _ Hb']; subst.
    destruct body as [|c body]; cbn [app] in E; injection E as -> E.
    + exists [], l. repeat split; auto. constructor.
    + destruct (IH body r Hb' E) as (lb & l2 & -> & <- & <- & Hlb).
      { intro Hin. apply Hbody. right. exact Hin. }
      exists (Ch c :: lb), l2. repeat split; auto. constructor; auto.
  - change (flat (Blk b :: l)) with (b ++ flat l) in E.
    inversion Hb as [|? ? Hq Hb']; subst.
    assert (Hsplit : exists body', body = b ++ body').
    { clear IH Hb Hb' Hbody. pose proof (HQ _ Hq) as Hnb. clear Hq.
      revert body E. induction b as [|x b IHb]; intros body E.
      - exists body. reflexivity.
      - destruct body as [|y body]; cbn [app] in E; injection E as -> E.
        + exfalso. apply Hnb. left. reflexivity.
        + destruct (IHb (fun H => Hnb (or_intror H)) body E) as [body' ->].
          exists body'. reflexivity. }
    destruct Hsplit as [body' ->].
    rewrite <- app_assoc in E. apply app_inv_head in E.
    destruct (IH body' r Hb' E) as (lb & l2 & -> & <- & <- & Hlb).
    { intro Hin. apply Hbody. apply in_or_app. right. exact Hin. }
    exists (Blk b :: lb), l2. repeat split; auto. constructor; auto.
Qed.

Lemma Extends_span col l :
  hex_token col ->
  Extends l (Blk (span_open col) :: l ++ [Blk span_close]).
Proof.
  intro Hc. apply Extends_wrap; [constructor; assumption|].
  rewrite <- (app_nil_r l) at 1. apply Extends_app; [apply Extends_refl|].
  apply Extends_wrap; [constructor|constructor].
Qed.

Lemma flat_span col l :
  flat (Blk (span_open col) :: l ++ [Blk span_close]) = span col (flat l).
Proof.
  change (Blk (span_open col) :: l ++ [Blk span_close])
    with ([Blk (span_open col)] ++ l ++ [Blk span_close]).
  rewrite !flat_app. unfold span. cbn. rewrite !app_nil_r. reflexivity.
Qed.

(** A match on characters other than [<], replaced by a span around
    them. *)
Lemma simple_hit (Q : list N -> Prop) :
  (forall b, Q b -> guarded b) ->
  forall c l m r col,
    blocks Q l -> c :: flat l = m ++ r -> ~ In 60%N m -> hex_token col ->
    exists l1 l2 l1',
      Ch c :: l = l1 ++ l2 /\ length (flat l1) = length m /\
      span col m = flat l1' /\ Extends l1 l1'.
Proof.
  intros HQ c l m r col Hb E Hm Hc.
  destruct (@take_chars Q HQ m (Ch c :: l) r) as (l2 & El & _);
    [constructor; [exact I|assumption]|exact E|exact Hm|].
  exists (map Ch m), l2, (Blk (span_open col) :: map Ch m ++ [Blk span_close]).
  repeat split.
  - exact El.
  - rewrite flat_Ch. reflexivity.
  - rewrite flat_span, flat_Ch. reflexivity.
  - apply Extends_span. assumption.
Qed.

Lemma color_token mode :
  hex_token (keyword (getColors mode)) /\
  hex_token (node (getColors mode)) /\
  hex_token (operator (getColors mode)).
Proof.
  destruct mode; repeat split;
    (eexists; split; [reflexivity|]; split; [reflexivity|];
     repeat constructor).
Qed.

Lemma hex_token_no_lt t : hex_token t -> ~ In 60%N t.
Proof.
  intros (h & -> & _ & Hh) [E|Hin]; [discriminate|].
  rewrite Forall_forall in Hh. apply Hh in Hin. discriminate Hin.
Qed.

Lemma keyword_no_lt kw : In kw keywords -> ~ In 60%N kw.
Proof.
  unfold keywords. cbn [In].
  intros [<-|[<-|[<-|[<-|[<-|[]]]]]] Hin; cbn [In] in Hin;
    repeat (destruct Hin as [Hin|Hin]; [discriminate|]); exact Hin.
Qed.

Section WeaveRules.
Variable mode : PaletteMode.
Variable Q : list N -> Prop.
Hypothesis Q_guarded : forall b, Q b -> guarded b.

Lemma hex_weave_hit prev c l rep n :
  blocks Q l -> hex_rule mode prev (c :: flat l) = Some (rep, n) ->
  exists l1 l2 l1',
    Ch c :: l = l1 ++ l2 /\ length (flat l1) = n /\
    rep = flat l1' /\ Extends l1 l1'.
Proof.
  intros Hb E. apply hex_hit in E. destruct E as (t & r & E & Ht & -> & ->).
  destruct (@simple_hit Q Q_guarded c l t r t Hb E (hex_token_no_lt Ht) Ht)
    as (l1 & l2 & l1' & H1 & H2 & H3 & H4).
  exists l1, l2, l1'. repeat split; auto.
  rewrite H2. apply hex_token_length. assumption.
Qed.

Lemma keyword_weave_hit prev c l rep n :
  blocks Q l -> keyword_rule mode prev (c :: flat l) = Some (rep, n) ->
  exists l1 l2 l1',
    Ch c :: l = l1 ++ l2 /\ length (flat l1) = n /\
    rep = flat l1' /\ Extends l1 l1'.
Proof.
  intros Hb E. apply keyword_hit in E.
  destruct E as (kw & r & E & Hin & -> & -> & _).
  destruct (@simple_hit Q Q_guarded c l kw r (keyword (getColors mode)) Hb E
              (@keyword_no_lt _ Hin) (proj1 (color_token mode)))
    as (l1 & l2 & l1' & H1 & H2 & H3 & H4).
  exists l1, l2, l1'. auto.
Qed.

Lemma arrow_weave_hit prev c l rep n :
  blocks Q l -> arrow_rule mode prev (c :: flat l) = Some (rep, n) ->
  exists l1 l2 l1',
    Ch c :: l = l1 ++ l2 /\ length (flat l1) = n /\
    rep = flat l1' /\ Extends l1 l1'.
Proof.
  intros Hb E. apply arrow_hit in E. destruct E as (r & E & -> & ->).
  assert (Hm : ~ In 60%N arrow).
  { unfold arrow. cbn [In]. intros [H|[H|[H|[]]]]; discriminate. }
  destruct (@simple_hit Q Q_guarded c l arrow r (operator (getColors mode)) Hb E
              Hm (proj2 (proj2 (color_token mode))))
    as (l1 & l2 & l1' & H1 & H2 & H3 & H4).
  exists l1, l2, l1'. auto.
Qed.

End WeaveRules.
Lemma node_weave_hit mode (Q : list N -> Prop) :
  (forall b, Q b -> guarded b) ->
  forall prev c l rep n,
    blocks Q l -> node_rule mode prev (c :: flat l) = Some (rep, n) ->
    exists l1 l2 l1',
      Ch c :: l = l1 ++ l2 /\ length (flat l1) = n /\
      rep = flat l1' /\ Extends l1 l1'.
Proof.
  intros HQ prev c l rep n Hb E. apply node_hit_inv in E.
  destruct E as [(c0 & r & E & Hl & _ & _ & -> & ->)
                |(c0 & name & sh & r & E & Hl & Hname & Hsh & -> & ->)].
  - assert (Hm : ~ In 60%N [c0]).
    { intros [->|[]]. discriminate Hl. }
    apply (@simple_hit Q HQ c l [c0] r (node (getColors mode)) Hb E Hm
             (proj1 (proj2 (color_token mode)))).
  - destruct Hsh as (body & Hshape & _).
    assert (Hdelim : exists open close,
               sh = open :: body ++ [close] /\ ~ In close body /\
               open <> 60%N /\ (close = 41%N \/ close = 93%N)).
    { destruct Hshape as [[-> Hn]|[-> Hn]].
      - exists 40%N, 41%N. repeat split; auto. discriminate.
      - exists 91%N, 93%N. repeat split; auto. discriminate. }
    destruct Hdelim as (open & close & -> & Hbody & Hopen & Hclose).
    assert (Hhead : ~ In 60%N ((c0 :: name) ++ [open])).
    { intro Hin. apply in_app_or in Hin. destruct Hin as [[Hin|Hin]|[Hin|[]]].
      - rewrite Hin in Hl. discriminate Hl.
      - rewrite Forall_forall in Hname. apply Hname in Hin. discriminate Hin.
      - congruence. }
    assert (E' : c :: flat l =
                 ((c0 :: name) ++ [open]) ++ (body ++ close :: r)).
    { rewrite E. rewrite <- !app_assoc. cbn [app]. rewrite <- app_assoc.
      reflexivity. }
    assert (Hall : blocks Q (Ch c :: l)) by (constructor; [exact I|assumption]).
    destruct (@take_chars Q HQ _ (Ch c :: l) _ Hall E' Hhead) as (l3 & El & E3).
    assert (Hb3 : blocks Q l3).
    { rewrite El in Hall. apply blocks_app in Hall. apply Hall. }
    assert (HQc : forall b, Q b -> ~ In close b).
    { intros b Hq. destruct (HQ b Hq) as (_ & H41 & H93).
      destruct Hclose as [-> | ->]; assumption. }
    destruct (@take_until Q close HQc body l3 r Hb3 E3 Hbody)
      as (lb & l2 & -> & Hflb & Hfl2 & Hblb).
    exists (map Ch (c0 :: name) ++ (Ch open :: lb ++ [Ch close])), l2,
      ((Blk (span_open (node (getColors mode))) :: map Ch (c0 :: name) ++
          [Blk span_close]) ++ (Ch open :: lb ++ [Ch close])).
    repeat split.
    + rewrite El, map_app. cbn [map]. rewrite <- !app_assoc. cbn [app].
      rewrite <- app_assoc. reflexivity.
    + f_equal. rewrite flat_app, flat_Ch.
      change (Ch open :: lb ++ [Ch close]) with ([Ch open] ++ lb ++ [Ch close]).
      rewrite !flat_app, Hflb. reflexivity.
    + rewrite flat_app, flat_span, flat_Ch.
      change (Ch open :: lb ++ [Ch close]) with ([Ch open] ++ lb ++ [Ch close]).
      rewrite !flat_app, Hflb. reflexivity.
    + apply Extends_app; [|apply Extends_refl].
      apply Extends_span. apply color_token.
Qed.
(** *** Blocks that the later steps copy *)

Lemma quiet_inv c :
  quiet c = true ->
  c <> 103%N /\ c <> 84%N /\ c <> 76%N /\ c <> 82%N /\
  c <> 45%N /\ c <> 41%N /\ c <> 93%N.
Proof.
  unfold quiet. intro H. apply negb_true_iff in H.
  repeat (apply orb_false_elim in H; destruct H as [H ?]).
  repeat match goal with
         | E : (_ =? _)%N = false |- _ => apply N.eqb_neq in E
         end.
  repeat split; assumption.
Qed.

Lemma hex_quiet c : is_hex c = true -> quiet c = true.
Proof.
  unfold is_hex, is_digit, in_range, quiet. intro H.
  apply negb_true_iff.
  repeat match goal with
         | |- context [(c =? ?k)%N] => destruct (N.eqb_spec c k); [subst; discriminate H|]
         end.
  reflexivity.
Qed.

Lemma hex_alnum c : is_hex c = true -> is_alnum c = true.
Proof.
  unfold is_hex, is_alnum, is_letter, is_upper, is_lower, is_digit, in_range.
  intro H.
  repeat match type of H with
         | (_ || _) = true => apply orb_prop in H; destruct H as [H|H]
         end;
    apply andb_prop in H; destruct H as [H1 H2];
    apply N.leb_le in H1; apply N.leb_le in H2.
  - apply orb_true_intro. left. apply orb_true_intro. left.
    apply andb_true_intro. split; apply N.leb_le; lia.
  - apply orb_true_intro. left. apply orb_true_intro. right.
    apply andb_true_intro. split; apply N.leb_le; lia.
  - apply orb_true_intro. right.
    apply andb_true_intro. split; apply N.leb_le; lia.
Qed.

Lemma keyword_miss mode prev c s :
  c <> 103%N -> c <> 84%N -> c <> 76%N -> c <> 82%N ->
  keyword_rule mode prev (c :: s) = None.
Proof.
  intros H1 H2 H3 H4.
  destruct (keyword_rule mode prev (c :: s)) as [[rep n]|] eqn:E; [|reflexivity].
  exfalso. apply keyword_hit in E. destruct E as (kw & r & E & Hin & _).
  unfold keywords in Hin. cbn [In] in Hin.
  destruct Hin as [<-|[<-|[<-|[<-|[<-|[]]]]]]; cbn [app] in E;
    injection E as E _; congruence.
Qed.

Lemma arrow_miss mode prev c s :
  c <> 45%N -> arrow_rule mode prev (c :: s) = None.
Proof.
  intros H. rewrite arrow_rule_spec. unfold arrow_at, arrow.
  cbn [starts_with]. destruct (N.eqb_spec 45 c); [congruence|reflexivity].
Qed.

Lemma quiet_inert_keyword mode b :
  Forall (fun c => quiet c = true) b -> inert (keyword_rule mode) b.
Proof.
  intros Hb prev r. apply walk_copy. intros c prev' s Hin.
  rewrite Forall_forall in Hb. apply Hb in Hin. apply quiet_inv in Hin.
  apply keyword_miss; apply Hin.
Qed.

Lemma quiet_calm c : quiet c = true -> calm c = true.
Proof.
  intro H. apply quiet_inv in H. unfold calm. apply negb_true_iff.
  destruct H as (_ & _ & _ & _ & H1 & H2 & H3).
  apply N.eqb_neq in H1, H2, H3. rewrite H1, H2, H3. reflexivity.
Qed.

Lemma calm_inv c : calm c = true -> c <> 45%N /\ c <> 41%N /\ c <> 93%N.
Proof.
  unfold calm. intro H. apply negb_true_iff in H.
  repeat (apply orb_false_elim in H; destruct H as [H ?]).
  repeat match goal with
         | E : (_ =? _)%N = false |- _ => apply N.eqb_neq in E
         end.
  repeat split; assumption.
Qed.

Lemma calm_inert_arrow mode b :
  Forall (fun c => calm c = true) b -> inert (arrow_rule mode) b.
Proof.
  intros Hb prev r. apply walk_copy. intros c prev' s Hin.
  rewrite Forall_forall in Hb. apply Hb in Hin. apply calm_inv in Hin.
  apply arrow_miss; apply Hin.
Qed.

Lemma firm_guarded mode b : firm mode b -> guarded b.
Proof.
  intros (Hh & Hq & _). split; [exact Hh|].
  rewrite Forall_forall in Hq.
  split; intro Hin; apply Hq in Hin; discriminate Hin.
Qed.

Lemma solid_firm mode b : solid mode b -> firm mode b.
Proof. intros [H _]. exact H. Qed.

Lemma solid_guarded mode b : solid mode b -> guarded b.
Proof. intro H. eapply firm_guarded. apply solid_firm. exact H. Qed.

(** The node rule *)

Lemma node_miss_nonletter mode prev c s :
  is_letter c = false -> node_rule mode prev (c :: s) = None.
Proof.
  intro H. rewrite node_rule_spec. unfold node_at. rewrite H. reflexivity.
Qed.

Lemma shape_at_other c s : c <> 40%N -> c <> 91%N -> shape_at (c :: s) = None.
Proof.
  intros H1 H2. unfold shape_at.
  destruct (N.eqb_spec 40 c); [congruence|].
  destruct (N.eqb_spec 91 c); [congruence|]. reflexivity.
Qed.

Lemma alnum_not_open c : is_alnum c = true -> c <> 40%N /\ c <> 91%N.
Proof. intro H. split; intros ->; discriminate H. Qed.

Lemma name_shape_run w d r :
  Forall (fun c => is_alnum c = true) w ->
  is_alnum d = false -> d <> 40%N -> d <> 91%N ->
  name_shape (w ++ d :: r) = None.
Proof.
  intros Hw Hd H40 H91. induction Hw as [|c w Hc Hw IH]; cbn [app name_shape].
  - rewrite shape_at_other by assumption. rewrite Hd. reflexivity.
  - destruct (alnum_not_open _ Hc) as [Hc1 Hc2].
    rewrite shape_at_other by assumption. rewrite Hc, IH. reflexivity.
Qed.

(** A run of letters and digits that is longer than one character, or
    follows a word character, and is followed by something other than a
    letter, a digit or an opening delimiter, holds no node. *)
Lemma node_walk_run mode d r : forall w prev,
  Forall (fun c => is_alnum c = true) w ->
  2 <= length w \/ is_word_opt prev = true ->
  is_alnum d = false -> d <> 40%N -> d <> 91%N ->
  walk (node_rule mode) prev (w ++ d :: r) =
  w ++ walk (node_rule mode) (last_of prev w) (d :: r).
Proof.
  induction w as [|c w IH]; intros prev Hw Hlen Hd H40 H91; [reflexivity|].
  inversion Hw as [|? ? Hc Hw']; subst.
  cbn [app]. rewrite replace_miss.
  - rewrite IH; auto. right. cbn [is_word_opt]. apply is_alnum_word. exact Hc.
  - rewrite node_rule_spec. unfold node_at.
    destruct (is_letter c); [|reflexivity].
    rewrite name_shape_run by assumption.
    replace (boundary prev (Some c) && boundary (Some c) (hd_error (w ++ d :: r)))
      with false; [reflexivity|].
    symmetry. unfold boundary. cbn [is_word_opt].
    rewrite (is_alnum_word _ Hc).
    destruct Hlen as [Hlen| ->]; [|reflexivity].
    destruct w as [|c2 w]; [simpl in Hlen; lia|].
    inversion Hw' as [|? ? Hc2 _]; subst. cbn [app hd_error is_word_opt].
    rewrite (is_alnum_word _ Hc2). apply andb_false_r.
Qed.

Lemma node_walk_nonletter mode prev c s :
  is_letter c = false ->
  walk (node_rule mode) prev (c :: s) = c :: walk (node_rule mode) (Some c) s.
Proof. intro H. apply replace_miss. apply node_miss_nonletter. exact H. Qed.
Lemma hex_token_inv t :
  hex_token t ->
  exists h1 h2 h3 h4 h5 h6,
    t = [35%N; h1; h2; h3; h4; h5; h6] /\
    Forall (fun c => is_hex c = true) [h1; h2; h3; h4; h5; h6].
Proof.
  intros (h & -> & Hl & Hh).
  destruct h as [|h1 [|h2 [|h3 [|h4 [|h5 [|h6 [|? ?]]]]]]]; try discriminate.
  exists h1, h2, h3, h4, h5, h6. auto.
Qed.

Ltac norm_lit :=
  repeat match goal with
         | |- context [lit ?s] =>
             let x := eval vm_compute in (lit s) in change (lit s) with x
         end.

Ltac node_skip := rewrite node_walk_nonletter by reflexivity.

Ltac node_run w d :=
  match goal with
  | |- context [replace_from ?f ?p ?s 0] =>
      let k := eval compute in (S (length w)) in
      let rest := eval cbn [skipn] in (skipn k s) in
      change (replace_from f p s 0) with (replace_from f p (w ++ d :: rest) 0)
  end;
  rewrite (@node_walk_run _ d _ w);
  [ cbn [app last_of fold_left]
  | repeat constructor; try (apply hex_alnum; assumption)
  | left; simpl; lia
  | reflexivity
  | discriminate
  | discriminate ].

Lemma node_inert_open mode t : hex_token t -> inert (node_rule mode) (span_open t).
Proof.
  intros Ht prev r. apply hex_token_inv in Ht.
  destruct Ht as (h1 & h2 & h3 & h4 & h5 & h6 & -> & Hh).
  repeat match goal with
         | H : Forall _ (_ :: _) |- _ => inversion H; subst; clear H
         end.
  unfold span_open, dquote. norm_lit. cbn [app last_of fold_left].
  node_skip. node_run [115; 112; 97; 110]%N 32%N.
  node_skip. node_run [115; 116; 121; 108; 101]%N 61%N.
  node_skip. node_skip. node_run [99; 111; 108; 111; 114]%N 58%N.
  node_skip. node_skip. node_skip.
  node_run [h1; h2; h3; h4; h5; h6] 34%N.
  node_skip. node_skip. reflexivity.
Qed.

Lemma node_inert_close mode : inert (node_rule mode) span_close.
Proof.
  intros prev r. unfold span_close. norm_lit. cbn [app last_of fold_left].
  node_skip. node_skip. node_run [115; 112; 97; 110]%N 62%N.
  node_skip. reflexivity.
Qed.

(** A hex token between the tags of its span *)
Lemma node_inert_span_hex mode t :
  hex_token t -> inert (node_rule mode) (span t t).
Proof.
  intros Ht prev r. unfold span. rewrite <- !app_assoc.
  rewrite (node_inert_open mode Ht).
  pose proof (hex_token_inv Ht) as (h1 & h2 & h3 & h4 & h5 & h6 & E & Hh).
  rewrite !last_of_app.
  set (p := last_of prev (span_open t)). clearbody p. clear Ht. subst t.
  f_equal. cbn [app].
  repeat match goal with
         | H : Forall _ (_ :: _) |- _ => inversion H; subst; clear H
         end.
  node_skip.
  change (span_close ++ r) with (60%N :: (lit "/span>" ++ r)).
  node_run [h1; h2; h3; h4; h5; h6] 60%N.
  change (60%N :: (lit "/span>" ++ r)) with (span_close ++ r).
  rewrite (@node_inert_close mode). reflexivity.
Qed.
Lemma hex_token_quiet t : hex_token t -> Forall (fun c => quiet c = true) t.
Proof.
  intros (h & -> & _ & Hh). constructor; [reflexivity|].
  eapply Forall_impl; [|exact Hh]. apply hex_quiet.
Qed.

Lemma span_open_quiet t :
  hex_token t -> Forall (fun c => quiet c = true) (span_open t).
Proof.
  intro Ht. unfold span_open, dquote. norm_lit.
  apply Forall_app. split; [repeat constructor|].
  constructor; [reflexivity|].
  apply Forall_app. split; [repeat constructor|].
  apply Forall_app. split; [apply hex_token_quiet; assumption|].
  repeat constructor.
Qed.

Lemma span_close_quiet : Forall (fun c => quiet c = true) span_close.
Proof. unfold span_close. norm_lit. repeat constructor. Qed.

Lemma quiet_all_calm b :
  Forall (fun c => quiet c = true) b -> Forall (fun c => calm c = true) b.
Proof. apply Forall_impl. apply quiet_calm. Qed.

Lemma wrapper_solid mode w : wrapper w -> solid mode w.
Proof.
  intros [c Hc|].
  - pose proof (span_open_quiet Hc) as Hq.
    split; [split; [|split]|exact Hq].
    + eexists. unfold span_open. norm_lit. reflexivity.
    + apply quiet_all_calm. exact Hq.
    + apply node_inert_open. assumption.
  - split; [split; [|split]|exact span_close_quiet].
    + eexists. unfold span_close. norm_lit. reflexivity.
    + apply quiet_all_calm. exact span_close_quiet.
    + apply node_inert_close.
Qed.

Lemma wrapper_firm mode w : wrapper w -> firm mode w.
Proof. intro H. apply solid_firm. apply wrapper_solid. exact H. Qed.

Lemma span_hex_solid mode t : hex_token t -> solid mode (span t t).
Proof.
  intro Ht.
  assert (Hq : Forall (fun c => quiet c = true) (span t t)).
  { unfold span. apply Forall_app. split; [apply span_open_quiet; assumption|].
    apply Forall_app. split; [apply hex_token_quiet; assumption|].
    apply span_close_quiet. }
  split; [split; [|split]|exact Hq].
  - eexists. unfold span, span_open. norm_lit. reflexivity.
  - apply quiet_all_calm. exact Hq.
  - apply node_inert_span_hex. assumption.
Qed.

Section Steps.
Variable mode : PaletteMode.

Lemma block_step (Q : list N -> Prop) (f : rule) :
  (forall w, wrapper w -> Q w) ->
  proper f ->
  (forall b, Q b -> inert f b) ->
  (forall prev c l rep n,
      blocks Q l -> f prev (c :: flat l) = Some (rep, n) ->
      exists l1 l2 l1',
        Ch c :: l = l1 ++ l2 /\ length (flat l1) = n /\
        rep = flat l1' /\ Extends l1 l1') ->
  forall l prev,
    blocks Q l ->
    exists l', walk f prev (flat l) = flat l' /\ Extends l l' /\ blocks Q l'.
Proof.
  intros HQ Hf Hi Hh l prev Hb.
  destruct (@weave f Q Hf Hi Hh l prev Hb) as (l' & E & Hext).
  exists l'. repeat split; auto.
  eapply Extends_blocks; [|eassumption|assumption].
  exact HQ.
Qed.

Lemma keyword_weave l prev :
  blocks (solid mode) l ->
  exists l', walk (keyword_rule mode) prev (flat l) = flat l' /\
             Extends l l' /\ blocks (solid mode) l'.
Proof.
  apply block_step.
  - apply wrapper_solid.
  - apply keyword_proper.
  - intros b (_ & Hq). apply quiet_inert_keyword. assumption.
  - apply keyword_weave_hit. apply solid_guarded.
Qed.

Lemma node_weave l prev :
  blocks (firm mode) l ->
  exists l', walk (node_rule mode) prev (flat l) = flat l' /\
             Extends l l' /\ blocks (firm mode) l'.
Proof.
  apply block_step.
  - apply wrapper_firm.
  - apply node_proper.
  - intros b (_ & _ & Hi). assumption.
  - apply node_weave_hit. apply firm_guarded.
Qed.

Lemma arrow_weave l prev :
  blocks (firm mode) l ->
  exists l', walk (arrow_rule mode) prev (flat l) = flat l' /\
             Extends l l' /\ blocks (firm mode) l'.
Proof.
  apply block_step.
  - apply wrapper_firm.
  - apply arrow_proper.
  - intros b (_ & Hq & _). apply calm_inert_arrow. assumption.
  - apply arrow_weave_hit. apply firm_guarded.
Qed.

(** The node and arrow steps together *)
Lemma tail_weave l :
  blocks (firm mode) l ->
  exists l', arrow_step mode (node_step mode (flat l)) = flat l' /\ Extends l l'.
Proof.
  intro Hb. unfold arrow_step, node_step, replace_all.
  destruct (node_weave None Hb) as (l2 & -> & H2 & Hb2).
  destruct (arrow_weave None Hb2) as (l3 & -> & H3 & _).
  exists l3. split; [reflexivity|].
  eapply Extends_trans; eassumption.
Qed.

(** The keyword, node and arrow steps together *)
Lemma coloring_weave l :
  blocks (solid mode) l ->
  exists l', arrow_step mode (node_step mode (keyword_step mode (flat l))) = flat l' /\
             Extends l l'.
Proof.
  intro Hb. unfold keyword_step, replace_all.
  destruct (keyword_weave None Hb) as (l1 & -> & H1 & Hb1).
  assert (Hf1 : blocks (firm mode) l1).
  { eapply Forall_impl; [|exact Hb1]. intros [c|b]; [auto|apply solid_firm]. }
  destruct (tail_weave Hf1) as (l3 & -> & H3).
  exists l3. split; [reflexivity|].
  eapply Extends_trans; eassumption.
Qed.

Lemma hex_weave s :
  exists l', hex_step mode s = flat l' /\ Extends (map Ch s) l' /\
             blocks (solid mode) l'.
Proof.
  unfold hex_step, replace_all.
  destruct (@weave (hex_rule mode) (fun _ => False) (hex_proper mode))
    with (l := map Ch s) (prev := @None N) as (l' & E & Hext).
  - intros b [].
  - apply hex_weave_hit. intros b [].
  - apply blocks_Ch.
  - rewrite flat_Ch in E. exists l'. repeat split; auto.
    eapply Extends_blocks; [apply wrapper_solid|eassumption|apply blocks_Ch].
Qed.

(** The coloured line is the escaped line with wrappers inserted. *)
Lemma coloredLine_Decorated line :
  Decorated (escape_step line) (coloredLine mode line).
Proof.
  unfold coloredLine.
  destruct (hex_weave (escape_step line)) as (l1 & -> & H1 & Hb1).
  destruct (coloring_weave Hb1) as (l2 & -> & H2).
  assert (Hext : Extends (map Ch (escape_step line)) l2)
    by (eapply Extends_trans; eassumption).
  rewrite <- (chars_Ch (escape_step line)) at 1.
  rewrite <- (Extends_chars Hext).
  apply blocks_Decorated.
  eapply Extends_blocks; [|exact Hext|apply blocks_Ch]. auto.
Qed.

End Steps.
(** *** Lines of a document *)

Lemma split_lines_cons s : exists l ls, split_lines s = l :: ls.
Proof.
  pose proof (split_lines_length s) as H.
  destruct (split_lines s) as [|l ls]; [discriminate H|]. eauto.
Qed.

Lemma join_split s : join_lines (split_lines s) = s.
Proof.
  induction s as [|c s IH]; [reflexivity|].
  cbn [split_lines]. destruct (split_lines_cons s) as (l & ls & E).
  rewrite E in IH |- *. cbn [join_lines] in IH.
  destruct (N.eqb_spec c newline) as [->|Hc].
  - cbn [join_lines app flat_map]. rewrite IH. reflexivity.
  - cbn [join_lines app]. rewrite IH. reflexivity.
Qed.

Lemma or_nbsp_colored mode c line :
  or_nbsp (coloredLine mode (c :: line)) = coloredLine mode (c :: line).
Proof.
  pose proof (coloredLine_length mode (c :: line)) as H.
  destruct (coloredLine mode (c :: line)); [simpl in H; lia|reflexivity].
Qed.

Lemma starts_with_tag_before_newline a R :
  a <> [] -> starts_with br_tag (a ++ newline :: R) = starts_with br_tag a.
Proof.
  intros Ha. unfold br_tag, newline.
  destruct a as [|a1 [|a2 [|a3 [|a4 [|a5 a]]]]]; [congruence|..];
    cbn [starts_with app]; eqb_cases; reflexivity.
Qed.

Lemma escape_step_app_newline a b :
  escape_step (a ++ newline :: b) = escape_step a ++ newline :: escape_step b.
Proof.
  unfold escape_step, replace_all.
  rewrite walk_app; [|apply escape_proper|].
  - f_equal. rewrite replace_miss.
    + f_equal. apply escape_walk_prev.
    + rewrite escape_rule_spec. reflexivity.
  - intros prev a' Ha. rewrite !escape_rule_spec. unfold escape_at.
    rewrite starts_with_tag_before_newline by assumption. reflexivity.
Qed.

Lemma escape_join ls :
  escape_step (join_lines ls) = join_lines (map escape_step ls).
Proof.
  destruct ls as [|l ls]; [reflexivity|]. revert l.
  induction ls as [|l2 ls IH]; intros l.
  - cbn. rewrite !app_nil_r. reflexivity.
  - cbn [join_lines map flat_map] in IH |- *. cbn [app].
    rewrite escape_step_app_newline, IH. reflexivity.
Qed.
(** *** No wrapper brings [<br/>] back *)

Lemma wrapper_shape w :
  wrapper w -> exists c w', w = 60%N :: c :: w' /\ c <> 98%N /\ ~ In 60%N (c :: w').
Proof.
  intros [t Ht|].
  - pose proof (hex_token_no_lt Ht) as Hno.
    unfold span_open, dquote. norm_lit. cbn [app].
    eexists _, _. split; [reflexivity|]. split; [discriminate|].
    cbn [In]. intro Hin.
    repeat (destruct Hin as [Hin|Hin]; [discriminate Hin|]).
    apply in_app_or in Hin. destruct Hin as [Hin|Hin]; [contradiction|].
    cbn [In] in Hin.
    repeat (destruct Hin as [Hin|Hin]; [discriminate Hin|]). exact Hin.
  - unfold span_close. norm_lit.
    eexists _, _. split; [reflexivity|]. split; [discriminate|].
    cbn [In]. intro Hin.
    repeat (destruct Hin as [Hin|Hin]; [discriminate Hin|]). exact Hin.
Qed.

Lemma starts_with_tag_other c s : c <> 60%N -> starts_with br_tag (c :: s) = false.
Proof.
  intro H. unfold br_tag. cbn [starts_with].
  destruct (N.eqb_spec 60 c); [congruence|reflexivity].
Qed.

Lemma contains_tag_skip w x :
  ~ In 60%N w -> contains br_tag (w ++ x) = contains br_tag x.
Proof.
  induction w as [|c w IH]; intro H; [reflexivity|].
  cbn [app]. rewrite contains_cons, starts_with_tag_other.
  - apply IH. intro Hin. apply H. right. exact Hin.
  - intros ->. apply H. left. reflexivity.
Qed.

Lemma contains_tag_wrapper w x :
  wrapper w -> contains br_tag (w ++ x) = contains br_tag x.
Proof.
  intro Hw. destruct (wrapper_shape Hw) as (c & w' & -> & Hc & Hno).
  cbn [app]. rewrite contains_cons.
  replace (starts_with br_tag (60%N :: c :: w' ++ x)) with false.
  - apply (@contains_tag_skip (c :: w') x Hno).
  - unfold br_tag. cbn [starts_with].
    destruct (N.eqb_spec 98 c); [congruence|reflexivity].
Qed.

Lemma Decorated_prefix a b :
  Decorated a b ->
  forall q, ~ In 60%N q -> starts_with q b = true -> starts_with q a = true.
Proof.
  induction 1 as [|c a b H IH|w a b Hw H IH]; intros q Hq E.
  - destruct q; [reflexivity|discriminate E].
  - destruct q as [|d q]; [reflexivity|].
    cbn [starts_with] in E |- *. apply andb_prop in E. destruct E as [E1 E2].
    rewrite E1. apply IH; [|exact E2].
    intro Hin. apply Hq. right. exact Hin.
  - destruct q as [|d q]; [reflexivity|]. exfalso.
    destruct (wrapper_shape Hw) as (c & w' & -> & _).
    cbn [app starts_with] in E. apply andb_prop in E. destruct E as [E1 _].
    apply N.eqb_eq in E1. apply Hq. left. exact E1.
Qed.

Lemma Decorated_no_tag a b :
  Decorated a b -> contains br_tag a = false -> contains br_tag b = false.
Proof.
  induction 1 as [|c a b H IH|w a b Hw H IH]; intro Ha.
  - reflexivity.
  - apply contains_false_cons in Ha. destruct Ha as [Hs Hc].
    rewrite contains_cons, (IH Hc), orb_false_r.
    destruct (starts_with br_tag (c :: b)) eqn:E; [|reflexivity].
    unfold br_tag in E, Hs. cbn [starts_with] in E, Hs.
    apply andb_prop in E. destruct E as [E1 E2]. rewrite E1 in Hs.
    assert (E3 : starts_with [98; 114; 47; 62]%N a = true).
    { apply (Decorated_prefix H); [|exact E2].
      cbn [In]. intros [Hin|[Hin|[Hin|[Hin|[]]]]]; discriminate Hin. }
    cbn [andb] in Hs.
    change (starts_with [98; 114; 47; 62]%N a = false) in Hs.
    rewrite E3 in Hs. discriminate Hs.
  - rewrite contains_tag_wrapper by assumption. apply IH. assumption.
Qed.


(** *** A hex token through the steps *)

Lemma walk_prev_indep (f : rule) :
  proper f ->
  (forall p p' s, f p s = f p' s) ->
  forall s p p', walk f p s = walk f p' s.
Proof.
  intros Hf Hind s p. revert p s.
  apply (walk_ind (fun p s o => forall p', o = walk f p' s) Hf).
  - intros p p'. rewrite replace_nil by assumption. reflexivity.
  - intros p c s E IH p'. rewrite (Hind p p') in E.
    rewrite replace_miss by assumption. reflexivity.
  - intros p s rep n E IH p'. rewrite (Hind p p') in E.
    rewrite (@replace_hit _ _ _ _ _ Hf E). f_equal. apply IH.
Qed.

Lemma hex_walk_prev mode s p p' :
  walk (hex_rule mode) p s = walk (hex_rule mode) p' s.
Proof.
  apply walk_prev_indep; [apply hex_proper|].
  intros. rewrite !hex_rule_spec. reflexivity.
Qed.

Lemma starts_with_tag_before_hash a R :
  a <> [] -> starts_with br_tag (a ++ 35%N :: R) = starts_with br_tag a.
Proof.
  intros Ha. unfold br_tag.
  destruct a as [|a1 [|a2 [|a3 [|a4 [|a5 a]]]]]; [congruence|..];
    cbn [starts_with app]; eqb_cases; reflexivity.
Qed.

Lemma escape_step_token x t y :
  hex_token t ->
  escape_step (x ++ t ++ y) = escape_step x ++ t ++ escape_step y.
Proof.
  intro Ht. unfold escape_step, replace_all.
  rewrite walk_app; [|apply escape_proper|].
  - f_equal. rewrite walk_copy.
    + f_equal. apply escape_walk_prev.
    + intros c prev s Hin. rewrite escape_rule_spec. unfold escape_at.
      rewrite starts_with_tag_other; [reflexivity|].
      intros ->. exact (hex_token_no_lt Ht Hin).
  - intros prev a Ha. rewrite !escape_rule_spec. unfold escape_at.
    destruct Ht as (h & -> & _). cbn [app].
    rewrite starts_with_tag_before_hash by assumption. reflexivity.
Qed.

Lemma hex_at_before_hash a R :
  a <> [] -> hex_at (a ++ 35%N :: R) = hex_at a.
Proof.
  intros Ha.
  destruct a as [|a1 [|a2 [|a3 [|a4 [|a5 [|a6 [|a7 a]]]]]]];
    [congruence|..]; cbn [app hex_at forallb];
    try reflexivity;
    change (is_hex 35) with false;
    rewrite ?andb_false_r; cbn [andb];
    try reflexivity;
    destruct R as [|r1 [|r2 [|r3 [|r4 [|r5 [|r6 R]]]]]]; cbn [forallb];
    rewrite ?andb_false_r; reflexivity.
Qed.

Lemma hex_step_token mode x t y :
  hex_token t ->
  hex_step mode (x ++ t ++ y) = hex_step mode x ++ span t t ++ hex_step mode y.
Proof.
  intro Ht. unfold hex_step, replace_all.
  rewrite walk_app; [|apply hex_proper|].
  - f_equal.
    assert (E : hex_rule mode (last_of None x) (t ++ y) = Some (span t t, 7)).
    { rewrite hex_rule_spec, (hex_at_token y Ht). reflexivity. }
    rewrite (@replace_hit _ _ _ _ _ (hex_proper mode) E).
    rewrite skipn_app_le by (rewrite (hex_token_length Ht); lia).
    rewrite <- (hex_token_length Ht), skipn_all. cbn [app].
    f_equal. apply hex_walk_prev.
  - intros prev a Ha. rewrite !hex_rule_spec.
    destruct Ht as (h & -> & _). cbn [app].
    rewrite hex_at_before_hash by assumption. reflexivity.
Qed.

(** A block of the old line and what stands before and after it. *)
Lemma Extends_split l1 b l2 l' :
  Extends (l1 ++ Blk b :: l2) l' ->
  exists l1' l2', l' = l1' ++ Blk b :: l2' /\ Extends l1 l1' /\ Extends l2 l2'.
Proof.
  intro H. remember (l1 ++ Blk b :: l2) as l eqn:El. revert l1 El.
  induction H as [|i l l' H IH|w l l' Hw H IH]; intros l1 El.
  - destruct l1; discriminate El.
  - destruct l1 as [|j l1]; cbn [app] in El; injection El as -> ->.
    + exists [], l'. repeat split; [constructor|exact H].
    + destruct (IH l1 eq_refl) as (l1' & l2' & -> & H1 & H2).
      exists (j :: l1'), l2'. repeat split; [constructor; exact H1|exact H2].
  - destruct (IH l1 El) as (l1' & l2' & -> & H1 & H2).
    exists (Blk w :: l1'), l2'. repeat split; [constructor; assumption|exact H2].
Qed.

Lemma Extends_Decorated s l :
  Extends (map Ch s) l -> Decorated s (flat l).
Proof.
  intro H. rewrite <- (chars_Ch s) at 1. rewrite <- (Extends_chars H).
  apply blocks_Decorated.
  eapply Extends_blocks; [|exact H|apply blocks_Ch]. auto.
Qed.


(** *** Counting arrows *)

Lemma starts_with_before p d :
  ~ In d p ->
  forall a b, starts_with p (a ++ d :: b) = starts_with p a.
Proof.
  induction p as [|c p IH]; intros Hd a b; [destruct a; reflexivity|].
  destruct a as [|x a]; cbn [app starts_with].
  - destruct (N.eqb_spec c d) as [->|_]; [|reflexivity].
    exfalso. apply Hd. left. reflexivity.
  - rewrite IH; [reflexivity|]. intro Hin. apply Hd. right. exact Hin.
Qed.

Lemma starts_with_long p : forall a b,
  length p <= length a -> starts_with p (a ++ b) = starts_with p a.
Proof.
  induction p as [|c p IH]; intros a b H; [destruct a; reflexivity|].
  destruct a as [|x a]; [simpl in H; lia|]. cbn [app starts_with].
  rewrite IH; [reflexivity|]. simpl in H. lia.
Qed.

Lemma occurrences_cons p c s :
  occurrences p (c :: s) =
  (if starts_with p (c :: s) then 1 else 0) + occurrences p s.
Proof. reflexivity. Qed.

Lemma starts_with_arrow_other c s : c <> 45%N -> starts_with arrow (c :: s) = false.
Proof.
  intro H. unfold arrow. cbn [starts_with].
  destruct (N.eqb_spec 45 c); [congruence|reflexivity].
Qed.

(** A text without [-] holds no arrow and starts none. *)
Lemma occurrences_arrow_skip a b :
  ~ In 45%N a -> occurrences arrow (a ++ b) = occurrences arrow b.
Proof.
  induction a as [|c a IH]; intro H; [reflexivity|].
  cbn [app]. rewrite occurrences_cons, starts_with_arrow_other.
  - apply IH. intro Hin. apply H. right. exact Hin.
  - intros ->. apply H. left. reflexivity.
Qed.

(** No arrow lies across the end of a text that does not end with [-]. *)
Lemma occurrences_arrow_app a z b :
  z <> 45%N ->
  occurrences arrow ((a ++ [z]) ++ b) =
  occurrences arrow (a ++ [z]) + occurrences arrow b.
Proof.
  intro Hz. induction a as [|c a IH].
  - cbn [app]. rewrite !occurrences_cons, !starts_with_arrow_other by assumption.
    reflexivity.
  - cbn [app]. rewrite !occurrences_cons. cbn [app] in IH. rewrite IH.
    replace (starts_with arrow (c :: (a ++ [z]) ++ b))
      with (starts_with arrow (c :: a ++ [z])); [lia|].
    destruct a as [|d a].
    + unfold arrow. cbn [app starts_with].
      destruct (N.eqb_spec 45 z); [congruence|].
      rewrite !andb_false_r. cbn [andb]. destruct (45 =? c)%N; reflexivity.
    + symmetry. apply (starts_with_long arrow (c :: (d :: a) ++ [z]) b).
      cbn [length]. rewrite length_app. cbn [length]. unfold arrow. simpl. lia.
Qed.

(** What the result of a walk starts with, when neither a match nor a
    replacement can begin with a character of [q]. *)
Lemma walk_prefix_eq (f : rule) (q : list N) :
  proper f ->
  (forall prev s rep n, f prev s = Some (rep, n) ->
     exists a rep' b s', rep = a :: rep' /\ s = b :: s' /\
                         ~ In a q /\ ~ In b q) ->
  forall prev s, starts_with q (walk f prev s) = starts_with q s.
Proof.
  intros Hf Hrep. induction q as [|c q IH]; intros prev s; [reflexivity|].
  destruct s as [|d s].
  - rewrite replace_nil by assumption. reflexivity.
  - destruct (f prev (d :: s)) as [[rep n]|] eqn:E.
    + rewrite (@replace_hit _ _ _ _ _ Hf E).
      destruct (Hrep _ _ _ _ E) as (a & rep' & b & s' & -> & Es & Ha & Hb).
      injection Es as <- <-.
      cbn [app starts_with].
      destruct (N.eqb_spec c a) as [->|_];
        [exfalso; apply Ha; left; reflexivity|].
      destruct (N.eqb_spec c d) as [->|_];
        [exfalso; apply Hb; left; reflexivity|].
      reflexivity.
    + rewrite replace_miss by assumption. cbn [starts_with].
      rewrite IH; [reflexivity|].
      intros prev0 s0 rep n E0.
      destruct (Hrep _ _ _ _ E0) as (a & rep' & b & s' & -> & -> & Ha & Hb).
      exists a, rep', b, s'. repeat split; auto;
        intro Hin; [apply Ha|apply Hb]; right; exact Hin.
Qed.

(** The walk of a rule keeps the number of arrows when every replacement
    holds as many arrows as the text it replaces, and no arrow is made or
    broken where the walk copies a character. *)
Lemma walk_arrows (f : rule) :
  proper f ->
  (forall prev c s, f prev (c :: s) = None ->
     starts_with arrow (c :: walk f (Some c) s) = starts_with arrow (c :: s)) ->
  (forall prev s rep n, f prev s = Some (rep, n) ->
     exists k, (forall o, occurrences arrow (rep ++ o) = k + occurrences arrow o) /\
               occurrences arrow s = k + occurrences arrow (skipn n s)) ->
  forall prev s, occurrences arrow (walk f prev s) = occurrences arrow s.
Proof.
  intros Hf Hmiss Hhit.
  apply (walk_ind (fun _ s o => occurrences arrow o = occurrences arrow s) Hf).
  - intros _. reflexivity.
  - intros prev c s E IH. rewrite !occurrences_cons, IH, (Hmiss _ _ _ E).
    reflexivity.
  - intros prev s rep n E IH. destruct (Hhit _ _ _ _ E) as (k & Hk1 & Hk2).
    rewrite Hk1, Hk2, IH. reflexivity.
Qed.

(** For the first four steps: neither a match nor a replacement begins
    with [-] or [>]. *)
Lemma walk_arrows_quiet (f : rule) :
  proper f ->
  (forall prev s rep n, f prev s = Some (rep, n) ->
     exists a rep' b s', rep = a :: rep' /\ s = b :: s' /\
                         ~ In a [45; 62]%N /\ ~ In b [45; 62]%N) ->
  (forall prev s rep n, f prev s = Some (rep, n) ->
     exists k, (forall o, occurrences arrow (rep ++ o) = k + occurrences arrow o) /\
               occurrences arrow s = k + occurrences arrow (skipn n s)) ->
  forall prev s, occurrences arrow (walk f prev s) = occurrences arrow s.
Proof.
  intros Hf Hhead Hhit. apply walk_arrows; [assumption| |assumption].
  intros prev c s E. unfold arrow. cbn [starts_with].
  change (match walk f (Some c) s with
          | [] => false
          | b :: s' => (45 =? b)%N &&
                       match s' with
                       | [] => false
                       | b0 :: _ => (62 =? b0)%N && true
                       end
          end) with (starts_with [45; 62]%N (walk f (Some c) s)).
  rewrite (@walk_prefix_eq f [45; 62]%N Hf Hhead). reflexivity.
Qed.
Lemma quiet_no_dash a : Forall (fun c => quiet c = true) a -> ~ In 45%N a.
Proof.
  intros H Hin. rewrite Forall_forall in H. apply H in Hin. discriminate Hin.
Qed.

Lemma span_no_dash col m :
  hex_token col -> ~ In 45%N m -> ~ In 45%N (span col m).
Proof.
  intros Hc Hm Hin. unfold span in Hin.
  apply in_app_or in Hin. destruct Hin as [Hin|Hin].
  - exact (quiet_no_dash (span_open_quiet Hc) Hin).
  - apply in_app_or in Hin. destruct Hin as [Hin|Hin]; [contradiction|].
    exact (quiet_no_dash span_close_quiet Hin).
Qed.

Lemma span_head col m : exists rep', span col m = 60%N :: rep'.
Proof. eexists. unfold span, span_open. norm_lit. reflexivity. Qed.

Lemma not_in_pair a : a <> 45%N -> a <> 62%N -> ~ In a [45; 62]%N.
Proof. intros H1 H2 [H|[H|[]]]; congruence. Qed.

Lemma letter_not_dash c : is_letter c = true -> c <> 45%N /\ c <> 62%N.
Proof. intro H. split; intros ->; discriminate H. Qed.

Lemma alnum_no_dash name :
  Forall (fun c => is_alnum c = true) name -> ~ In 45%N name.
Proof.
  intros H Hin. rewrite Forall_forall in H. apply H in Hin. discriminate Hin.
Qed.

(** A match on a text without [-], replaced by a span around it *)
Lemma simple_arrows col m r rep s n :
  hex_token col -> ~ In 45%N m -> rep = span col m -> s = m ++ r ->
  n = length m ->
  exists k, (forall o, occurrences arrow (rep ++ o) = k + occurrences arrow o) /\
            occurrences arrow s = k + occurrences arrow (skipn n s).
Proof.
  intros Hc Hm -> -> ->. exists 0. split.
  - intro o. apply occurrences_arrow_skip. apply span_no_dash; assumption.
  - rewrite skipn_app_le, skipn_all by lia. cbn [app plus].
    apply occurrences_arrow_skip. assumption.
Qed.

Lemma escape_arrows prev s :
  occurrences arrow (walk escape_rule prev s) = occurrences arrow s.
Proof.
  apply walk_arrows_quiet; [apply escape_proper| |].
  - intros p s0 rep n H. apply escape_hit in H. destruct H as (r & -> & -> & _).
    unfold escaped_br, br_tag. cbn [app].
    eexists _, _, _, _. split; [reflexivity|]. split; [reflexivity|].
    split; apply not_in_pair; discriminate.
  - intros p s0 rep n H. apply escape_hit in H. destruct H as (r & -> & -> & ->).
    exists 0. split.
    + intro o. apply occurrences_arrow_skip. unfold escaped_br. cbn [In].
      intro Hin. repeat (destruct Hin as [Hin|Hin]; [discriminate Hin|]).
      exact Hin.
    + reflexivity.
Qed.

Lemma hex_arrows mode prev s :
  occurrences arrow (walk (hex_rule mode) prev s) = occurrences arrow s.
Proof.
  apply walk_arrows_quiet; [apply hex_proper| |].
  - intros p s0 rep n H. apply hex_hit in H.
    destruct H as (t & r & -> & Ht & -> & _).
    destruct (span_head t t) as [rep' ->].
    destruct Ht as (h & -> & _). cbn [app].
    eexists _, _, _, _. split; [reflexivity|]. split; [reflexivity|].
    split; apply not_in_pair; discriminate.
  - intros p s0 rep n H. apply hex_hit in H.
    destruct H as (t & r & Es & Ht & Er & En).
    apply (@simple_arrows t t r rep s0 n); auto.
    + apply quiet_no_dash. apply hex_token_quiet. assumption.
    + rewrite (hex_token_length Ht). assumption.
Qed.

Lemma keyword_head kw :
  In kw keywords -> exists b kw', kw = b :: kw' /\ b <> 45%N /\ b <> 62%N /\
                                  ~ In 45%N kw.
Proof.
  unfold keywords. cbn [In].
  intros [<-|[<-|[<-|[<-|[<-|[]]]]]]; eexists _, _;
    (split; [reflexivity|]); (split; [discriminate|]);
    (split; [discriminate|]); cbn [In]; intro Hin;
    repeat (destruct Hin as [Hin|Hin]; [discriminate Hin|]); exact Hin.
Qed.

Lemma keyword_arrows mode prev s :
  occurrences arrow (walk (keyword_rule mode) prev s) = occurrences arrow s.
Proof.
  apply walk_arrows_quiet; [apply keyword_proper| |].
  - intros p s0 rep n H. apply keyword_hit in H.
    destruct H as (kw & r & -> & Hin & -> & _).
    destruct (span_head (keyword (getColors mode)) kw) as [rep' ->].
    destruct (@keyword_head _ Hin) as (b & kw' & -> & Hb1 & Hb2 & _). cbn [app].
    eexists _, _, _, _. split; [reflexivity|]. split; [reflexivity|].
    split; apply not_in_pair; auto; discriminate.
  - intros p s0 rep n H. apply keyword_hit in H.
    destruct H as (kw & r & Es & Hin & Er & En & _).
    destruct (@keyword_head _ Hin) as (_ & _ & _ & _ & _ & Hno).
    apply (@simple_arrows (keyword (getColors mode)) kw r rep s0 n); auto.
    apply color_token.
Qed.

Lemma shape_last sh :
  shape sh -> exists a z, sh = a ++ [z] /\ z <> 45%N.
Proof.
  intros (body & [[-> _]|[-> _]] & _).
  - exists (40%N :: body), 41%N. split; [reflexivity|discriminate].
  - exists (91%N :: body), 93%N. split; [reflexivity|discriminate].
Qed.

Lemma node_arrows mode prev s :
  occurrences arrow (walk (node_rule mode) prev s) = occurrences arrow s.
Proof.
  apply walk_arrows_quiet; [apply node_proper| |].
  - intros p s0 rep n H. apply node_hit_inv in H.
    destruct H as [(c & r & -> & Hl & _ & _ & -> & _)
                  |(c & name & sh & r & -> & Hl & _ & _ & -> & _)].
    + destruct (span_head (node (getColors mode)) [c]) as [rep' ->].
      destruct (@letter_not_dash _ Hl).
      eexists _, _, _, _. split; [reflexivity|]. split; [reflexivity|].
      split; apply not_in_pair; auto; discriminate.
    + destruct (span_head (node (getColors mode)) (c :: name)) as [rep' ->].
      destruct (@letter_not_dash _ Hl). cbn [app].
      eexists _, _, _, _. split; [reflexivity|]. split; [reflexivity|].
      split; apply not_in_pair; auto; discriminate.
  - intros p s0 rep n H. apply node_hit_inv in H.
    destruct H as [(c & r & Es & Hl & _ & _ & Er & En)
                  |(c & name & sh & r & -> & Hl & Hname & Hsh & -> & ->)].
    + apply (@simple_arrows (node (getColors mode)) [c] r rep s0 n); auto.
      * apply color_token.
      * intros [->|[]]. discriminate Hl.
    + assert (Hno : ~ In 45%N (c :: name)).
      { intros [->|Hin]; [discriminate Hl|].
        exact (alnum_no_dash Hname Hin). }
      destruct (shape_last Hsh) as (a & z & -> & Hz).
      exists (occurrences arrow (a ++ [z])). split.
      * intro o. rewrite <- app_assoc.
        rewrite (@occurrences_arrow_skip (span (node (getColors mode)) (c :: name)))
          by (apply span_no_dash; [apply color_token|assumption]).
        apply occurrences_arrow_app. assumption.
      * rewrite app_assoc, skipn_app_le, skipn_all by lia. cbn [app].
        change (c :: (name ++ a ++ [z]) ++ r)
          with (((c :: name) ++ a ++ [z]) ++ r).
        rewrite <- app_assoc, (@occurrences_arrow_skip (c :: name)) by assumption.
        apply occurrences_arrow_app. assumption.
Qed.
(** *** The arrow step *)

Lemma arrow_rule_none mode prev s :
  arrow_rule mode prev s = None <-> starts_with arrow s = false.
Proof.
  rewrite arrow_rule_spec. unfold arrow_at.
  destruct (starts_with arrow s); split; intro H; congruence.
Qed.

Lemma arrow_rep_head mode prev s rep n q :
  ~ In 60%N q ->
  arrow_rule mode prev s = Some (rep, n) ->
  exists a rep', rep = a :: rep' /\ ~ In a q.
Proof.
  intros Hq H. apply arrow_hit in H. destruct H as (r & _ & -> & _).
  destruct (span_head (operator (getColors mode)) arrow) as [rep' ->].
  exists 60%N, rep'. auto.
Qed.

(** Where the arrow step copies a character, no arrow begins in its
    result. *)
Lemma arrow_miss_no_arrow mode prev c s :
  arrow_rule mode prev (c :: s) = None ->
  starts_with arrow (c :: walk (arrow_rule mode) (Some c) s) = false.
Proof.
  intro E. apply arrow_rule_none in E.
  destruct (starts_with arrow (c :: walk (arrow_rule mode) (Some c) s)) eqn:Es;
    [|reflexivity].
  unfold arrow in Es, E. cbn [starts_with] in Es, E.
  apply andb_prop in Es. destruct Es as [E1 E2]. rewrite E1 in E.
  assert (E3 : starts_with [45; 62]%N s = true).
  { apply (@walk_prefix (arrow_rule mode) [45; 62]%N (arrow_proper mode))
      with (prev := Some c); [|exact E2].
    intros p s0 rep n H.
    apply (@arrow_rep_head mode p s0 rep n [45; 62]%N); [|exact H].
    cbn [In]. intros [Hin|[Hin|[]]]; discriminate Hin. }
  cbn [andb] in E. change (starts_with [45; 62]%N s = false) in E.
  rewrite E3 in E. discriminate E.
Qed.

Lemma arrow_in_span mode o :
  occurrences arrow (span (operator (getColors mode)) arrow ++ o) =
  1 + occurrences arrow o.
Proof. destruct mode; reflexivity. Qed.

Lemma span_in_span mode o :
  let P := span (operator (getColors mode)) arrow in
  occurrences P (P ++ o) = 1 + occurrences P o.
Proof. destruct mode; reflexivity. Qed.

Lemma arrow_step_arrows mode prev s :
  occurrences arrow (walk (arrow_rule mode) prev s) = occurrences arrow s.
Proof.
  apply walk_arrows; [apply arrow_proper| |].
  - intros p c s0 E. rewrite (@arrow_miss_no_arrow mode p c s0 E).
    apply arrow_rule_none in E. symmetry. exact E.
  - intros p s0 rep n H. apply arrow_hit in H. destruct H as (r & -> & -> & ->).
    exists 1. split; [apply arrow_in_span|reflexivity].
Qed.

Lemma starts_with_app_prefix x y : forall o,
  starts_with (x ++ y) o = true -> starts_with x o = true.
Proof.
  induction x as [|c x IH]; intros o H; [reflexivity|].
  destruct o as [|d o]; [discriminate H|].
  cbn [app starts_with] in H |- *. apply andb_prop in H. destruct H as [H1 H2].
  rewrite H1. apply IH. exact H2.
Qed.

(** The result of the arrow step never reads [q-->] for a text [q] without
    [<]: an arrow in it always follows a [<span ...>] tag. *)
Lemma arrow_walk_bare mode : forall q,
  ~ In 60%N q ->
  forall s prev,
    starts_with (q ++ arrow) (walk (arrow_rule mode) prev s) = false.
Proof.
  induction q as [|d q IH]; intros Hq s prev.
  - cbn [app]. destruct s as [|c s].
    + rewrite replace_nil by apply arrow_proper. reflexivity.
    + destruct (arrow_rule mode prev (c :: s)) as [[rep n]|] eqn:E.
      * rewrite (@replace_hit _ _ _ _ _ (arrow_proper mode) E).
        apply arrow_hit in E. destruct E as (r & _ & -> & _).
        destruct (span_head (operator (getColors mode)) arrow) as [rep' ->].
        reflexivity.
      * rewrite replace_miss by assumption. apply (@arrow_miss_no_arrow mode prev c s E).
  - cbn [app]. destruct s as [|c s].
    + rewrite replace_nil by apply arrow_proper. reflexivity.
    + destruct (arrow_rule mode prev (c :: s)) as [[rep n]|] eqn:E.
      * rewrite (@replace_hit _ _ _ _ _ (arrow_proper mode) E).
        apply arrow_hit in E. destruct E as (r & _ & -> & _).
        destruct (span_head (operator (getColors mode)) arrow) as [rep' ->].
        cbn [app starts_with]. destruct (N.eqb_spec d 60) as [->|_].
        -- exfalso. apply Hq. left. reflexivity.
        -- reflexivity.
      * rewrite replace_miss by assumption. cbn [starts_with].
        rewrite IH; [apply andb_false_r|].
        intro Hin. apply Hq. right. exact Hin.
Qed.

Lemma span_arrow_split mode :
  exists q, span (operator (getColors mode)) arrow = 60%N :: (q ++ arrow) ++ span_close /\
            ~ In 60%N q.
Proof.
  destruct mode; eexists; (split;
    [unfold span, span_open, span_close, dquote, arrow; norm_lit;
     cbn [getColors operator]; norm_lit; cbn [app];
     instantiate (1 := [_; _; _; _; _; _; _; _; _; _; _; _; _; _; _; _; _; _;
                        _; _; _; _; _; _; _; _; _; _]);
     reflexivity|]);
    cbn [In]; intro Hin;
    repeat (destruct Hin as [Hin|Hin]; [discriminate Hin|]); exact Hin.
Qed.

Lemma arrow_step_spans mode prev s :
  occurrences (span (operator (getColors mode)) arrow)
    (walk (arrow_rule mode) prev s) = occurrences arrow s.
Proof.
  revert prev s.
  apply (walk_ind
           (fun _ s o =>
              occurrences (span (operator (getColors mode)) arrow) o =
              occurrences arrow s) (arrow_proper mode)).
  - intros _. destruct mode; reflexivity.
  - intros prev c s E IH. rewrite !occurrences_cons, IH.
    pose proof (proj1 (arrow_rule_none _ _ _) E) as E'. rewrite E'.
    replace (starts_with (span (operator (getColors mode)) arrow)
               (c :: walk (arrow_rule mode) (Some c) s)) with false;
      [reflexivity|].
    symmetry. destruct (span_arrow_split mode) as (q & -> & Hq).
    cbn [starts_with].
    destruct (starts_with ((q ++ arrow) ++ span_close)
                (walk (arrow_rule mode) (Some c) s)) eqn:Es;
      [|apply andb_false_r].
    apply starts_with_app_prefix in Es.
    rewrite (@arrow_walk_bare mode q Hq) in Es. discriminate Es.
  - intros prev s rep n E IH. apply arrow_hit in E.
    destruct E as (r & -> & -> & ->).
    rewrite (span_in_span mode). cbv zeta.
    change (skipn 3 (arrow ++ r)) with r in IH |- *. rewrite IH.
    reflexivity.
Qed.

(** *** The arrow step, arrow by arrow *)

Lemma starts_with_arrow_before a R :
  a <> [] -> starts_with arrow (a ++ 45%N :: 45%N :: R) = starts_with arrow a.
Proof.
  intros Ha. unfold arrow.
  destruct a as [|a1 [|a2 [|a3 a]]]; [congruence|..];
    cbn [starts_with app]; eqb_cases; reflexivity.
Qed.

Lemma arrow_walk_prev mode s p p' :
  walk (arrow_rule mode) p s = walk (arrow_rule mode) p' s.
Proof.
  apply walk_prev_indep; [apply arrow_proper|].
  intros. rewrite !arrow_rule_spec. reflexivity.
Qed.

Lemma arrow_step_app mode a b :
  arrow_step mode (a ++ arrow ++ b) =
  arrow_step mode a ++ span (operator (getColors mode)) arrow ++ arrow_step mode b.
Proof.
  unfold arrow_step, replace_all.
  rewrite walk_app; [|apply arrow_proper|].
  - f_equal.
    assert (E : arrow_rule mode (last_of None a) (arrow ++ b) =
                Some (span (operator (getColors mode)) arrow, 3)).
    { rewrite arrow_rule_spec. unfold arrow_at.
      rewrite starts_with_refl. reflexivity. }
    rewrite (@replace_hit _ _ _ _ _ (arrow_proper mode) E). f_equal.
    apply arrow_walk_prev.
  - intros prev a' Ha. rewrite !arrow_rule_spec. unfold arrow_at.
    change (arrow ++ b) with (45%N :: 45%N :: ([62]%N ++ b)).
    rewrite starts_with_arrow_before by assumption. reflexivity.
Qed.

Lemma arrow_walk_free mode : forall s prev,
  contains arrow s = false -> walk (arrow_rule mode) prev s = s.
Proof.
  induction s as [|c s IH]; intros prev H.
  - apply replace_nil. apply arrow_proper.
  - cbn [contains] in H. apply orb_false_elim in H. destruct H as [H1 H2].
    rewrite replace_miss by (apply arrow_rule_none; exact H1).
    rewrite IH by assumption. reflexivity.
Qed.




(** *** The node step at one index *)

Lemma shape_body_body close body r :
  ~ In close body -> Forall (fun c => is_dot c = true) body ->
  shape_body close (body ++ close :: r) = Some (body ++ [close]).
Proof.
  intros Hn Hd. induction Hd as [|c body Hc Hd IH]; cbn [app shape_body].
  - rewrite N.eqb_refl. reflexivity.
  - destruct (N.eqb_spec close c) as [->|_].
    + exfalso. apply Hn. left. reflexivity.
    + rewrite Hc, IH; [reflexivity|]. intro Hin. apply Hn. right. exact Hin.
Qed.

Lemma shape_at_shape sh r : shape sh -> shape_at (sh ++ r) = Some sh.
Proof.
  intros (body & [[-> Hn]|[-> Hn]] & Hd); cbn [app shape_at];
    rewrite <- app_assoc; cbn [app].
  - rewrite N.eqb_refl, shape_body_body by assumption. reflexivity.
  - change (40 =? 91)%N with false. rewrite N.eqb_refl.
    rewrite shape_body_body by assumption. reflexivity.
Qed.

Lemma name_shape_name n sh r :
  Forall (fun c => is_alnum c = true) n -> shape sh ->
  name_shape (n ++ sh ++ r) = Some (n, sh).
Proof.
  intros Hn Hsh. induction Hn as [|c n Hc Hn IH]; cbn [app].
  - destruct (sh ++ r) eqn:E.
    + apply shape_length in Hsh. apply (f_equal (@length N)) in E.
      rewrite length_app in E. simpl in E. lia.
    + rewrite <- E. cbn [name_shape]. rewrite E at 1.
      cbn [name_shape]. rewrite <- E, shape_at_shape by assumption.
      reflexivity.
  - cbn [name_shape]. destruct (alnum_not_open _ Hc) as [H1 H2].
    rewrite shape_at_other by assumption. rewrite Hc, IH. reflexivity.
Qed.

Lemma node_walk_single mode prev c r :
  is_letter c = true ->
  is_word_opt prev = false -> is_word_opt (hd_error r) = false ->
  walk (node_rule mode) prev (c :: r) =
  span (node (getColors mode)) [c] ++ walk (node_rule mode) (Some c) r.
Proof.
  intros Hl Hp Hn.
  assert (E : node_rule mode prev (c :: r) =
              Some (span (node (getColors mode)) [c], 1)).
  { rewrite node_rule_spec. unfold node_at, boundary. rewrite Hl, Hp, Hn.
    cbn [is_word_opt]. rewrite (is_letter_word _ Hl). reflexivity. }
  rewrite (@replace_hit _ _ _ _ _ (node_proper mode) E). reflexivity.
Qed.

Lemma node_walk_shaped mode prev c d n sh r :
  is_letter c = true -> Forall (fun x => is_alnum x = true) (d :: n) ->
  shape sh ->
  walk (node_rule mode) prev ((c :: d :: n) ++ sh ++ r) =
  span (node (getColors mode)) (c :: d :: n) ++ sh ++
  walk (node_rule mode) (last_of prev ((c :: d :: n) ++ sh)) r.
Proof.
  intros Hl Hn Hsh.
  assert (E : node_rule mode prev ((c :: d :: n) ++ sh ++ r) =
              Some (span (node (getColors mode)) (c :: d :: n) ++ sh,
                    length ((c :: d :: n) ++ sh))).
  { rewrite node_rule_spec. unfold node_at, boundary. cbn [app hd_error].
    rewrite Hl. cbn [is_word_opt].
    inversion Hn as [|? ? Hd _]; subst.
    rewrite (is_letter_word _ Hl), (is_alnum_word _ Hd).
    cbn [xorb]. rewrite andb_false_r.
    change (d :: n ++ sh ++ r) with ((d :: n) ++ sh ++ r).
    rewrite name_shape_name by assumption. reflexivity. }
  rewrite (@replace_hit _ _ _ _ _ (node_proper mode) E).
  rewrite app_assoc, firstn_app_le, skipn_app_le, firstn_all, skipn_all by lia.
  cbn [app]. rewrite <- app_assoc. reflexivity.
Qed.
(** C3, as stated, fails: [TD] is a token of more than one character
    directly followed by a parenthesized shape, yet it is coloured as a
    keyword, not as a node, and the text of its shape is changed by the
    node step; the single-letter token [c] inside the shape of [ab] is not
    wrapped; and of the token [1a], directly followed by a shape, only the
    part that begins with a letter is wrapped. *)
Lemma C3_tokens_left_unwrapped :
  coloredLine light (lit "TD(x)") =
    span (keyword (getColors light)) (lit "TD") ++ lit "(" ++
    span (node (getColors light)) (lit "x") ++ lit ")" /\
  contains (span (node (getColors light)) (lit "TD"))
    (coloredLine light (lit "TD(x)")) = false /\
  coloredLine light (lit "ab(c)") =
    span (node (getColors light)) (lit "ab") ++ lit "(c)" /\
  contains (span (node (getColors light)) (lit "c"))
    (coloredLine light (lit "ab(c)")) = false /\
  coloredLine light (lit "1a(x)") =
    lit "1" ++ span (node (getColors light)) (lit "a") ++ lit "(x)" /\
  contains (span (node (getColors light)) (lit "1a"))
    (coloredLine light (lit "1a(x)")) = false.
Proof. repeat split; vm_compute; reflexivity. Qed.

(** C3, amended.  The node step, walking over the line as the keyword step
    leaves it: a letter with no word character directly before or after it
    is wrapped in the node span; a name of two or more letters and digits
    that begins with a letter after a non-word character and is directly
    followed by a shape has its name wrapped, the shape copied, and the
    walk resumes after the shape; every match of the step is of one of
    these two kinds (a letter between two boundaries, or a name and a
    shape); and in the example document the tokens [A] and [B] of line 2
    are wrapped as nodes.  The node span of a text [x] is the text
    [<span style="color: c">x</span>] with [c] the node colour of the
    palette. *)
Theorem C3_node_step (mode : PaletteMode) :
  (forall prev c r,
      is_letter c = true ->
      is_word_opt prev = false -> is_word_opt (hd_error r) = false ->
      walk (node_rule mode) prev (c :: r) =
      span (node (getColors mode)) [c] ++ walk (node_rule mode) (Some c) r) /\
  (forall prev c d n sh r,
      is_letter c = true -> Forall (fun x => is_alnum x = true) (d :: n) ->
      shape sh -> is_word_opt prev = false ->
      walk (node_rule mode) prev ((c :: d :: n) ++ sh ++ r) =
      span (node (getColors mode)) (c :: d :: n) ++ sh ++
      walk (node_rule mode) (last_of prev ((c :: d :: n) ++ sh)) r) /\
  (forall prev s rep k,
      node_rule mode prev s = Some (rep, k) ->
      (exists c r, s = c :: r /\ is_letter c = true /\
         is_word_opt prev = false /\ is_word_opt (hd_error r) = false /\
         rep = span (node (getColors mode)) [c] /\ k = 1) \/
      (exists c name sh r, s = (c :: name) ++ sh ++ r /\
         is_letter c = true /\ Forall (fun c => is_alnum c = true) name /\
         shape sh /\
         rep = span (node (getColors mode)) (c :: name) ++ sh /\
         k = length ((c :: name) ++ sh))) /\
  map html (highlightSyntax mode sample) =
    [ span (keyword (getColors mode)) (lit "graph") ++ lit " " ++
      span (keyword (getColors mode)) (lit "TD");
      span (node (getColors mode)) (lit "A") ++
      span (operator (getColors mode)) arrow ++
      span (node (getColors mode)) (lit "B") ] /\
  (forall x,
      span (node (getColors mode)) x =
      lit "<span style=" ++ dquote :: lit "color: " ++
      match mode with dark => lit "#4fa1e3" | light => lit "#64B5F6" end ++
      dquote :: lit ">" ++ x ++ lit "</span>").
Proof.
  split; [intros; apply node_walk_single; assumption|].
  split; [intros; apply node_walk_shaped; assumption|].
  split; [intros prev s rep k H; apply (node_hit_inv _ _ _ H)|].
  split; [destruct mode; vm_compute; reflexivity|].
  intro x. rewrite span_text. destruct mode; reflexivity.
Qed.

Lemma C3_witness :
  walk (node_rule light) None (lit "A-->B") =
    span (node (getColors light)) (lit "A") ++
    walk (node_rule light) (Some 65%N) (lit "-->B") /\
  walk (node_rule light) None (lit "ab(c) d") =
    span (node (getColors light)) (lit "ab") ++ lit "(c)" ++
    walk (node_rule light) (Some 41%N) (lit " d") /\
  ((exists c r, lit "A-->B" = c :: r /\ is_letter c = true /\
      is_word_opt None = false /\ is_word_opt (hd_error r) = false /\
      span (node (getColors light)) (lit "A") =
        span (node (getColors light)) [c] /\ 1 = 1) \/
   (exists c name sh r, lit "A-->B" = (c :: name) ++ sh ++ r /\
      is_letter c = true /\ Forall (fun c => is_alnum c = true) name /\
      shape sh /\
      span (node (getColors light)) (lit "A") =
        span (node (getColors light)) (c :: name) ++ sh /\
      1 = length ((c :: name) ++ sh))).
Proof.
  destruct (C3_node_step light) as (Ha & Hb & Hc & _).
  split; [|split].
  - apply (Ha None 65%N (lit "-->B")); reflexivity.
  - apply (Hb None 97%N 98%N [] (lit "(c)") (lit " d")).
    + reflexivity.
    + repeat constructor.
    + exists (lit "c"). split.
      * left. split; [reflexivity|]. cbn. intros [H|[]]. discriminate H.
      * repeat constructor.
    + reflexivity.
  - apply (Hc None (lit "A-->B")). reflexivity.
Defined.

(** *** A whole-word keyword through the steps *)

Lemma last_of_nonempty (a : list N) p q : a <> [] -> last_of p a = last_of q a.
Proof. destruct a as [|c a]; [congruence|]. intros _. reflexivity. Qed.

Lemma walk_app_when (f : rule) (R : list N) (P : list N -> Prop) :
  proper f ->
  (forall a n, P a -> n < length a -> P (skipn n a)) ->
  (forall prev a, a <> [] -> P a -> f prev (a ++ R) = f prev a) ->
  forall a prev,
    P a -> walk f prev (a ++ R) = walk f prev a ++ walk f (last_of prev a) R.
Proof.
  intros Hf Hsuf Hloc a.
  remember (length a) as k eqn:Hk. revert a Hk.
  induction k as [k IH] using lt_wf_ind. intros a Hk prev Ha.
  destruct a as [|c a].
  - rewrite replace_nil by assumption. reflexivity.
  - destruct (f prev (c :: a)) as [[rep n]|] eqn:E.
    + assert (E' : f prev ((c :: a) ++ R) = Some (rep, n))
        by (rewrite Hloc by (assumption || discriminate); exact E).
      pose proof (Hf _ _ _ _ E) as Hn.
      rewrite (@replace_hit _ _ _ _ _ Hf E), (@replace_hit _ _ _ _ _ Hf E').
      rewrite firstn_app_le, skipn_app_le by lia.
      destruct (Nat.eq_dec n (length (c :: a))) as [->|Hlt].
      * rewrite skipn_all, firstn_all. cbn [app].
        rewrite replace_nil by assumption. rewrite app_nil_r. reflexivity.
      * rewrite (IH (length (skipn n (c :: a)))); [| |reflexivity|].
        -- rewrite last_of_firstn_skipn, app_assoc. reflexivity.
        -- rewrite length_skipn. lia.
        -- apply Hsuf; [assumption|lia].
    + assert (E' : f prev ((c :: a) ++ R) = None)
        by (rewrite Hloc by (assumption || discriminate); exact E).
      rewrite replace_miss by assumption.
      cbn [app] in E' |- *. rewrite replace_miss by assumption.
      destruct a as [|d a].
      * cbn [app]. rewrite replace_nil by assumption. reflexivity.
      * rewrite (IH (length (d :: a))); [reflexivity| |reflexivity|].
        -- subst k. simpl. lia.
        -- apply (Hsuf (c :: d :: a) 1); [assumption|simpl; lia].
Qed.

(** The last and the first character of the result of a walk *)
Lemma walk_last_nonword (f : rule) :
  proper f ->
  (forall prev s rep n, f prev s = Some (rep, n) ->
     forall p, is_word_opt (last_of p rep) = false) ->
  forall prev s p,
    is_word_opt (last_of p s) = false ->
    is_word_opt (last_of p (walk f prev s)) = false.
Proof.
  intros Hf Hrep.
  apply (walk_ind
           (fun _ s o => forall p, is_word_opt (last_of p s) = false ->
                                   is_word_opt (last_of p o) = false) Hf).
  - intros _ p H. exact H.
  - intros prev c s E IH p H. rewrite last_of_cons in H |- *. apply IH. exact H.
  - intros prev s rep n E IH p H. rewrite last_of_app.
    pose proof (Hf _ _ _ _ E) as Hn.
    destruct (skipn n s) as [|d r] eqn:Er.
    + rewrite replace_nil by assumption. apply (Hrep _ _ _ _ E).
    + apply IH. rewrite <- (firstn_skipn n s), last_of_app, Er in H.
      exact H.
Qed.

Lemma walk_head_nonword (f : rule) :
  proper f ->
  (forall prev s rep n, f prev s = Some (rep, n) ->
     exists a rep', rep = a :: rep' /\ is_word a = false) ->
  forall prev s,
    is_word_opt (hd_error s) = false ->
    is_word_opt (hd_error (walk f prev s)) = false.
Proof.
  intros Hf Hrep prev s H. destruct s as [|c s].
  - rewrite replace_nil by assumption. reflexivity.
  - destruct (f prev (c :: s)) as [[rep n]|] eqn:E.
    + rewrite (@replace_hit _ _ _ _ _ Hf E).
      destruct (Hrep _ _ _ _ E) as (a & rep' & -> & Ha). exact Ha.
    + rewrite replace_miss by assumption. exact H.
Qed.

Lemma span_last col m p : is_word_opt (last_of p (span col m)) = false.
Proof.
  unfold span, span_close. rewrite !last_of_app. norm_lit. reflexivity.
Qed.

Lemma escape_last prev s p :
  is_word_opt (last_of p s) = false ->
  is_word_opt (last_of p (walk escape_rule prev s)) = false.
Proof.
  apply walk_last_nonword; [apply escape_proper|].
  intros prev0 s0 rep n H q. apply escape_hit in H.
  destruct H as (r & _ & -> & _). reflexivity.
Qed.

Lemma escape_head prev s :
  is_word_opt (hd_error s) = false ->
  is_word_opt (hd_error (walk escape_rule prev s)) = false.
Proof.
  apply walk_head_nonword; [apply escape_proper|].
  intros prev0 s0 rep n H. apply escape_hit in H.
  destruct H as (r & _ & -> & _). eexists _, _. split; reflexivity.
Qed.

Lemma hex_last mode prev s p :
  is_word_opt (last_of p s) = false ->
  is_word_opt (last_of p (walk (hex_rule mode) prev s)) = false.
Proof.
  apply walk_last_nonword; [apply hex_proper|].
  intros prev0 s0 rep n H q. apply hex_hit in H.
  destruct H as (t & r & _ & _ & -> & _). apply span_last.
Qed.

Lemma hex_head mode prev s :
  is_word_opt (hd_error s) = false ->
  is_word_opt (hd_error (walk (hex_rule mode) prev s)) = false.
Proof.
  apply walk_head_nonword; [apply hex_proper|].
  intros prev0 s0 rep n H. apply hex_hit in H.
  destruct H as (t & r & _ & _ & -> & _).
  destruct (span_head t t) as [rep' ->]. eexists _, _. split; reflexivity.
Qed.

Lemma keyword_chars kw :
  In kw keywords ->
  exists k0 kw', kw = k0 :: kw' /\ ~ In k0 br_tag /\ is_hex k0 = false /\
    ~ In 60%N kw /\ ~ In 35%N kw /\
    Forall (fun c => is_alnum c = true) kw /\ 2 <= length kw.
Proof.
  unfold keywords. cbn [In].
  intros [<-|[<-|[<-|[<-|[<-|[]]]]]]; eexists _, _;
    (split; [reflexivity|]);
    (split; [unfold br_tag; cbn [In]; intro Hin;
             repeat (destruct Hin as [Hin|Hin]; [discriminate Hin|]);
             exact Hin|]);
    (split; [reflexivity|]);
    (split; [cbn [In]; intro Hin;
             repeat (destruct Hin as [Hin|Hin]; [discriminate Hin|]);
             exact Hin|]);
    (split; [cbn [In]; intro Hin;
             repeat (destruct Hin as [Hin|Hin]; [discriminate Hin|]);
             exact Hin|]);
    (split; [repeat constructor|simpl; lia]).
Qed.

Lemma escape_step_keyword x kw y :
  In kw keywords ->
  escape_step (x ++ kw ++ y) = escape_step x ++ kw ++ escape_step y.
Proof.
  intro Hin. destruct (keyword_chars Hin) as (k0 & kw' & E & Hk0 & _ & Hlt & _).
  unfold escape_step, replace_all.
  rewrite walk_app; [|apply escape_proper|].
  - f_equal. rewrite walk_copy.
    + f_equal. apply escape_walk_prev.
    + intros c prev s Hc. rewrite escape_rule_spec. unfold escape_at.
      rewrite starts_with_tag_other; [reflexivity|].
      intros ->. exact (Hlt Hc).
  - intros prev a Ha. rewrite !escape_rule_spec. unfold escape_at.
    rewrite E. cbn [app]. rewrite (@starts_with_before br_tag k0 Hk0). reflexivity.
Qed.

Lemma hex_at_before d a R :
  is_hex d = false -> a <> [] -> hex_at (a ++ d :: R) = hex_at a.
Proof.
  intros Hd Ha.
  destruct a as [|a1 [|a2 [|a3 [|a4 [|a5 [|a6 [|a7 a]]]]]]];
    [congruence|..]; cbn [app hex_at forallb];
    try reflexivity;
    rewrite Hd;
    rewrite ?andb_false_r; cbn [andb];
    try reflexivity;
    destruct R as [|r1 [|r2 [|r3 [|r4 [|r5 [|r6 R]]]]]]; cbn [forallb];
    rewrite ?andb_false_r; reflexivity.
Qed.

Lemma hex_miss mode prev c s : c <> 35%N -> hex_rule mode prev (c :: s) = None.
Proof.
  intro Hc. destruct (hex_rule mode prev (c :: s)) as [[rep n]|] eqn:E;
    [|reflexivity].
  exfalso. apply hex_hit in E. destruct E as (t & r & E & (h & -> & _) & _).
  cbn [app] in E. injection E as E _. congruence.
Qed.

Lemma hex_step_keyword mode x kw y :
  In kw keywords ->
  hex_step mode (x ++ kw ++ y) = hex_step mode x ++ kw ++ hex_step mode y.
Proof.
  intro Hin.
  destruct (keyword_chars Hin) as (k0 & kw' & E & _ & Hk0 & _ & Hhash & _).
  unfold hex_step, replace_all.
  rewrite walk_app; [|apply hex_proper|].
  - f_equal. rewrite walk_copy.
    + f_equal. apply hex_walk_prev.
    + intros c prev s Hc. apply hex_miss. intros ->. exact (Hhash Hc).
  - intros prev a Ha. rewrite !hex_rule_spec.
    rewrite E. cbn [app]. rewrite (@hex_at_before k0 a _ Hk0 Ha). reflexivity.
Qed.
Lemma keyword_word kw :
  In kw keywords -> Forall (fun c => is_word c = true) kw.
Proof.
  intro Hin. destruct (keyword_chars Hin) as (_ & _ & _ & _ & _ & _ & _ & Ha & _).
  eapply Forall_impl; [|exact Ha]. apply is_alnum_word.
Qed.

Lemma last_of_word p (a : list N) :
  a <> [] -> Forall (fun c => is_word c = true) a ->
  is_word_opt (last_of p a) = true.
Proof.
  intros Ha Hw. revert p. induction Hw as [|c a Hc Hw IH]; [congruence|].
  intro p. rewrite last_of_cons. destruct a as [|d a]; [exact Hc|].
  apply IH. discriminate.
Qed.

Lemma Forall_firstn_N (P : N -> Prop) n : forall l,
  Forall P l -> Forall P (firstn n l).
Proof.
  induction n as [|n IH]; intros l H; [constructor|].
  destruct H as [|c l Hc Hl]; [constructor|].
  cbn [firstn]. constructor; [assumption|]. apply IH. assumption.
Qed.

Lemma starts_with_prefix_of p : forall a R,
  starts_with p (a ++ R) = true -> length a <= length p ->
  a = firstn (length a) p.
Proof.
  induction p as [|c p IH]; intros a R H Hl.
  - destruct a; [reflexivity|simpl in Hl; lia].
  - destruct a as [|d a]; [reflexivity|].
    cbn [app starts_with] in H. apply andb_prop in H. destruct H as [H1 H2].
    apply N.eqb_eq in H1. subst d. cbn [length firstn]. f_equal.
    apply (IH a R H2). simpl in Hl. lia.
Qed.

(** A keyword cannot cover the end of a text whose last character is not
    a word character. *)
Lemma keyword_not_across kw a R :
  In kw keywords -> a <> [] -> is_word_opt (last_of None a) = false ->
  length a <= length kw -> starts_with kw (a ++ R) = false.
Proof.
  intros Hin Ha Hlast Hl.
  destruct (starts_with kw (a ++ R)) eqn:E; [|reflexivity].
  exfalso. apply starts_with_prefix_of in E; [|assumption].
  assert (Hw : Forall (fun c => is_word c = true) a).
  { rewrite E. apply Forall_firstn_N. apply keyword_word. assumption. }
  rewrite (last_of_word None Ha Hw) in Hlast. discriminate Hlast.
Qed.

Lemma find_ext_in {A} (p q : A -> bool) l :
  (forall x, In x l -> p x = q x) -> find p l = find q l.
Proof.
  induction l as [|x l IH]; intro H; [reflexivity|].
  cbn [find]. rewrite (H x) by (left; reflexivity).
  destruct (q x); [reflexivity|]. apply IH.
  intros y Hy. apply H. right. exact Hy.
Qed.

Lemma hd_error_app (a R : list N) : a <> [] -> hd_error (a ++ R) = hd_error a.
Proof. destruct a; [congruence|reflexivity]. Qed.

Lemma keyword_at_local prev a R :
  a <> [] -> is_word_opt (last_of None a) = false ->
  keyword_at prev (a ++ R) = keyword_at prev a.
Proof.
  intros Ha Hlast. unfold keyword_at. rewrite (hd_error_app R Ha).
  destruct (boundary prev (hd_error a)); [|reflexivity].
  apply find_ext_in. intros kw Hin.
  destruct (Nat.lt_ge_cases (length kw) (length a)) as [Hlt|Hge].
  - rewrite starts_with_long by lia.
    rewrite skipn_app_le by lia.
    rewrite hd_error_app; [reflexivity|].
    intro E. apply (f_equal (@length N)) in E. rewrite length_skipn in E.
    simpl in E. lia.
  - rewrite (keyword_not_across R Hin Ha Hlast Hge).
    replace (starts_with kw a) with false; [reflexivity|].
    symmetry. rewrite <- (app_nil_r a).
    apply (keyword_not_across [] Hin Ha Hlast Hge).
Qed.

Lemma keyword_rule_at mode prev kw r :
  In kw keywords ->
  is_word_opt prev = false -> is_word_opt (hd_error r) = false ->
  keyword_rule mode prev (kw ++ r) =
  Some (span (keyword (getColors mode)) kw, length kw).
Proof.
  intros Hin Hp Hr. rewrite keyword_rule_spec.
  unfold keywords in Hin. cbn [In] in Hin.
  destruct Hin as [<-|[<-|[<-|[<-|[<-|[]]]]]];
    unfold keyword_at, boundary, keywords;
    cbn [app hd_error find starts_with length skipn last_of fold_left];
    rewrite Hp, Hr; cbn [is_word_opt];
    repeat match goal with
           | |- context [(?a =? ?b)%N] =>
               let v := eval vm_compute in (a =? b)%N in
               change (a =? b)%N with v
           | |- context [is_word ?c] =>
               let v := eval vm_compute in (is_word c) in
               change (is_word c) with v
           end;
    reflexivity.
Qed.

Lemma keyword_step_keyword mode x kw y :
  In kw keywords ->
  is_word_opt (last_of None x) = false -> is_word_opt (hd_error y) = false ->
  keyword_step mode (x ++ kw ++ y) =
  keyword_step mode x ++ span (keyword (getColors mode)) kw ++
  walk (keyword_rule mode) (last_of None (x ++ kw)) y.
Proof.
  intros Hin Hx Hy. unfold keyword_step, replace_all.
  rewrite (@walk_app_when (keyword_rule mode) (kw ++ y)
             (fun a => is_word_opt (last_of None a) = false)
             (keyword_proper mode)).
  - f_equal.
    rewrite (@replace_hit _ _ _ _ _ (keyword_proper mode)
               (keyword_rule_at mode (last_of None x) y Hin Hx Hy)).
    rewrite firstn_app_le, skipn_app_le, firstn_all, skipn_all by lia.
    cbn [app]. rewrite last_of_app. reflexivity.
  - intros a n Ha Hn. rewrite <- Ha.
    transitivity (is_word_opt (last_of (last_of None (firstn n a)) (skipn n a)));
      [|rewrite last_of_firstn_skipn; reflexivity].
    f_equal. apply last_of_nonempty.
    intro E. apply (f_equal (@length N)) in E. rewrite length_skipn in E.
    simpl in E. lia.
  - intros prev a Ha Hlast. rewrite !keyword_rule_spec.
    rewrite keyword_at_local by assumption. reflexivity.
  - exact Hx.
Qed.

Lemma node_inert_span_keyword mode kw :
  In kw keywords -> inert (node_rule mode) (span (keyword (getColors mode)) kw).
Proof.
  intros Hin prev r.
  destruct (keyword_chars Hin) as (_ & _ & _ & _ & _ & _ & _ & Ha & Hl).
  unfold span. rewrite <- !app_assoc.
  rewrite (node_inert_open mode (proj1 (color_token mode))).
  rewrite !last_of_app. f_equal.
  change (span_close ++ r) with (60%N :: (lit "/span>" ++ r)).
  rewrite node_walk_run; [|assumption|left; assumption|reflexivity|discriminate..].
  f_equal.
  change (60%N :: (lit "/span>" ++ r)) with (span_close ++ r).
  apply node_inert_close.
Qed.

Lemma keyword_calm kw :
  In kw keywords -> Forall (fun c => calm c = true) kw.
Proof.
  unfold keywords. cbn [In].
  intros [<-|[<-|[<-|[<-|[<-|[]]]]]]; repeat constructor.
Qed.

Lemma span_keyword_firm mode kw :
  In kw keywords -> firm mode (span (keyword (getColors mode)) kw).
Proof.
  intro Hin. split; [|split].
  - apply span_head.
  - unfold span. apply Forall_app. split.
    + apply quiet_all_calm. apply span_open_quiet. apply color_token.
    + apply Forall_app. split; [apply keyword_calm; assumption|].
      apply quiet_all_calm. apply span_close_quiet.
  - apply node_inert_span_keyword. assumption.
Qed.

(** A reserved keyword that stands as a whole word in the line is rendered
    inside a keyword span. *)
Lemma whole_word_keyword_wrapped mode x kw y :
  In kw keywords ->
  is_word_opt (last_of None x) = false -> is_word_opt (hd_error y) = false ->
  exists x' y',
    coloredLine mode (x ++ kw ++ y) =
    x' ++ span (keyword (getColors mode)) kw ++ y'.
Proof.
  intros Hin Hx Hy. unfold coloredLine.
  rewrite (escape_step_keyword x y Hin), (hex_step_keyword mode _ _ Hin).
  rewrite keyword_step_keyword; [|assumption|..].
  - set (kx := keyword_step mode (hex_step mode (escape_step x))).
    set (ky := walk (keyword_rule mode) _ _).
    assert (Hb : blocks (firm mode)
                   (map Ch kx ++ [Blk (span (keyword (getColors mode)) kw)] ++
                    map Ch ky)).
    { apply blocks_app. split; [apply blocks_Ch|].
      apply blocks_app. split; [|apply blocks_Ch].
      constructor; [|constructor]. apply span_keyword_firm. assumption. }
    destruct (tail_weave Hb) as (l' & E & Hext).
    rewrite !flat_app, !flat_Ch in E. cbn [flat flat_map] in E.
    rewrite app_nil_r in E. rewrite E.
    apply (@Extends_keeps_block _ _ (span (keyword (getColors mode)) kw) Hext).
    apply in_or_app. right. left. reflexivity.
  - unfold hex_step, escape_step, replace_all.
    apply hex_last. apply escape_last. exact Hx.
  - unfold hex_step, escape_step, replace_all.
    apply hex_head. apply escape_head. exact Hy.
Qed.

(** C4 fails on the code.  A reserved keyword that stands as a whole word
    in the line is rendered inside a keyword span, and the keyword pattern
    only matches between two word boundaries of the text it is run on, so
    that [graph] inside [subgraph] is left alone.  But that text holds the
    markup of the hex step: the keyword [TD] that directly follows a hex
    colour code is part of the longer word [AABBCCTD], yet it follows the
    [>] of a closing tag there and is wrapped as a keyword.  The span of a
    text [x] in a colour [c] is the text [<span style="color: c">x</span>],
    and the keyword colour is the one of the palette. *)
Theorem C4_keyword_after_hex_code (mode : PaletteMode) :
  (forall x kw y,
      In kw keywords ->
      is_word_opt (last_of None x) = false ->
      is_word_opt (hd_error y) = false ->
      exists x' y',
        coloredLine mode (x ++ kw ++ y) =
        x' ++ span (keyword (getColors mode)) kw ++ y') /\
  (forall prev s rep n,
      keyword_rule mode prev s = Some (rep, n) ->
      exists kw r, s = kw ++ r /\ In kw keywords /\
        rep = span (keyword (getColors mode)) kw /\ n = length kw /\
        is_word_opt prev = false /\ is_word_opt (hd_error r) = false) /\
  coloredLine mode (lit "subgraph") = lit "subgraph" /\
  is_word_opt (last_of None (lit "#AABBCC")) = true /\
  hex_step mode (escape_step (lit "#AABBCC" ++ lit "TD")) =
    span (lit "#AABBCC") (lit "#AABBCC") ++ lit "TD" /\
  coloredLine mode (lit "#AABBCC" ++ lit "TD") =
    span (lit "#AABBCC") (lit "#AABBCC") ++
    span (keyword (getColors mode)) (lit "TD") /\
  (forall c x,
      span c x =
      lit "<span style=" ++ dquote :: lit "color: " ++ c ++ dquote ::
      lit ">" ++ x ++ lit "</span>") /\
  keyword (getColors mode) =
    match mode with dark => lit "#B39DDB" | light => lit "#9575CD" end.
Proof.
  split; [intros x kw y; apply whole_word_keyword_wrapped|].
  split; [intros prev s rep n; apply keyword_hit|].
  split; [destruct mode; vm_compute; reflexivity|].
  split; [reflexivity|].
  split; [destruct mode; vm_compute; reflexivity|].
  split; [destruct mode; vm_compute; reflexivity|].
  split; [intros c x; apply span_text|].
  destruct mode; reflexivity.
Qed.

Lemma C4_witness :
  (exists x' y',
     coloredLine light (lit "graph TD") =
     x' ++ span (keyword (getColors light)) (lit "TD") ++ y') /\
  (exists kw r, lit "TD;" = kw ++ r /\ In kw keywords /\
     span (keyword (getColors light)) (lit "TD") =
       span (keyword (getColors light)) kw /\
     2 = length kw /\
     is_word_opt None = false /\ is_word_opt (hd_error r) = false).
Proof.
  destruct (C4_keyword_after_hex_code light) as (Hwhole & Hmatch & _).
  split.
  - apply (Hwhole (lit "graph ") (lit "TD") []).
    + right. left. reflexivity.
    + reflexivity.
    + reflexivity.
  - apply (Hmatch None (lit "TD;")). reflexivity.
Defined.
(** *** Deleting the wrappers *)

Lemma span_open_split t : span_open t = open_prefix ++ t ++ [dquote; 62%N].
Proof.
  unfold span_open, open_prefix. norm_lit. cbn [app]. reflexivity.
Qed.

Lemma starts_with_app_both p q s :
  starts_with (p ++ q) s =
  starts_with p s && starts_with q (skipn (length p) s).
Proof.
  revert s. induction p as [|c p IH]; intros s; [reflexivity|].
  destruct s as [|d s]; [reflexivity|].
  cbn [app starts_with length skipn]. rewrite IH. apply andb_assoc.
Qed.

Lemma starts_with_eq p s : starts_with p s = true <-> exists r, s = p ++ r.
Proof.
  split.
  - intro H. exists (skipn (length p) s). apply starts_with_app. exact H.
  - intros [r ->]. apply starts_with_refl.
Qed.

Lemma wrapper_at_open t r :
  hex_token t -> wrapper_at (span_open t ++ r) = Some 29.
Proof.
  intro Ht. pose proof (hex_token_inv Ht) as (h1 & h2 & h3 & h4 & h5 & h6 & -> & Hh).
  assert (E : hex_at ([35%N; h1; h2; h3; h4; h5; h6] ++ [dquote; 62%N] ++ r) =
              Some [35%N; h1; h2; h3; h4; h5; h6])
    by (apply hex_at_token; assumption).
  unfold wrapper_at. rewrite span_open_split.
  unfold open_prefix, span_close. norm_lit.
  cbn [app starts_with skipn] in E |- *.
  repeat match goal with
         | |- context [(?a =? ?b)%N] =>
             let v := eval vm_compute in (a =? b)%N in
             change (a =? b)%N with v; cbn [andb]
         end.
  rewrite E. reflexivity.
Qed.

Lemma wrapper_at_close r : wrapper_at (span_close ++ r) = Some 7.
Proof. unfold wrapper_at. rewrite starts_with_refl. reflexivity. Qed.

Lemma wrapper_at_wrapper w r :
  wrapper w -> wrapper_at (w ++ r) = Some (length w).
Proof.
  intros [t Ht|].
  - rewrite (wrapper_at_open r Ht). f_equal.
    rewrite span_open_split, !length_app, (hex_token_length Ht). reflexivity.
  - rewrite wrapper_at_close. reflexivity.
Qed.

Lemma wrapper_at_some s n :
  wrapper_at s = Some n -> exists w r, wrapper w /\ s = w ++ r.
Proof.
  unfold wrapper_at.
  destruct (starts_with span_close s) eqn:Ec.
  - intros _. apply starts_with_eq in Ec. destruct Ec as [r ->].
    exists span_close, r. split; [constructor|reflexivity].
  - destruct (starts_with open_prefix s) eqn:Eo; [|discriminate].
    destruct (hex_at (skipn 20 s)) as [t|] eqn:Et; [|discriminate].
    destruct (starts_with [dquote; 62%N] (skipn 27 s)) eqn:Eq; [|discriminate].
    intros _. apply starts_with_eq in Eo. destruct Eo as [r1 ->].
    rewrite (@skipn_app_le N 20 open_prefix r1) in Et by (simpl; lia).
    change (skipn 20 open_prefix) with (@nil N) in Et. cbn [app] in Et.
    apply hex_at_some in Et. destruct Et as [Ht [r2 ->]].
    assert (E27 : skipn 27 (open_prefix ++ t ++ r2) = r2).
    { rewrite app_assoc. rewrite skipn_app_le
        by (rewrite length_app, (hex_token_length Ht); simpl; lia).
      replace 27 with (length (open_prefix ++ t))
        by (rewrite length_app, (hex_token_length Ht); reflexivity).
      rewrite skipn_all. reflexivity. }
    rewrite E27 in Eq. apply starts_with_eq in Eq. destruct Eq as [r3 ->].
    exists (span_open t), r3. split; [constructor; assumption|].
    rewrite span_open_split, <- !app_assoc. reflexivity.
Qed.

Lemma strip_proper : proper strip_rule.
Proof.
  intros prev s rep n. unfold strip_rule.
  destruct (wrapper_at s) as [k|] eqn:E; [|discriminate].
  cbn [option_map]. intro H. injection H as <- <-.
  destruct (wrapper_at_some _ E) as (w & r & Hw & ->).
  rewrite (wrapper_at_wrapper r Hw) in E. injection E as <-.
  rewrite length_app. destruct Hw as [t Ht|].
  - rewrite span_open_split, !length_app, (hex_token_length Ht). simpl. lia.
  - simpl. lia.
Qed.


Lemma map_html_indexed (g : list N -> list N) l : forall i,
  map html (map_indexed (fun line j => MkLine j (g line)) i l) = map g l.
Proof.
  induction l as [|a l IH]; intro i; cbn [map_indexed map]; [reflexivity|].
  rewrite IH. reflexivity.
Qed.


Lemma br_escaped_tag r : br_escaped (br_tag ++ r) = escaped_br ++ br_escaped r.
Proof. reflexivity. Qed.

Lemma br_escaped_other c s :
  starts_with br_tag (c :: s) = false -> br_escaped (c :: s) = c :: br_escaped s.
Proof.
  intro H. cbn [br_escaped]. unfold br_tag in H. rewrite H. reflexivity.
Qed.

(** The escape step is that replacement. *)
Lemma escape_step_br_escaped s : escape_step s = br_escaped s.
Proof.
  unfold escape_step, replace_all. generalize (@None N).
  remember (length s) as k eqn:Hk. revert s Hk.
  induction k as [k IH] using lt_wf_ind. intros s Hk prev.
  destruct s as [|c s]; [apply replace_nil; apply escape_proper|].
  destruct (starts_with br_tag (c :: s)) eqn:E.
  - pose proof (starts_with_app _ _ E) as Es.
    assert (Eh : escape_rule prev (c :: s) = Some (escaped_br, 5))
      by (rewrite escape_rule_spec; unfold escape_at; rewrite E; reflexivity).
    rewrite (@replace_hit _ _ _ _ _ escape_proper Eh).
    rewrite Es at 3. rewrite br_escaped_tag. f_equal.
    apply (IH (length (skipn 5 (c :: s)))); [|reflexivity].
    rewrite length_skipn. subst k. cbn [length]. lia.
  - assert (Eh : escape_rule prev (c :: s) = None)
      by (rewrite escape_rule_spec; unfold escape_at; rewrite E; reflexivity).
    rewrite replace_miss by exact Eh. rewrite br_escaped_other by exact E.
    f_equal. apply (IH (length s)); [subst k; simpl; lia|reflexivity].
Qed.

(** *** Reading the text back from the rows *)

Lemma str_eqb_eq a b : str_eqb a b = true -> a = b.
Proof.
  unfold str_eqb. intro H. apply andb_true_iff in H. destruct H as [Hl Hs].
  apply Nat.eqb_eq in Hl. apply starts_with_app in Hs.
  rewrite Hs. rewrite Hl, skipn_all, app_nil_r. reflexivity.
Qed.

Lemma str_eqb_refl a : str_eqb a a = true.
Proof.
  unfold str_eqb. rewrite Nat.eqb_refl.
  rewrite <- (app_nil_r a) at 2. apply starts_with_refl.
Qed.

Lemma contains_split p : forall s,
  contains p s = true -> exists a b, s = a ++ p ++ b.
Proof.
  induction s as [|c s IH]; cbn [contains]; intro H.
  - rewrite orb_false_r in H. apply starts_with_app in H.
    exists [], (skipn (length p) []). exact H.
  - apply orb_true_iff in H. destruct H as [H|H].
    + apply starts_with_app in H. exists [], (skipn (length p) (c :: s)).
      exact H.
    + destruct (IH H) as (a & b & ->). exists (c :: a), b. reflexivity.
Qed.

Lemma escape_step_length s : length s <= length (escape_step s).
Proof. apply escape_length. Qed.

(** Only the text [&nbsp;] is escaped to [&nbsp;]. *)
Lemma escape_step_nbsp line :
  escape_step line = lit "&nbsp;" -> line = lit "&nbsp;".
Proof.
  intro E. destruct (contains br_tag line) eqn:Hc.
  - exfalso. apply contains_split in Hc. destruct Hc as (a & b & ->).
    rewrite escape_step_app_tag in E.
    apply (f_equal (@length N)) in E. rewrite !length_app in E.
    cbn [length escaped_br lit] in E. simpl in E. lia.
  - unfold escape_step, replace_all in E.
    rewrite escape_walk_id in E by exact Hc. exact E.
Qed.


(** *** The copy button over time *)

Lemma copy_inv_initial : copy_inv Copy.initial None.
Proof.
  split.
  - intros due [].
  - discriminate.
Qed.

Lemma copy_inv_step s acc e :
  copy_inv s acc -> copy_inv (Copy.step s e) (Copy.since_last [e] acc).
Proof.
  intros [Hdue Hflag].
  destruct e as [[|] value|d]; cbn [Copy.step Copy.since_last].
  - split; assumption.
  - split; cbn [Copy.handleCopy Copy.timers Copy.now Copy.copied].
    + intros due Hin. apply in_app_or in Hin. destruct Hin as [Hin|[<-|[]]].
      * apply Hdue in Hin. lia.
      * lia.
    + intros _. exists 0%N, (Copy.now s + 2000)%N. repeat split.
      * apply in_or_app. right. left. reflexivity.
      * lia.
  - split; cbn [Copy.advance Copy.timers Copy.now Copy.copied].
    + intros due Hin. apply filter_In in Hin. destruct Hin as [Hin Hlate].
      apply negb_true_iff, N.leb_gt in Hlate. apply Hdue in Hin. lia.
    + destruct (existsb (fun due => (due <=? Copy.now s + d)%N) (Copy.timers s))
        eqn:E; [discriminate|].
      intro Hc. destruct (Hflag Hc) as (a & due & -> & Hin & Ha).
      exists (a + d)%N, due. repeat split.
      * apply filter_In. split; [assumption|].
        apply negb_true_iff.
        destruct (due <=? Copy.now s + d)%N eqn:Hle; [|reflexivity].
        assert (Hex : existsb (fun due => (due <=? Copy.now s + d)%N)
                        (Copy.timers s) = true).
        { apply existsb_exists. exists due. auto. }
        congruence.
      * lia.
Qed.

Lemma since_last_app tr1 : forall tr2 acc,
  Copy.since_last (tr1 ++ tr2) acc =
  Copy.since_last tr2 (Copy.since_last tr1 acc).
Proof.
  induction tr1 as [|[[|] v|d] tr1 IH]; intros tr2 acc;
    cbn [app Copy.since_last]; auto.
Qed.

Lemma copy_inv_fold tr : forall s acc,
  copy_inv s acc ->
  copy_inv (fold_left Copy.step tr s) (Copy.since_last tr acc).
Proof.
  induction tr as [|e tr IH]; intros s acc H; [exact H|].
  change (e :: tr) with ([e] ++ tr). rewrite since_last_app.
  cbn [app fold_left]. apply IH. apply copy_inv_step. exact H.
Qed.

Lemma copy_inv_run trace :
  copy_inv (Copy.run trace) (Copy.since_last trace None).
Proof. apply copy_inv_fold. apply copy_inv_initial. Qed.

Lemma tooltipTitle_copied b : tooltipTitle b = lit "Copied!" -> b = true.
Proof. destruct b; [reflexivity|discriminate]. Qed.

(** X1. Whatever the sequence of activations and waits, the tooltip reads
    [Copied!] only if the button was activated, and the latest activation
    (of those whose clipboard call returned, the others being without
    effect) is less than 2000 ms old. *)
Theorem copied_title_only_after_recent_activation (trace : list Copy.Event) :
  tooltipTitle (Copy.copied (Copy.run trace)) = lit "Copied!" ->
  Copy.copied (Copy.run trace) = true /\
  exists a, Copy.since_last trace None = Some a /\ (a < 2000)%N.
Proof.
  intro Ht. apply tooltipTitle_copied in Ht. split; [exact Ht|].
  destruct (copy_inv_run trace) as [Hdue Hflag].
  destruct (Hflag Ht) as (a & due & E & Hin & Ha).
  exists a. split; [exact E|]. apply Hdue in Hin. lia.
Qed.

Lemma copied_title_witness :
  Copy.copied
    (Copy.run [Copy.Activate Copy.Returns (lit "graph TD"); Copy.Wait 1999]) =
    true /\
  exists a,
    Copy.since_last
      [Copy.Activate Copy.Returns (lit "graph TD"); Copy.Wait 1999] None =
      Some a /\
    (a < 2000)%N.
Proof.
  apply (@copied_title_only_after_recent_activation
           [Copy.Activate Copy.Returns (lit "graph TD"); Copy.Wait 1999]).
  reflexivity.
Defined.

Lemma advance_advance d1 d2 s :
  Copy.advance d2 (Copy.advance d1 s) = Copy.advance (d1 + d2) s.
Proof.
  unfold Copy.advance. cbn [Copy.now Copy.copied Copy.writes Copy.timers].
  rewrite N.add_assoc. f_equal.
  - induction (Copy.timers s) as [|t l IH]; [reflexivity|].
    cbn [existsb filter].
    destruct (t <=? Copy.now s + d1)%N eqn:E1; cbn [negb orb].
    + assert (E2 : (t <=? Copy.now s + d1 + d2)%N = true).
      { apply N.leb_le. apply N.leb_le in E1. lia. }
      rewrite E2. cbn [orb].
      destruct (existsb _ (filter _ l)); reflexivity.
    + cbn [existsb].
      destruct (t <=? Copy.now s + d1 + d2)%N; cbn [orb]; [reflexivity|].
      exact IH.
  - induction (Copy.timers s) as [|t l IH]; [reflexivity|].
    cbn [filter].
    destruct (t <=? Copy.now s + d1)%N eqn:E1; cbn [negb].
    + assert (E2 : (t <=? Copy.now s + d1 + d2)%N = true).
      { apply N.leb_le. apply N.leb_le in E1. lia. }
      rewrite E2. cbn [negb]. exact IH.
    + cbn [filter]. destruct (t <=? Copy.now s + d1 + d2)%N; cbn [negb];
        [exact IH|]. f_equal. exact IH.
Qed.

Lemma waits_advance ds : forall s,
  fold_left Copy.step (map Copy.Wait ds) s =
  Copy.advance (fold_right N.add 0%N ds) s \/ ds = [].
Proof.
  induction ds as [|d ds IH]; intro s; [right; reflexivity|]. left.
  cbn [map fold_left fold_right Copy.step].
  destruct (IH (Copy.advance d s)) as [E| ->].
  - rewrite E, advance_advance. reflexivity.
  - cbn [map fold_left fold_right]. rewrite N.add_0_r. reflexivity.
Qed.

Lemma idle_resets s acc d :
  copy_inv s acc -> (2000 <= d)%N ->
  Copy.copied (Copy.advance d s) = false /\ Copy.timers (Copy.advance d s) = [].
Proof.
  intros [Hdue Hflag] Hd. split.
  - cbn [Copy.advance Copy.copied].
    destruct (existsb (fun due => (due <=? Copy.now s + d)%N) (Copy.timers s))
      eqn:E; [reflexivity|].
    destruct (Copy.copied s) eqn:Hcs; [|reflexivity].
    destruct (Hflag eq_refl) as (a & due & _ & Hin & _).
    assert (Hex : existsb (fun due => (due <=? Copy.now s + d)%N)
                    (Copy.timers s) = true).
    { apply existsb_exists. exists due. split; [assumption|].
      apply N.leb_le. apply Hdue in Hin. lia. }
    congruence.
  - cbn [Copy.advance Copy.timers].
    destruct (filter _ (Copy.timers s)) as [|due l] eqn:E; [reflexivity|].
    assert (Hin : In due (filter (fun due => negb (due <=? Copy.now s + d)%N)
                            (Copy.timers s)))
      by (rewrite E; left; reflexivity).
    apply filter_In in Hin. destruct Hin as [Hin Hlate].
    apply negb_true_iff, N.leb_gt in Hlate. apply Hdue in Hin. lia.
Qed.

(** X2. Whatever the sequence of activations and waits before, once waits
    that add up to 2000 ms or more pass without an activation, the flag is
    reset, the tooltip reads [Copy code] and no timer is left pending. *)
Theorem idle_time_resets_copy_button (trace : list Copy.Event) (ds : list N) :
  (2000 <= fold_right N.add 0 ds)%N ->
  let s := fold_left Copy.step (map Copy.Wait ds) (Copy.run trace) in
  Copy.copied s = false /\
  tooltipTitle (Copy.copied s) = lit "Copy code" /\
  Copy.timers s = [].
Proof.
  intro Hd. cbv zeta.
  destruct (waits_advance ds (Copy.run trace)) as [E| ->];
    [|cbn [fold_right] in Hd; lia].
  rewrite E.
  destruct (@idle_resets (Copy.run trace) _ _ (copy_inv_run trace) Hd)
    as [Hc Ht].
  rewrite Hc. auto.
Qed.

Lemma idle_time_witness :
  let s := fold_left Copy.step (map Copy.Wait [1500; 500]%N)
             (Copy.run double_click) in
  Copy.copied s = false /\
  tooltipTitle (Copy.copied s) = lit "Copy code" /\
  Copy.timers s = [].
Proof.
  apply (@idle_time_resets_copy_button double_click [1500; 500]%N).
  discriminate.
Defined.

(** *** Scroll events at the edges *)

(** X3. The handler does nothing while one of the two references is null.
    With both set, an event whose target is not the textarea (the overlay,
    or any other element) writes the offsets of its target to the textarea
    and to nothing else.  When both references name the element that is
    scrolled, every element keeps its offsets. *)
Theorem syncScroll_edge_cases (Offset : Type) (refs : Scroll.Refs)
    (target : Scroll.Ref) (st : Scroll.Store Offset) :
  (Scroll.textareaRef refs = None \/ Scroll.highlightRef refs = None ->
   Scroll.syncScroll refs target st = st /\
   Scroll.receiver refs target = None) /\
  (forall textarea highlight,
      Scroll.textareaRef refs = Some textarea ->
      Scroll.highlightRef refs = Some highlight ->
      target <> textarea ->
      Scroll.receiver refs target = Some textarea /\
      Scroll.syncScroll refs target st textarea =
        Scroll.MkElement (Scroll.scrollTop (st target))
                         (Scroll.scrollLeft (st target)) /\
      forall r, r <> textarea -> Scroll.syncScroll refs target st r = st r) /\
  (Scroll.textareaRef refs = Some target ->
   Scroll.highlightRef refs = Some target ->
   forall r, Scroll.syncScroll refs target st r = st r).
Proof.
  split; [|split].
  - unfold Scroll.syncScroll, Scroll.receiver.
    intros [H|H]; rewrite H; [auto|].
    destruct (Scroll.textareaRef refs); auto.
  - intros textarea highlight Hta Hhl Hne.
    unfold Scroll.syncScroll, Scroll.receiver. rewrite Hta, Hhl.
    destruct (Nat.eqb_spec target textarea) as [E|_]; [contradiction|].
    pose proof (sync_writes st Hne) as [Hw Hk]. cbv zeta in Hw, Hk.
    split; [reflexivity|]. split; [exact Hw|exact Hk].
  - intros Hta Hhl r. unfold Scroll.syncScroll. rewrite Hta, Hhl.
    rewrite Nat.eqb_refl.
    unfold Scroll.set_scrollLeft, Scroll.set_scrollTop.
    destruct (Nat.eq_dec r target) as [->|Hr].
    + rewrite !update_same. cbn. destruct (st target); reflexivity.
    + rewrite !update_other by assumption. reflexivity.
Qed.

Lemma syncScroll_edge_witness :
  let st : Scroll.Store nat :=
    fun r => if Nat.eqb r 2 then Scroll.MkElement 40 7 else Scroll.MkElement 0 0 in
  (Scroll.syncScroll (Scroll.MkRefs None (Some 1)) 1 st = st /\
   Scroll.receiver (Scroll.MkRefs None (Some 1)) 1 = None) /\
  (Scroll.receiver (Scroll.MkRefs (Some 0) (Some 1)) 2 = Some 0 /\
   Scroll.syncScroll (Scroll.MkRefs (Some 0) (Some 1)) 2 st 0 =
     Scroll.MkElement 40 7 /\
   forall r, r <> 0 ->
     Scroll.syncScroll (Scroll.MkRefs (Some 0) (Some 1)) 2 st r = st r) /\
  (forall r, Scroll.syncScroll (Scroll.MkRefs (Some 2) (Some 2)) 2 st r = st r).
Proof.
  cbv zeta.
  set (st := fun r => if Nat.eqb r 2 then Scroll.MkElement 40 7
                      else Scroll.MkElement 0 0).
  split; [|split].
  - apply (@syncScroll_edge_cases nat (Scroll.MkRefs None (Some 1)) 1 st).
    left. reflexivity.
  - apply (proj1 (proj2 (@syncScroll_edge_cases nat
                           (Scroll.MkRefs (Some 0) (Some 1)) 2 st)) 0 1);
      [reflexivity|reflexivity|discriminate].
  - apply (proj2 (proj2 (@syncScroll_edge_cases nat
                           (Scroll.MkRefs (Some 2) (Some 2)) 2 st)));
      reflexivity.
Defined.

(** *** Lines are rendered one by one *)

Lemma split_lines_app a b :
  split_lines (a ++ newline :: b) = split_lines a ++ split_lines b.
Proof.
  induction a as [|c a IH]; cbn [app split_lines].
  - rewrite N.eqb_refl. reflexivity.
  - destruct (c =? newline)%N.
    + rewrite IH. reflexivity.
    + rewrite IH. destruct (split_lines_cons a) as (l & ls & ->). reflexivity.
Qed.

Lemma map_indexed_app {A B} (f : A -> nat -> B) l1 : forall l2 i,
  map_indexed f i (l1 ++ l2) =
  map_indexed f i l1 ++ map_indexed f (length l1 + i) l2.
Proof.
  induction l1 as [|a l1 IH]; intros l2 i; cbn [app map_indexed length].
  - reflexivity.
  - rewrite IH. replace (length l1 + S i) with (S (length l1 + i)) by lia.
    reflexivity.
Qed.

Lemma map_indexed_shift (g : list N -> list N) k l : forall i,
  map_indexed (fun line j => MkLine j (g line)) (k + i) l =
  map (fun el => MkLine (k + key el) (html el))
      (map_indexed (fun line j => MkLine j (g line)) i l).
Proof.
  induction l as [|a l IH]; intro i; cbn [map_indexed map]; [reflexivity|].
  cbn [key html]. f_equal. rewrite <- IH. f_equal. lia.
Qed.

Lemma map_add_seq k n : forall s, map (fun j => k + j) (seq s n) = seq (k + s) n.
Proof.
  induction n as [|n IH]; intro s; cbn [seq map]; [reflexivity|].
  rewrite IH. repeat f_equal. lia.
Qed.

(** X4. The document is rendered line by line: the markup of a line
    depends on that line alone.  The rendering of two texts joined by a
    line break is the rendering of the first followed by the rendering of
    the second with its keys shifted by the number of lines of the first;
    the line numbers behave alike; and a line break at the end of the
    document adds one row that holds [&nbsp;]. *)
Theorem rendering_is_line_by_line (mode : PaletteMode) (a b : list N) :
  let n := length (split_lines a) in
  highlightSyntax mode (a ++ newline :: b) =
    highlightSyntax mode a ++
    map (fun el => MkLine (n + key el) (html el)) (highlightSyntax mode b) /\
  map html (highlightSyntax mode (a ++ newline :: b)) =
    map html (highlightSyntax mode a) ++ map html (highlightSyntax mode b) /\
  map html (highlightSyntax mode a) =
    map (fun line => or_nbsp (coloredLine mode line)) (split_lines a) /\
  lineNumbers (a ++ newline :: b) =
    lineNumbers a ++ map (fun k => n + k) (lineNumbers b) /\
  highlightSyntax mode (a ++ [newline]) =
    highlightSyntax mode a ++ [MkLine n (lit "&nbsp;")].
Proof.
  cbv zeta.
  assert (H1 : highlightSyntax mode (a ++ newline :: b) =
    highlightSyntax mode a ++
    map (fun el => MkLine (length (split_lines a) + key el) (html el))
        (highlightSyntax mode b)).
  { unfold highlightSyntax. rewrite split_lines_app, map_indexed_app.
    rewrite map_indexed_shift. reflexivity. }
  split; [exact H1|]. split; [|split; [|split]].
  - rewrite H1, map_app, map_map. cbn [html]. reflexivity.
  - unfold highlightSyntax. apply map_html_indexed.
  - rewrite !lineNumbers_seq, split_lines_app, length_app.
    rewrite seq_app, map_add_seq.
    replace (1 + length (split_lines a)) with (length (split_lines a) + 1) by lia.
    reflexivity.
  - clear H1.
    unfold highlightSyntax. rewrite split_lines_app, map_indexed_app.
    cbn [split_lines map_indexed]. rewrite Nat.add_0_r. reflexivity.
Qed.

(** *** The pieces of a coloured line *)

Lemma alnum_calm c : is_alnum c = true -> calm c = true.
Proof.
  intro H. unfold calm. apply negb_true_iff.
  destruct (N.eqb_spec c 45) as [->|_]; [discriminate H|].
  destruct (N.eqb_spec c 41) as [->|_]; [discriminate H|].
  destruct (N.eqb_spec c 93) as [->|_]; [discriminate H|].
  reflexivity.
Qed.

Lemma firm_mild mode b : firm mode b -> mild b.
Proof. intros (H1 & H2 & _). split; assumption. Qed.

Lemma mild_guarded b : mild b -> guarded b.
Proof.
  intros (H1 & H2). split; [exact H1|].
  rewrite Forall_forall in H2.
  split; intro Hin; apply H2 in Hin; discriminate Hin.
Qed.

Lemma span_node_mild mode t :
  is_token TokNode t -> mild (span (node (getColors mode)) t).
Proof.
  intros (c & n & -> & Hc & Hn). split; [apply span_head|].
  unfold span. apply Forall_app. split.
  - apply quiet_all_calm. apply span_open_quiet. apply color_token.
  - apply Forall_app. split.
    + constructor.
      * apply alnum_calm. unfold is_alnum. rewrite Hc. reflexivity.
      * eapply Forall_impl; [|exact Hn]. intros d Hd. apply alnum_calm.
        exact Hd.
    + apply quiet_all_calm. apply span_close_quiet.
Qed.

Lemma token_colour_hex mode k t :
  is_token k t -> hex_token (token_colour mode k t).
Proof.
  destruct k; cbn [is_token token_colour]; intro H.
  - exact H.
  - apply color_token.
  - apply color_token.
  - apply color_token.
Qed.


Lemma render_app m ps1 ps2 : render m (ps1 ++ ps2) = render m ps1 ++ render m ps2.
Proof. apply flat_map_app. Qed.

Lemma text_app ps1 ps2 : text (ps1 ++ ps2) = text ps1 ++ text ps2.
Proof. apply flat_map_app. Qed.

Lemma render_Plain m t : render m (map Plain t) = t.
Proof. induction t as [|c t IH]; [reflexivity|]. cbn. f_equal. exact IH. Qed.

Lemma text_Plain t : text (map Plain t) = t.
Proof. induction t as [|c t IH]; [reflexivity|]. cbn. f_equal. exact IH. Qed.

Lemma flat_items m ps : flat (items_of m ps) = render m ps.
Proof.
  induction ps as [|[c|k t] ps IH]; [reflexivity| |].
  - change (c :: flat (items_of m ps) = c :: render m ps). f_equal. exact IH.
  - change (span (token_colour m k t) t ++ flat (items_of m ps) =
            span (token_colour m k t) t ++ render m ps). f_equal. exact IH.
Qed.

Lemma tokens_ok_app P ps1 ps2 :
  tokens_ok P (ps1 ++ ps2) <-> tokens_ok P ps1 /\ tokens_ok P ps2.
Proof. apply Forall_app. Qed.

Lemma tokens_ok_Plain P t : tokens_ok P (map Plain t).
Proof. induction t; constructor; auto. Qed.

Lemma tokens_ok_mono (P P' : token_kind -> Prop) ps :
  (forall k, P k -> P' k) -> tokens_ok P ps -> tokens_ok P' ps.
Proof.
  intros HP H. eapply Forall_impl; [|exact H].
  intros [c|k t]; [auto|]. intros [H1 H2]. auto.
Qed.

Lemma items_of_Ch_inv m t : forall ps l2,
  items_of m ps = map Ch t ++ l2 ->
  exists ps2, ps = map Plain t ++ ps2 /\ l2 = items_of m ps2.
Proof.
  induction t as [|c t IH]; intros ps l2 E; cbn [map app] in E.
  - exists ps. auto.
  - destruct ps as [|[d|k x] ps]; try discriminate E.
    cbn [items_of map] in E. injection E as -> E.
    destruct (IH _ _ E) as (ps2 & -> & ->). exists ps2. auto.
Qed.

Lemma items_of_app_inv m ps la lb :
  items_of m ps = la ++ lb ->
  exists psa psb, ps = psa ++ psb /\ items_of m psa = la /\ items_of m psb = lb.
Proof. apply map_eq_app. Qed.

Lemma span_last_gt col x p : last_of p (span col x) = Some 62%N.
Proof.
  unfold span, span_close. rewrite !last_of_app. norm_lit. reflexivity.
Qed.

Lemma render_head m m' ps : hd_error (render m ps) = hd_error (render m' ps).
Proof.
  destruct ps as [|[c|k t] ps]; [reflexivity|reflexivity|].
  cbn [render flat_map].
  destruct (span_head (token_colour m k t) t) as [r ->].
  destruct (span_head (token_colour m' k t) t) as [r' ->]. reflexivity.
Qed.

Lemma alnum_dot c : is_alnum c = true -> is_dot c = true.
Proof.
  intro H. unfold is_dot. apply negb_true_iff.
  destruct (N.eqb_spec c 10) as [->|_]; [discriminate H|].
  destruct (N.eqb_spec c 13) as [->|_]; [discriminate H|].
  destruct (N.eqb_spec c 8232) as [->|_]; [discriminate H|].
  destruct (N.eqb_spec c 8233) as [->|_]; [discriminate H|].
  reflexivity.
Qed.

Lemma hex_token_dot t : hex_token t -> Forall (fun c => is_dot c = true) t.
Proof.
  intros (h & -> & _ & Hh). constructor; [reflexivity|].
  eapply Forall_impl; [|exact Hh]. intros c Hc.
  apply alnum_dot, hex_alnum. exact Hc.
Qed.

Lemma token_dot k t : is_token k t -> Forall (fun c => is_dot c = true) t.
Proof.
  destruct k; cbn [is_token]; intro H.
  - apply hex_token_dot. exact H.
  - unfold keywords in H. cbn [In] in H.
    destruct H as [<-|[<-|[<-|[<-|[<-|[]]]]]]; repeat constructor.
  - destruct H as (c & n & -> & Hc & Hn). constructor.
    + apply alnum_dot. unfold is_alnum. rewrite Hc. reflexivity.
    + eapply Forall_impl; [|exact Hn]. intros d Hd. apply alnum_dot. exact Hd.
  - subst t. repeat constructor.
Qed.

Lemma span_dot col t :
  hex_token col -> Forall (fun c => is_dot c = true) t ->
  Forall (fun c => is_dot c = true) (span col t).
Proof.
  intros Hc Ht. unfold span. rewrite span_open_split.
  repeat (apply Forall_app; split); try assumption.
  - unfold open_prefix. repeat constructor.
  - apply hex_token_dot. exact Hc.
  - repeat constructor.
  - unfold span_close. norm_lit. repeat constructor.
Qed.

Lemma token_span_mild m k t :
  rank k < 3 -> is_token k t -> mild (span (token_colour m k t) t).
Proof.
  destruct k; cbn [rank is_token token_colour]; intros Hr H.
  - apply firm_mild with (mode := m). apply solid_firm.
    apply span_hex_solid. exact H.
  - apply firm_mild with (mode := m). apply span_keyword_firm. exact H.
  - apply span_node_mild. exact H.
  - lia.
Qed.

Lemma blocks_items m (P : token_kind -> Prop) (Q : list N -> Prop) ps :
  (forall k t, P k -> is_token k t -> Q (span (token_colour m k t) t)) ->
  tokens_ok P ps -> blocks Q (items_of m ps).
Proof.
  intros HQ H. induction H as [|[c|k t] ps Hp _ IH]; cbn [items_of map].
  - constructor.
  - constructor; [exact I|exact IH].
  - constructor; [|exact IH]. destruct Hp. apply HQ; assumption.
Qed.

Lemma blocks_mild m (P : token_kind -> Prop) ps :
  (forall k, P k -> rank k < 3) ->
  tokens_ok P ps -> blocks mild (items_of m ps).
Proof.
  intros HP. apply blocks_items. intros k t Hk Ht.
  apply token_span_mild; auto.
Qed.

(** The characters that a match takes from the head of the pieces. *)
Lemma take_plain m (P : token_kind -> Prop) t c ps r :
  (forall k, P k -> rank k < 3) ->
  tokens_ok P ps -> c :: render m ps = t ++ r -> ~ In 60%N t ->
  exists ps2, Plain c :: ps = map Plain t ++ ps2 /\ r = render m ps2.
Proof.
  intros HP Hok E Ht.
  assert (Hb : blocks mild (items_of m (Plain c :: ps))).
  { apply (blocks_mild m HP). constructor; [exact I|exact Hok]. }
  destruct (@take_chars mild mild_guarded t (items_of m (Plain c :: ps)) r Hb)
    as (l2 & El & E2); [rewrite flat_items; exact E|exact Ht|].
  apply items_of_Ch_inv in El. destruct El as (ps2 & Eps & ->).
  exists ps2. split; [exact Eps|]. rewrite <- E2. apply flat_items.
Qed.

(** The walk of a rule, under every palette at once, over the markup of a
    list of pieces whose tokens are inert: a match takes characters at the
    head, which become a token, and perhaps whole pieces after them, which
    are copied. *)
Lemma Refines_refl ps : Refines ps ps.
Proof. induction ps; constructor; assumption. Qed.

Lemma Refines_app ps1 ps2 ps2' :
  Refines ps2 ps2' -> Refines (ps1 ++ ps2) (ps1 ++ ps2').
Proof. intro H. induction ps1; cbn [app]; [exact H|constructor; assumption]. Qed.

Lemma Refines_trans ps1 ps2 ps3 :
  Refines ps1 ps2 -> Refines ps2 ps3 -> Refines ps1 ps3.
Proof.
  intros H12 H23. revert ps1 H12.
  induction H23 as [|p ps ps' _ IH|k t ps ps' _ IH]; intros ps1 H12.
  - exact H12.
  - inversion H12 as [|p0 q q' H' E1 E2|k t q q' H' E1 E2]; subst.
    + constructor. apply IH. assumption.
    + constructor. apply IH. assumption.
  - assert (Hpre : forall t0 q1 q2, Refines q1 (map Plain t0 ++ q2) ->
                     exists q1', q1 = map Plain t0 ++ q1' /\ Refines q1' q2).
    { clear. induction t0 as [|c t0 IHt]; intros q1 q2 H; cbn [map app] in *.
      - exists q1. auto.
      - inversion H as [|p q q' H' E1 E2|]; subst.
        destruct (IHt _ _ H') as (q1' & -> & H1). exists q1'. auto. }
    destruct (Hpre _ _ _ H12) as (q1' & -> & H1).
    constructor. apply IH. assumption.
Qed.

Lemma hexless_drop t : forall ps, hexless (map Plain t ++ ps) -> hexless ps.
Proof.
  induction t as [|c t IH]; intros ps H; [exact H|].
  cbn [map app hexless] in H. apply IH. apply H.
Qed.

Lemma Refines_text ps ps' : Refines ps ps' -> text ps' = text ps.
Proof.
  induction 1 as [|p ps ps' _ IH|k t ps ps' _ IH]; [reflexivity| |].
  - change (text ([p] ++ ps') = text ([p] ++ ps)). rewrite !text_app, IH.
    reflexivity.
  - change (text ([Token k t] ++ ps') = text (map Plain t ++ ps)).
    rewrite !text_app, IH, text_Plain. cbn. rewrite app_nil_r. reflexivity.
Qed.

Lemma Refines_hexless ps ps' : Refines ps ps' -> hexless ps -> hexless ps'.
Proof.
  induction 1 as [|p ps ps' H IH|k t ps ps' H IH]; intro Hh; [exact I| |].
  - destruct p as [c|k t]; cbn [hexless] in *.
    + destruct Hh as [Hc Hh]. split; [|apply IH; exact Hh].
      rewrite (Refines_text H). exact Hc.
    + apply IH. exact Hh.
  - cbn [hexless]. apply IH. apply (hexless_drop _ _ Hh).
Qed.

Lemma weave_pieces (f : PaletteMode -> rule) (P : token_kind -> Prop)
    (k0 : token_kind) :
  (forall m, proper (f m)) ->
  (forall m k t, P k -> is_token k t ->
     inert (f m) (span (token_colour m k t) t)) ->
  (forall m prev c ps rep n,
      tokens_ok P ps -> f m prev (c :: render m ps) = Some (rep, n) ->
      exists t ps1 ps2 q,
        is_token k0 t /\ Plain c :: ps = map Plain t ++ ps1 ++ ps2 /\
        forall m',
          f m' prev (c :: render m' ps) =
            Some (span (token_colour m' k0 t) t ++ render m' ps1,
                  length (t ++ render m' ps1)) /\
          last_of prev (t ++ render m' ps1) = q) ->
  forall ps prev,
    tokens_ok P ps ->
    exists ps',
      (forall m, walk (f m) prev (render m ps) = render m ps') /\
      text ps' = text ps /\
      tokens_ok (fun k => P k \/ k = k0) ps' /\
      Refines ps ps'.
Proof.
  intros Hf Hinert Hhit ps.
  remember (length ps) as j eqn:Hj. revert ps Hj.
  induction j as [j IH] using lt_wf_ind. intros ps Hj prev Hok.
  destruct ps as [|[c|k t] ps].
  - exists []. split; [|split; [reflexivity|split; constructor]].
    intro m. apply replace_nil. apply Hf.
  - inversion Hok as [|? ? _ Hok']; subst.
    destruct (f dark prev (c :: render dark ps)) as [[rep n]|] eqn:E.
    + destruct (Hhit _ _ _ _ _ _ Hok' E) as (t & ps1 & ps2 & q & Ht & Eps & Hall).
      assert (Hok12 : tokens_ok P ps1 /\ tokens_ok P ps2).
      { assert (Hall' : tokens_ok P (map Plain t ++ ps1 ++ ps2))
          by (rewrite <- Eps; exact Hok).
        apply tokens_ok_app in Hall'. destruct Hall' as [_ Hall'].
        apply tokens_ok_app in Hall'. exact Hall'. }
      destruct Hok12 as [Hok1 Hok2].
      assert (Hlen : length ps2 < length (Plain c :: ps)).
      { destruct (Hall dark) as [Ed _].
        pose proof (Hf _ _ _ _ _ Ed) as Hpos. rewrite length_app in Hpos.
        rewrite Eps, !length_app, length_map.
        destruct t as [|x t]; [|simpl; lia].
        destruct ps1 as [|p ps1]; [simpl in Hpos; lia|simpl; lia]. }
      destruct (IH (length ps2)) with (ps := ps2) (prev := q)
        as (ps2' & E2 & Et2 & Hok2' & Hr2);
        [exact Hlen|reflexivity|exact Hok2|].
      exists (Token k0 t :: ps1 ++ ps2').
      split; [|split; [|split]].
      * intro m. destruct (Hall m) as [Em Hq].
        change (render m (Plain c :: ps)) with (c :: render m ps).
        rewrite (@replace_hit _ _ _ _ _ (Hf m) Em).
        assert (Es : c :: render m ps = (t ++ render m ps1) ++ render m ps2).
        { change (c :: render m ps) with (render m (Plain c :: ps)).
          rewrite Eps, !render_app, render_Plain, app_assoc. reflexivity. }
        rewrite Es, firstn_app_le, skipn_app_le by lia.
        rewrite firstn_all, skipn_all. cbn [app]. rewrite Hq, E2.
        change (render m (Token k0 t :: ps1 ++ ps2'))
          with (span (token_colour m k0 t) t ++ render m (ps1 ++ ps2')).
        rewrite render_app, <- app_assoc. reflexivity.
      * change (text (Token k0 t :: ps1 ++ ps2')) with (t ++ text (ps1 ++ ps2')).
        rewrite text_app, Et2, Eps, !text_app, text_Plain. reflexivity.
      * constructor; [split; [right; reflexivity|exact Ht]|].
        apply tokens_ok_app. split; [|exact Hok2'].
        eapply tokens_ok_mono; [|exact Hok1]. auto.
      * rewrite Eps. constructor. apply Refines_app. exact Hr2.
    + assert (Hnone : forall m, f m prev (c :: render m ps) = None).
      { intro m. destruct (f m prev (c :: render m ps)) as [[rep n]|] eqn:Em;
          [|reflexivity].
        destruct (Hhit _ _ _ _ _ _ Hok' Em) as (t & ps1 & ps2 & q & _ & _ & Hall).
        destruct (Hall dark) as [Ed _]. congruence. }
      destruct (IH (length ps)) with (ps := ps) (prev := Some c)
        as (ps' & E' & Et & Hok2 & Hr);
        [subst; simpl; lia|reflexivity|exact Hok'|].
      exists (Plain c :: ps'). split; [|split; [|split]].
      * intro m. change (render m (Plain c :: ps)) with (c :: render m ps).
        rewrite replace_miss by apply Hnone. rewrite E'. reflexivity.
      * change (text (Plain c :: ps')) with (c :: text ps'). rewrite Et.
        reflexivity.
      * constructor; [exact I|exact Hok2].
      * constructor. exact Hr.
  - inversion Hok as [|? ? Hp Hok']; subst. destruct Hp as [Hk Ht].
    destruct (IH (length ps)) with (ps := ps) (prev := Some 62%N)
      as (ps' & E' & Et & Hok2 & Hr); [simpl; lia|reflexivity|exact Hok'|].
    exists (Token k t :: ps'). split; [|split; [|split]].
    + intro m.
      change (render m (Token k t :: ps))
        with (span (token_colour m k t) t ++ render m ps).
      rewrite (Hinert m k t Hk Ht), span_last_gt, E'. reflexivity.
    + change (text (Token k t :: ps')) with (t ++ text ps'). rewrite Et.
      reflexivity.
    + constructor; [split; [left; exact Hk|exact Ht]|exact Hok2].
    + constructor. exact Hr.
Qed.

(** *** The matches of the four rules, palette by palette *)

Lemma render_Forall (R : N -> Prop) m m' ps :
  (forall k t, In (Token k t) ps -> Forall R (span (token_colour m' k t) t)) ->
  Forall R (render m ps) -> Forall R (render m' ps).
Proof.
  induction ps as [|[c|k t] ps IH]; intros Htok H; [constructor| |].
  - change (render m (Plain c :: ps)) with (c :: render m ps) in H.
    change (render m' (Plain c :: ps)) with (c :: render m' ps).
    inversion H as [|? ? Hc H']; subst. constructor; [exact Hc|].
    apply IH; [|exact H']. intros k t Hin. apply Htok. right. exact Hin.
  - change (render m (Token k t :: ps))
      with (span (token_colour m k t) t ++ render m ps) in H.
    change (render m' (Token k t :: ps))
      with (span (token_colour m' k t) t ++ render m' ps).
    apply Forall_app in H. destruct H as [_ H'].
    apply Forall_app. split; [apply Htok; left; reflexivity|].
    apply IH; [|exact H']. intros k' t' Hin. apply Htok. right. exact Hin.
Qed.

Lemma tokens_ok_In P ps k t :
  tokens_ok P ps -> In (Token k t) ps -> P k /\ is_token k t.
Proof.
  intros H Hin. unfold tokens_ok in H. rewrite Forall_forall in H.
  apply (H _ Hin).
Qed.

(** A match on characters other than [<] that looks at most at the next
    character. *)
Lemma plain_piece_hit (f : PaletteMode -> rule) (k0 : token_kind) m
    (P : token_kind -> Prop) prev c ps t r :
  (forall k, P k -> rank k < 3) ->
  tokens_ok P ps -> c :: render m ps = t ++ r -> ~ In 60%N t ->
  is_token k0 t ->
  (forall m' r', hd_error r' = hd_error r ->
     f m' prev (t ++ r') = Some (span (token_colour m' k0 t) t, length t)) ->
  exists t ps1 ps2 q,
    is_token k0 t /\ Plain c :: ps = map Plain t ++ ps1 ++ ps2 /\
    forall m',
      f m' prev (c :: render m' ps) =
        Some (span (token_colour m' k0 t) t ++ render m' ps1,
              length (t ++ render m' ps1)) /\
      last_of prev (t ++ render m' ps1) = q.
Proof.
  intros HP Hok E Ht Hk Hf.
  destruct (@take_plain m P t c ps r HP Hok E Ht) as (ps2 & Eps & ->).
  exists t, [], ps2, (last_of prev t). split; [exact Hk|]. split; [exact Eps|].
  intro m'. cbn [render flat_map]. rewrite !app_nil_r. split; [|reflexivity].
  change (c :: render m' ps) with (render m' (Plain c :: ps)).
  rewrite Eps, render_app, render_Plain. apply Hf. apply render_head.
Qed.

Section PieceRules.
Variable P : token_kind -> Prop.
Hypothesis P_rank : forall k, P k -> rank k < 3.

Lemma keyword_piece_hit m prev c ps rep n :
  tokens_ok P ps -> keyword_rule m prev (c :: render m ps) = Some (rep, n) ->
  exists t ps1 ps2 q,
    is_token TokKeyword t /\ Plain c :: ps = map Plain t ++ ps1 ++ ps2 /\
    forall m',
      keyword_rule m' prev (c :: render m' ps) =
        Some (span (token_colour m' TokKeyword t) t ++ render m' ps1,
              length (t ++ render m' ps1)) /\
      last_of prev (t ++ render m' ps1) = q.
Proof.
  intros Hok E. apply keyword_hit in E.
  destruct E as (kw & r & E & Hin & _ & _ & Hp & Hr).
  apply (@plain_piece_hit keyword_rule TokKeyword m P prev c ps kw r P_rank
           Hok E (@keyword_no_lt _ Hin) Hin).
  intros m' r' Hhd. apply keyword_rule_at; [exact Hin|exact Hp|].
  rewrite Hhd. exact Hr.
Qed.

Lemma arrow_piece_hit m prev c ps rep n :
  tokens_ok P ps -> arrow_rule m prev (c :: render m ps) = Some (rep, n) ->
  exists t ps1 ps2 q,
    is_token TokOperator t /\ Plain c :: ps = map Plain t ++ ps1 ++ ps2 /\
    forall m',
      arrow_rule m' prev (c :: render m' ps) =
        Some (span (token_colour m' TokOperator t) t ++ render m' ps1,
              length (t ++ render m' ps1)) /\
      last_of prev (t ++ render m' ps1) = q.
Proof.
  intros Hok E. apply arrow_hit in E. destruct E as (r & E & _ & _).
  assert (Hm : ~ In 60%N arrow).
  { unfold arrow. cbn [In]. intros [H|[H|[H|[]]]]; discriminate. }
  apply (@plain_piece_hit arrow_rule TokOperator m P prev c ps arrow r P_rank
           Hok E Hm eq_refl).
  intros m' r' _. rewrite arrow_rule_spec. unfold arrow_at.
  rewrite starts_with_refl. reflexivity.
Qed.

Lemma node_piece_hit m prev c ps rep n :
  tokens_ok P ps -> node_rule m prev (c :: render m ps) = Some (rep, n) ->
  exists t ps1 ps2 q,
    is_token TokNode t /\ Plain c :: ps = map Plain t ++ ps1 ++ ps2 /\
    forall m',
      node_rule m' prev (c :: render m' ps) =
        Some (span (token_colour m' TokNode t) t ++ render m' ps1,
              length (t ++ render m' ps1)) /\
      last_of prev (t ++ render m' ps1) = q.
Proof.
  intros Hok E. rewrite node_rule_spec in E.
  destruct (node_at prev (c :: render m ps)) as [h|] eqn:Eh; [|discriminate].
  clear E. unfold node_at in Eh.
  destruct (is_letter c) eqn:Hl; [|discriminate].
  destruct (boundary prev (Some c) && boundary (Some c) (hd_error (render m ps)))
    eqn:Hb.
  - (* one letter between two boundaries *)
    clear Eh.
    exists [c], [], ps, (Some c). split; [exists c, []; auto|].
    split; [reflexivity|]. intro m'. split; [|reflexivity].
    rewrite node_rule_spec. unfold node_at. rewrite Hl.
    rewrite (render_head m' m), Hb. cbn [option_map node_replacement].
    cbn [render flat_map token_colour app length]. rewrite app_nil_r.
    reflexivity.
  - (* a name and a shape *)
    destruct (name_shape (render m ps)) as [[name sh]|] eqn:En; [|discriminate].
    clear Eh. apply name_shape_some in En.
    destruct En as (Hname & Hsh & r & Er).
    destruct Hsh as (body & Hshape & Hdot).
    assert (Hdelim : exists open close,
               sh = open :: body ++ [close] /\ ~ In close body /\
               open <> 60%N /\ (close = 41%N \/ close = 93%N) /\
               (forall body', ~ In close body' ->
                  Forall (fun c => is_dot c = true) body' ->
                  shape (open :: body' ++ [close]))).
    { destruct Hshape as [[-> Hn]|[-> Hn]].
      - exists 40%N, 41%N. repeat split; auto; [discriminate|].
        intros body' H1 H2. exists body'. auto.
      - exists 91%N, 93%N. repeat split; auto; [discriminate|].
        intros body' H1 H2. exists body'. auto. }
    destruct Hdelim as (open & close & -> & Hbody & Hopen & Hclose & Hmk).
    assert (Hhead : ~ In 60%N ((c :: name) ++ [open])).
    { intro Hin. apply in_app_or in Hin. destruct Hin as [[Hin|Hin]|[Hin|[]]].
      - rewrite Hin in Hl. discriminate Hl.
      - rewrite Forall_forall in Hname. apply Hname in Hin. discriminate Hin.
      - congruence. }
    assert (E' : c :: render m ps =
                 ((c :: name) ++ [open]) ++ (body ++ close :: r)).
    { rewrite Er. cbn [app]. rewrite <- ?app_assoc. cbn [app].
      rewrite <- ?app_assoc. reflexivity. }
    destruct (@take_plain m P _ c ps _ P_rank Hok E' Hhead) as (ps3 & Eps & E3).
    assert (Hok3 : tokens_ok P ps3).
    { assert (Hall : tokens_ok P (Plain c :: ps))
        by (constructor; [exact I|exact Hok]).
      rewrite Eps in Hall. apply tokens_ok_app in Hall. apply Hall. }
    assert (Hb3 : blocks mild (items_of m ps3))
      by (apply (@blocks_mild m P ps3 P_rank); exact Hok3).
    assert (HQc : forall b, mild b -> ~ In close b).
    { intros b Hq. destruct (@mild_guarded b Hq) as (_ & H41 & H93).
      destruct Hclose as [-> | ->]; assumption. }
    destruct (@take_until mild close HQc body (items_of m ps3) r Hb3)
      as (lb & l2 & El & Hflb & Hfl2 & _);
      [rewrite flat_items; symmetry; exact E3|exact Hbody|].
    apply items_of_app_inv in El.
    destruct El as (psb & ps4 & -> & Elb & E4).
    apply (@items_of_Ch_inv m [close]) in E4.
    destruct E4 as (ps2 & -> & ->).
    rewrite <- Elb, flat_items in Hflb.
    apply tokens_ok_app in Hok3. destruct Hok3 as [Hokb _].
    assert (Hbody' : forall m',
               ~ In close (render m' psb) /\
               Forall (fun c => is_dot c = true) (render m' psb)).
    { intro m'.
      assert (HR : Forall (fun c => c <> close /\ is_dot c = true)
                     (render m' psb)).
      { apply (@render_Forall _ m m').
        - intros k t Hin. destruct (@tokens_ok_In P psb k t Hokb Hin) as [Hk Ht].
          pose proof (@token_span_mild m' k t (P_rank Hk) Ht) as Hm.
          pose proof (HQc _ Hm) as Hnc.
          pose proof (@span_dot _ _ (@token_colour_hex m' k t Ht) (@token_dot k t Ht)) as Hd.
          rewrite Forall_forall in Hd |- *. intros x Hx. split.
          + intros ->. apply Hnc. exact Hx.
          + apply Hd. exact Hx.
        - rewrite Hflb. rewrite Forall_forall in Hdot |- *.
          intros x Hx. split.
          + intros ->. apply Hbody. exact Hx.
          + apply Hdot. exact Hx. }
      rewrite Forall_forall in HR. split.
      - intro Hin. apply HR in Hin. destruct Hin as [Hin _]. apply Hin.
        reflexivity.
      - apply Forall_forall. intros x Hx. apply HR. exact Hx. }
    exists (c :: name), (Plain open :: psb ++ [Plain close]), ps2, (Some close).
    split; [exists c, name; auto|]. split.
    { rewrite Eps, map_app. cbn [map app]. rewrite <- ?app_assoc. cbn [app].
      rewrite <- ?app_assoc. reflexivity. }
    intro m'.
    assert (Er1 : render m' (Plain open :: psb ++ [Plain close]) =
                  open :: render m' psb ++ [close]).
    { change (render m' (Plain open :: psb ++ [Plain close]))
        with (open :: render m' (psb ++ [Plain close])).
      rewrite render_app. reflexivity. }
    rewrite Er1. split.
    + assert (Es : render m' ps =
                   name ++ (open :: render m' psb ++ [close]) ++ render m' ps2).
      { assert (Eall : render m' (Plain c :: ps) =
                  render m' (map Plain ((c :: name) ++ [open]) ++
                             psb ++ map Plain [close] ++ ps2))
          by (rewrite Eps; reflexivity).
        rewrite !render_app, !render_Plain in Eall.
        change (render m' (Plain c :: ps)) with (c :: render m' ps) in Eall.
        cbn [app] in Eall. injection Eall as Eall. rewrite Eall.
        rewrite <- ?app_assoc. cbn [app]. rewrite <- ?app_assoc. reflexivity. }
      rewrite node_rule_spec. unfold node_at. rewrite Hl.
      rewrite (render_head m' m), Hb. rewrite Es.
      destruct (Hbody' m') as [Hnc Hd].
      rewrite name_shape_name by (auto using Hmk).
      reflexivity.
    + rewrite app_comm_cons, app_assoc, last_of_app. reflexivity.
Qed.

End PieceRules.

(** *** The four colouring steps, under every palette at once *)

Lemma step_pieces (f : PaletteMode -> rule) (k0 : token_kind) :
  (forall m, proper (f m)) ->
  (forall m k t, rank k < rank k0 -> is_token k t ->
     inert (f m) (span (token_colour m k t) t)) ->
  (forall m prev c ps rep n,
      tokens_ok (fun k => rank k < rank k0) ps ->
      f m prev (c :: render m ps) = Some (rep, n) ->
      exists t ps1 ps2 q,
        is_token k0 t /\ Plain c :: ps = map Plain t ++ ps1 ++ ps2 /\
        forall m',
          f m' prev (c :: render m' ps) =
            Some (span (token_colour m' k0 t) t ++ render m' ps1,
                  length (t ++ render m' ps1)) /\
          last_of prev (t ++ render m' ps1) = q) ->
  forall ps,
    tokens_ok (fun k => rank k < rank k0) ps ->
    exists ps',
      (forall m, replace_all (f m) (render m ps) = render m ps') /\
      text ps' = text ps /\
      tokens_ok (fun k => rank k < S (rank k0)) ps' /\
      Refines ps ps'.
Proof.
  intros Hf Hi Hh ps Hok.
  destruct (@weave_pieces f (fun k => rank k < rank k0) k0 Hf Hi Hh ps None Hok)
    as (ps' & E & Et & Hok' & Hr).
  exists ps'. split; [exact E|]. split; [exact Et|]. split; [|exact Hr].
  eapply tokens_ok_mono; [|exact Hok'].
  intros k [H| ->]; lia.
Qed.

Lemma keyword_pieces ps :
  tokens_ok (fun k => rank k < 1) ps ->
  exists ps',
    (forall m, keyword_step m (render m ps) = render m ps') /\
    text ps' = text ps /\ tokens_ok (fun k => rank k < 2) ps' /\
    Refines ps ps'.
Proof.
  apply (@step_pieces keyword_rule TokKeyword).
  - apply keyword_proper.
  - intros m k t Hk Ht. apply quiet_inert_keyword.
    destruct k; cbn [rank] in Hk; try lia.
    apply (span_hex_solid m Ht).
  - intros m prev c ps0 rep n.
    apply (@keyword_piece_hit (fun k => rank k < 1)). cbn [rank]. intros; lia.
Qed.

Lemma node_pieces ps :
  tokens_ok (fun k => rank k < 2) ps ->
  exists ps',
    (forall m, node_step m (render m ps) = render m ps') /\
    text ps' = text ps /\ tokens_ok (fun k => rank k < 3) ps' /\
    Refines ps ps'.
Proof.
  apply (@step_pieces node_rule TokNode).
  - apply node_proper.
  - intros m k t Hk Ht.
    destruct k; cbn [rank] in Hk; try lia.
    + apply (solid_firm (span_hex_solid m Ht)).
    + apply (span_keyword_firm m Ht).
  - intros m prev c ps0 rep n.
    apply (@node_piece_hit (fun k => rank k < 2)). cbn [rank]. intros; lia.
Qed.

Lemma arrow_pieces ps :
  tokens_ok (fun k => rank k < 3) ps ->
  exists ps',
    (forall m, arrow_step m (render m ps) = render m ps') /\
    text ps' = text ps /\ tokens_ok (fun k => rank k < 4) ps' /\
    Refines ps ps'.
Proof.
  apply (@step_pieces arrow_rule TokOperator).
  - apply arrow_proper.
  - intros m k t Hk Ht. apply calm_inert_arrow.
    apply (@token_span_mild m k t Hk Ht).
  - intros m prev c ps0 rep n.
    apply (@arrow_piece_hit (fun k => rank k < 3)). auto.
Qed.

(** The hex step, which leaves no hex colour unwrapped. *)
Lemma hex_walk_pieces s : forall prev,
  exists ps,
    (forall m, walk (hex_rule m) prev s = render m ps) /\
    text ps = s /\ tokens_ok (fun k => rank k < 1) ps /\ hexless ps.
Proof.
  remember (length s) as j eqn:Hj. revert s Hj.
  induction j as [j IH] using lt_wf_ind. intros s Hj prev.
  destruct s as [|c s].
  - exists []. split; [|split; [reflexivity|split; [constructor|exact I]]].
    intro m. apply replace_nil. apply hex_proper.
  - destruct (hex_at (c :: s)) as [t|] eqn:E.
    + destruct (hex_at_some _ E) as (Ht & r & Es).
      pose proof (hex_token_length Ht) as Hl.
      destruct (IH (length r)) with (s := r) (prev := last_of prev t)
        as (ps & Ep & Et & Hok & Hh); [|reflexivity|].
      { subst j. rewrite Es, length_app. lia. }
      exists (Token TokHex t :: ps). split; [|split; [|split]].
      * intro m.
        assert (Eh : hex_rule m prev (c :: s) = Some (span t t, 7))
          by (rewrite hex_rule_spec, E; reflexivity).
        rewrite (@replace_hit _ _ _ _ _ (hex_proper m) Eh), Es.
        rewrite firstn_app_le, skipn_app_le by lia.
        rewrite <- Hl, firstn_all, skipn_all. cbn [app]. rewrite Ep.
        reflexivity.
      * change (text (Token TokHex t :: ps)) with (t ++ text ps).
        rewrite Et, Es. reflexivity.
      * constructor; [split; [cbn [rank]; lia|exact Ht]|exact Hok].
      * exact Hh.
    + destruct (IH (length s)) with (s := s) (prev := Some c)
        as (ps & Ep & Et & Hok & Hh); [subst j; simpl; lia|reflexivity|].
      exists (Plain c :: ps). split; [|split; [|split]].
      * intro m.
        rewrite replace_miss by (rewrite hex_rule_spec, E; reflexivity).
        rewrite Ep. reflexivity.
      * change (text (Plain c :: ps)) with (c :: text ps). rewrite Et.
        reflexivity.
      * constructor; [exact I|exact Hok].
      * cbn [hexless]. rewrite Et. split; [exact E|exact Hh].
Qed.

Lemma coloredLine_pieces line :
  exists ps,
    (forall mode, coloredLine mode line = render mode ps) /\
    text ps = escape_step line /\
    tokens_ok (fun _ => True) ps /\
    hexless ps.
Proof.
  destruct (hex_walk_pieces (escape_step line) None)
    as (ps1 & E1 & T1 & H1 & Hh1).
  destruct (keyword_pieces H1) as (ps2 & E2 & T2 & H2 & R2).
  destruct (node_pieces H2) as (ps3 & E3 & T3 & H3 & R3).
  destruct (arrow_pieces H3) as (ps4 & E4 & T4 & H4 & R4).
  exists ps4. split; [|split; [|split]].
  - intro mode. unfold coloredLine, hex_step, replace_all.
    rewrite E1. fold (replace_all (hex_rule mode)).
    rewrite E2, E3, E4. reflexivity.
  - rewrite T4, T3, T2, T1. reflexivity.
  - eapply tokens_ok_mono; [|exact H4]. auto.
  - apply (Refines_hexless R4). apply (Refines_hexless R3).
    apply (Refines_hexless R2). exact Hh1.
Qed.

(** X5. The markup of a line is its escaped text with some hex colours,
    keywords, node names and arrows each put in a span of its own: every
    span the highlighter emits is opened and closed around one such token
    and none lies within another.  The same tokens are wrapped under both
    palettes, so that the dark and the light markup of a line differ in
    the colours of the keyword, node and arrow spans only; the colour of a
    span is always a [#RRGGBB] value, and a hex colour is coloured by
    itself under both.  The span of a token [t] in a colour [c] is the
    text [<span style="color: c">t</span>], and the colours of keywords,
    node names and arrows are those of the palette. *)
Theorem markup_is_tokens_in_spans (line : list N) :
  (exists ps,
     (forall mode, coloredLine mode line = render mode ps) /\
     text ps = escape_step line /\
     tokens_ok (fun _ => True) ps) /\
  (forall mode k t, is_token k t -> hex_token (token_colour mode k t)) /\
  (forall mode t, token_colour mode TokHex t = t) /\
  (forall mode k t,
      render mode [Token k t] =
      lit "<span style=" ++ dquote :: lit "color: " ++ token_colour mode k t ++
      dquote :: lit ">" ++ t ++ lit "</span>") /\
  (forall mode t,
      token_colour mode TokKeyword t =
        match mode with dark => lit "#B39DDB" | light => lit "#9575CD" end /\
      token_colour mode TokNode t =
        match mode with dark => lit "#4fa1e3" | light => lit "#64B5F6" end /\
      token_colour mode TokOperator t =
        match mode with dark => lit "#7DD180" | light => lit "#81C784" end).
Proof.
  split.
  { destruct (coloredLine_pieces line) as (ps & E & T & Hok & _).
    exists ps. auto. }
  split; [|split; [|split]].
  - intros mode k t H. apply token_colour_hex. exact H.
  - reflexivity.
  - intros mode k t. cbn [render flat_map]. rewrite app_nil_r.
    apply span_text.
  - intros mode t. destruct mode; repeat split.
Qed.

Lemma markup_is_tokens_witness :
  hex_token (token_colour dark TokKeyword (lit "graph")).
Proof.
  apply (proj1 (proj2 (markup_is_tokens_in_spans [])) dark TokKeyword
           (lit "graph")).
  left. reflexivity.
Defined.

(** *** Lines that hold no token *)

Lemma no_letter_no_tag s :
  forallb (fun c => negb (is_letter c)) s = true -> contains br_tag s = false.
Proof.
  induction s as [|c s IH]; intro H; [reflexivity|].
  cbn [forallb] in H. apply andb_true_iff in H. destruct H as [Hc Hs].
  cbn [contains]. rewrite (IH Hs), orb_false_r.
  destruct (starts_with br_tag (c :: s)) eqn:E; [|reflexivity].
  apply starts_with_app in E. cbn in E. injection E as -> E.
  rewrite E in Hs. discriminate Hs.
Qed.

Lemma hex_walk_free mode : forall s prev,
  hex_free s = true -> walk (hex_rule mode) prev s = s.
Proof.
  induction s as [|c s IH]; intros prev H.
  - apply replace_nil. apply hex_proper.
  - cbn [hex_free] in H. destruct (hex_at (c :: s)) eqn:E; [discriminate|].
    rewrite replace_miss by (rewrite hex_rule_spec, E; reflexivity).
    rewrite IH by assumption. reflexivity.
Qed.

Lemma walk_all (f : rule) (s : list N) :
  proper f ->
  (forall c prev r, In c s -> f prev (c :: r) = None) ->
  forall prev, walk f prev s = s.
Proof.
  intros Hf Hmiss prev.
  rewrite <- (app_nil_r s) at 1. rewrite walk_copy by assumption.
  rewrite replace_nil by assumption. apply app_nil_r.
Qed.

Lemma no_letter_keyword mode s prev :
  forallb (fun c => negb (is_letter c)) s = true ->
  walk (keyword_rule mode) prev s = s.
Proof.
  intro H. apply walk_all; [apply keyword_proper|].
  intros c p r Hin. rewrite forallb_forall in H. apply H in Hin.
  apply negb_true_iff in Hin.
  apply keyword_miss; intros ->; discriminate Hin.
Qed.

Lemma no_letter_node mode s prev :
  forallb (fun c => negb (is_letter c)) s = true ->
  walk (node_rule mode) prev s = s.
Proof.
  intro H. apply walk_all; [apply node_proper|].
  intros c p r Hin. rewrite forallb_forall in H. apply H in Hin.
  apply negb_true_iff in Hin. apply node_miss_nonletter. exact Hin.
Qed.

(** X6. A line that holds no letter of [A-Z] or [a-z], no [#] followed by
    six hex digits and no arrow [-->] is its own markup: digits,
    punctuation, blanks and the letters of other alphabets are copied as
    they are; and its row shows [&nbsp;] only when the line is empty. *)
Theorem line_without_tokens_is_copied (mode : PaletteMode) (line : list N) :
  forallb (fun c => negb (is_letter c)) line = true ->
  hex_free line = true ->
  contains arrow line = false ->
  coloredLine mode line = line /\
  (line <> [] -> or_nbsp (coloredLine mode line) = line).
Proof.
  intros Hl Hh Ha.
  assert (E : coloredLine mode line = line).
  { unfold coloredLine, escape_step, hex_step, keyword_step, node_step,
      arrow_step, replace_all.
    rewrite escape_walk_id by (apply no_letter_no_tag; exact Hl).
    rewrite hex_walk_free by exact Hh.
    rewrite no_letter_keyword by exact Hl.
    rewrite no_letter_node by exact Hl.
    apply arrow_walk_free. exact Ha. }
  split; [exact E|]. intro Hne. rewrite E.
  destruct line; [contradiction|reflexivity].
Qed.

Lemma line_without_tokens_witness :
  let line := [233; 8594]%N ++ lit " 1 -> (2) <= #34 & 5%" in
  coloredLine light line = line /\
  (line <> [] -> or_nbsp (coloredLine light line) = line).
Proof.
  cbv zeta.
  apply (@line_without_tokens_is_copied light
           ([233; 8594]%N ++ lit " 1 -> (2) <= #34 & 5%"));
    reflexivity.
Defined.

(** *** A name that begins within a word *)

Lemma node_walk_shaped_mid mode p c n sh r :
  is_word p = true -> is_letter c = true ->
  Forall (fun x => is_alnum x = true) n -> shape sh ->
  walk (node_rule mode) (Some p) ((c :: n) ++ sh ++ r) =
  span (node (getColors mode)) (c :: n) ++ sh ++
  walk (node_rule mode) (last_of (Some p) ((c :: n) ++ sh)) r.
Proof.
  intros Hp Hl Hn Hsh.
  assert (E : node_rule mode (Some p) ((c :: n) ++ sh ++ r) =
              Some (span (node (getColors mode)) (c :: n) ++ sh,
                    length ((c :: n) ++ sh))).
  { rewrite node_rule_spec. unfold node_at, boundary. cbn [app hd_error].
    rewrite Hl. cbn [is_word_opt]. rewrite Hp, (is_letter_word _ Hl).
    cbn [xorb andb]. rewrite name_shape_name by assumption. reflexivity. }
  rewrite (@replace_hit _ _ _ _ _ (node_proper mode) E).
  rewrite app_assoc, firstn_app_le, skipn_app_le, firstn_all, skipn_all by lia.
  cbn [app]. rewrite <- app_assoc. reflexivity.
Qed.

(** X7. The node step also wraps a name that begins in the middle of a
    word: after a letter, a digit or an underscore, a letter followed by
    letters and digits and then directly by a shape is put in a node span,
    the shape is copied without being looked into, and the walk goes on
    after the shape.  So in [1TD(x)] the keyword [TD] is coloured as a
    node and [x] is left bare.  The node span of a text [x] is the text
    [<span style="color: c">x</span>] with [c] the node colour of the
    palette. *)
Theorem name_within_a_word_is_wrapped (mode : PaletteMode) :
  (forall p c n sh r,
      is_word p = true -> is_letter c = true ->
      Forall (fun x => is_alnum x = true) n -> shape sh ->
      walk (node_rule mode) (Some p) ((c :: n) ++ sh ++ r) =
      span (node (getColors mode)) (c :: n) ++ sh ++
      walk (node_rule mode) (last_of (Some p) ((c :: n) ++ sh)) r) /\
  coloredLine mode (lit "1TD(x)") =
    lit "1" ++ span (node (getColors mode)) (lit "TD") ++ lit "(x)" /\
  (forall x,
      span (node (getColors mode)) x =
      lit "<span style=" ++ dquote :: lit "color: " ++
      match mode with dark => lit "#4fa1e3" | light => lit "#64B5F6" end ++
      dquote :: lit ">" ++ x ++ lit "</span>").
Proof.
  split; [intros; apply node_walk_shaped_mid; assumption|].
  split; [destruct mode; vm_compute; reflexivity|].
  intro x. rewrite span_text. destruct mode; reflexivity.
Qed.

Lemma name_within_a_word_witness :
  walk (node_rule light) (Some 49%N) (lit "a" ++ lit "(x)" ++ lit " b") =
  span (node (getColors light)) (lit "a") ++ lit "(x)" ++
  walk (node_rule light) (last_of (Some 49%N) (lit "a" ++ lit "(x)")) (lit " b").
Proof.
  apply (proj1 (name_within_a_word_is_wrapped light) 49%N 97%N [] (lit "(x)")
           (lit " b")).
  - reflexivity.
  - reflexivity.
  - constructor.
  - exists (lit "x"). split.
    + left. split; [reflexivity|]. cbn. intros [H|[]]. discriminate H.
    + repeat constructor.
Defined.

(** *** The two layers lie on one another *)

(** X8. Under every theme the transparent textarea and the coloured
    overlay have the same position, size, padding, font, line height,
    overflow and white-space handling, so that the text typed and its
    coloured copy are laid out alike; the text and the background of the
    textarea are transparent and the overlay takes no pointer events; the
    gutter is as wide as the left padding of the layers, starts at their
    top padding and has their font size and line height.  The tab size is
    set on the textarea only. *)
Theorem layers_are_laid_out_alike (theme : Theme) :
  let textarea := EditorTextarea theme in
  let overlay := SyntaxHighlight theme in
  let gutter := LineNumbers theme in
  (forall k, In k text_layout ->
     css_get k textarea = css_get k overlay /\ css_get k textarea <> None) /\
  css_get "color" textarea = Some (CssText (lit "transparent")) /\
  css_get "backgroundColor" textarea = Some (CssText (lit "transparent")) /\
  css_get "pointerEvents" overlay = Some (CssText (lit "none")) /\
  css_get "width" gutter = css_get "paddingLeft" overlay /\
  css_get "top" gutter = css_get "paddingTop" overlay /\
  css_get "fontSize" gutter = css_get "fontSize" overlay /\
  css_get "lineHeight" gutter = css_get "lineHeight" overlay /\
  css_get "tabSize" textarea = Some (CssNumber 4 0) /\
  css_get "tabSize" overlay = None.
Proof.
  cbv zeta. split; [|repeat split].
  intros k Hin. unfold text_layout in Hin. cbn [In] in Hin.
  repeat (destruct Hin as [<-|Hin]; [split; [reflexivity|discriminate]|]).
  contradiction.
Qed.

Lemma layers_witness :
  let theme := MkTheme dark (lit "#fff") (lit "#000") (lit "rgba(255, 255, 255, 0.7)") in
  css_get "fontFamily" (EditorTextarea theme) =
    css_get "fontFamily" (SyntaxHighlight theme) /\
  css_get "fontFamily" (EditorTextarea theme) <> None.
Proof.
  cbv zeta.
  apply (proj1 (layers_are_laid_out_alike
                  (MkTheme dark (lit "#fff") (lit "#000")
                     (lit "rgba(255, 255, 255, 0.7)")))
           "fontFamily"%string).
  unfold text_layout. cbn [In]. do 8 right. left. reflexivity.
Defined.

(** *** Deleting the span tags from the markup of a line *)

Lemma plain_prefix m t : forall ps r,
  render m ps = t ++ r -> ~ In 60%N t ->
  exists ps2, ps = map Plain t ++ ps2 /\ r = render m ps2.
Proof.
  induction t as [|d t IH]; intros ps r E Ht; cbn [app] in E.
  - exists ps. auto.
  - destruct ps as [|[c|k x] ps].
    + discriminate E.
    + change (render m (Plain c :: ps)) with (c :: render m ps) in E.
      injection E as -> E.
      destruct (IH ps r E) as (ps2 & -> & ->).
      { intro Hin. apply Ht. right. exact Hin. }
      exists ps2. auto.
    + exfalso.
      change (render m (Token k x :: ps))
        with (span (token_colour m k x) x ++ render m ps) in E.
      destruct (span_head (token_colour m k x) x) as [b Eb].
      rewrite Eb in E. cbn [app] in E. injection E as <- _.
      apply Ht. left. reflexivity.
Qed.

Lemma token_no_lt k t : is_token k t -> ~ In 60%N t.
Proof.
  destruct k; cbn [is_token]; intro H.
  - apply hex_token_no_lt. exact H.
  - apply keyword_no_lt. exact H.
  - destruct H as (c & n & -> & Hc & Hn). intros [E|Hin].
    + rewrite E in Hc. discriminate Hc.
    + rewrite Forall_forall in Hn. apply Hn in Hin. discriminate Hin.
  - subst t. unfold arrow. cbn [In]. intros [H|[H|[H|[]]]]; discriminate.
Qed.

Lemma wrapper_at_other c s : c <> 60%N -> wrapper_at (c :: s) = None.
Proof.
  intro Hc. unfold wrapper_at, span_close, open_prefix. norm_lit.
  cbn [starts_with]. destruct (N.eqb_spec 60 c) as [E|_]; [congruence|].
  reflexivity.
Qed.

Lemma contains_app_r p a : forall b,
  contains p (a ++ b) = false -> contains p b = false.
Proof.
  induction a as [|c a IH]; intros b H; [exact H|].
  cbn [app] in H. apply contains_false_cons in H. apply IH. apply H.
Qed.

Lemma text_plain_hexless t ps :
  hex_token t -> hexless (map Plain t ++ ps) -> False.
Proof.
  intros Ht Hh. pose proof Ht as (h & -> & _).
  cbn [map app hexless] in Hh. destruct Hh as [Hc _].
  change (35%N :: text (map Plain h ++ ps)) with (text (map Plain (35%N :: h) ++ ps)) in Hc.
  rewrite text_app, text_Plain, (hex_at_token _ Ht) in Hc. discriminate Hc.
Qed.

(** A plain character of the markup begins no text of the form of a span
    tag, unless the text of the line holds [</span>] there. *)
Lemma wrapper_at_plain m c ps :
  hexless (Plain c :: ps) ->
  starts_with span_close (text (Plain c :: ps)) = false ->
  wrapper_at (c :: render m ps) = None.
Proof.
  intros Hh Hc.
  destruct (wrapper_at (c :: render m ps)) as [n|] eqn:E; [exfalso|reflexivity].
  destruct (wrapper_at_some _ E) as (w & r & Hw & Es).
  destruct Hw as [t Ht|].
  - rewrite span_open_split in Es. unfold open_prefix in Es.
    cbn [app] in Es. injection Es as -> Es.
    rewrite <- app_assoc in Es.
    change (render m ps =
            [115; 112; 97; 110; 32; 115; 116; 121; 108; 101; 61; 34;
             99; 111; 108; 111; 114; 58; 32]%N ++ (t ++ [dquote; 62%N] ++ r))
      in Es.
    destruct (@plain_prefix m _ _ _ Es) as (ps2 & -> & E2).
    { cbn [In]. intros H.
      repeat (destruct H as [H|H]; [discriminate H|]). exact H. }
    symmetry in E2.
    destruct (@plain_prefix m _ _ _ E2 (hex_token_no_lt Ht)) as (ps3 & -> & _).
    cbn [hexless] in Hh. destruct Hh as [_ Hh].
    apply hexless_drop in Hh. exact (@text_plain_hexless _ _ Ht Hh).
  - unfold span_close in Es. norm_lit. cbn [app] in Es. injection Es as -> Es.
    destruct (@plain_prefix m (lit "/span>") ps r Es) as (ps2 & -> & _).
    { cbn [In lit]. intros H.
      repeat (destruct H as [H|H]; [discriminate H|]). exact H. }
    change (text (Plain 60%N :: map Plain (lit "/span>") ++ ps2))
      with (text (map Plain (60%N :: lit "/span>") ++ ps2)) in Hc.
    rewrite text_app, text_Plain in Hc.
    change (60%N :: lit "/span>") with span_close in Hc.
    rewrite starts_with_refl in Hc. discriminate Hc.
Qed.

Lemma strip_render m : forall ps,
  tokens_ok (fun _ => True) ps -> hexless ps ->
  contains span_close (text ps) = false ->
  forall prev, walk strip_rule prev (render m ps) = text ps.
Proof.
  induction ps as [|[c|k t] ps IH]; intros Hok Hh Hc prev.
  - apply replace_nil. apply strip_proper.
  - change (render m (Plain c :: ps)) with (c :: render m ps).
    change (text (Plain c :: ps)) with (c :: text ps) in *.
    apply contains_false_cons in Hc. destruct Hc as [Hs Hc].
    rewrite replace_miss.
    + f_equal. apply IH; [|apply Hh|exact Hc].
      inversion Hok; assumption.
    + unfold strip_rule. rewrite (@wrapper_at_plain m c ps Hh Hs). reflexivity.
  - inversion Hok as [|? ? Hp Hok']; subst. destruct Hp as [_ Ht].
    change (render m (Token k t :: ps))
      with (span (token_colour m k t) t ++ render m ps).
    change (text (Token k t :: ps)) with (t ++ text ps) in *.
    unfold span. rewrite <- !app_assoc.
    pose proof (@token_colour_hex m k t Ht) as Hcol.
    assert (Eo : strip_rule prev (span_open (token_colour m k t) ++
                                  t ++ span_close ++ render m ps) =
                 Some ([], length (span_open (token_colour m k t)))).
    { unfold strip_rule.
      rewrite (@wrapper_at_wrapper _ _ (wrapper_open Hcol)). reflexivity. }
    rewrite (@replace_hit _ _ _ _ _ strip_proper Eo).
    rewrite skipn_app_le, skipn_all by lia. cbn [app].
    rewrite walk_copy.
    + f_equal.
      assert (Ec : forall p, strip_rule p (span_close ++ render m ps) =
                             Some ([], length span_close)).
      { intro p. unfold strip_rule.
        rewrite (@wrapper_at_wrapper _ _ wrapper_close). reflexivity. }
      rewrite (@replace_hit _ _ _ _ _ strip_proper (Ec _)).
      rewrite skipn_app_le, skipn_all by lia. cbn [app].
      apply IH; [exact Hok'|exact Hh|]. apply (@contains_app_r _ _ _ Hc).
    + intros d p s0 Hin. unfold strip_rule. rewrite wrapper_at_other;
        [reflexivity|].
      intros ->. exact (@token_no_lt k t Ht Hin).
Qed.

(** Deleting the span tags from the markup of a line that does not hold
    the text [</span>] gives the escaped line. *)
Lemma strip_colored mode line :
  contains span_close (escape_step line) = false ->
  strip_spans (coloredLine mode line) = escape_step line.
Proof.
  intro Hc. destruct (coloredLine_pieces line) as (ps & E & T & Hok & Hh).
  rewrite E, <- T. unfold strip_spans, replace_all.
  apply strip_render; [exact Hok|exact Hh|]. rewrite T. exact Hc.
Qed.

(** *** The text [</span>] in a line and in its escaped form *)

Lemma starts_with_br_escaped q :
  ~ In 60%N q -> ~ In 38%N q ->
  forall s, starts_with q (br_escaped s) = starts_with q s.
Proof.
  induction q as [|d q IH]; intros H60 H38 s; [destruct s; reflexivity|].
  destruct s as [|x s]; [reflexivity|].
  destruct (starts_with br_tag (x :: s)) eqn:E.
  - pose proof (starts_with_app _ _ E) as Es. rewrite Es at 1 2.
    rewrite br_escaped_tag. unfold escaped_br, br_tag. cbn [app starts_with].
    destruct (N.eqb_spec d 38) as [->|_];
      [exfalso; apply H38; left; reflexivity|].
    destruct (N.eqb_spec d 60) as [->|_];
      [exfalso; apply H60; left; reflexivity|].
    reflexivity.
  - rewrite br_escaped_other by exact E. cbn [starts_with].
    rewrite IH; [reflexivity| |].
    + intro Hin. apply H60. right. exact Hin.
    + intro Hin. apply H38. right. exact Hin.
Qed.

Lemma starts_with_close_other c s :
  c <> 60%N -> starts_with span_close (c :: s) = false.
Proof.
  intro Hc. unfold span_close. norm_lit. cbn [starts_with].
  destruct (N.eqb_spec 60 c) as [E|_]; [congruence|reflexivity].
Qed.

Lemma starts_with_close_cons x s :
  starts_with span_close (x :: s) =
  (60 =? x)%N && starts_with [47; 115; 112; 97; 110; 62]%N s.
Proof. reflexivity. Qed.

Lemma contains_close_skip w x :
  ~ In 60%N w -> contains span_close (w ++ x) = contains span_close x.
Proof.
  induction w as [|c w IH]; intro H; [reflexivity|].
  cbn [app]. rewrite contains_cons, starts_with_close_other.
  - apply IH. intro Hin. apply H. right. exact Hin.
  - intros ->. apply H. left. reflexivity.
Qed.

Lemma contains_close_br_escaped s :
  contains span_close (br_escaped s) = contains span_close s.
Proof.
  remember (length s) as j eqn:Hj. revert s Hj.
  induction j as [j IH] using lt_wf_ind. intros s Hj.
  destruct s as [|x s]; [reflexivity|].
  destruct (starts_with br_tag (x :: s)) eqn:E.
  - pose proof (starts_with_app _ _ E) as Es.
    set (r := skipn (length br_tag) (x :: s)) in *.
    assert (Hr : length r < j).
    { subst j. rewrite Es, length_app. cbn [length br_tag]. lia. }
    rewrite Es, br_escaped_tag.
    rewrite contains_close_skip.
    + rewrite (IH _ Hr r eq_refl).
      change (br_tag ++ r) with (60%N :: ([98; 114; 47; 62]%N ++ r)).
      rewrite contains_cons.
      change (starts_with span_close (60%N :: [98; 114; 47; 62]%N ++ r))
        with false.
      cbn [orb]. symmetry. apply contains_close_skip.
      cbn [In]. intros H. repeat (destruct H as [H|H]; [discriminate H|]).
      exact H.
    + unfold escaped_br. cbn [In]. intros H.
      repeat (destruct H as [H|H]; [discriminate H|]). exact H.
  - rewrite br_escaped_other by exact E. rewrite !contains_cons.
    rewrite (IH (length s)) by (subst j; simpl; lia || reflexivity).
    f_equal. rewrite !starts_with_close_cons. f_equal.
    apply starts_with_br_escaped; cbn [In]; intros H;
      repeat (destruct H as [H|H]; [discriminate H|]); exact H.
Qed.

Lemma plain_of_colored mode line :
  contains (lit "</span>") line = false ->
  str_eqb line (lit "&nbsp;") = false ->
  plain_of_row (or_nbsp (coloredLine mode line)) = br_escaped line.
Proof.
  intros Hfree Hne. destruct line as [|c line]; [reflexivity|].
  rewrite or_nbsp_colored. unfold plain_of_row.
  assert (Hs : strip_spans (coloredLine mode (c :: line)) =
               escape_step (c :: line)).
  { apply strip_colored. rewrite escape_step_br_escaped.
    rewrite contains_close_br_escaped. exact Hfree. }
  destruct (str_eqb (coloredLine mode (c :: line)) (lit "&nbsp;")) eqn:E.
  - exfalso. apply str_eqb_eq in E. rewrite E in Hs.
    assert (Hn : escape_step (c :: line) = lit "&nbsp;")
      by (rewrite <- Hs; reflexivity).
    apply escape_step_nbsp in Hn. rewrite Hn, str_eqb_refl in Hne.
    discriminate Hne.
  - rewrite Hs. apply escape_step_br_escaped.
Qed.



